(** * Auto-trade coordination core: a shallow embedding and its properties

    The development follows the backend sources:
    - [jupiter/token-metrics]: the in-memory metrics cache and [fetchTokenMetrics];
    - [auto-trade-market-cap-guard]: [hasAutoTradeMarketCapBounds] and
      [evaluateAutoTradeMarketCapGuard];
    - [auto-trade-reentry-manager.service]: [handlePositionClosed];
    - [auto-trade-reconciliation-manager.service]: [runCycle], [reconcileAgent],
      [reconcileToken];
    - the config endpoint: [getImmediateAutoTradeTokens] and
      [updateAgentTradingConfig];
    - [redis-position-service]: the position cache and its two indexes.

    JavaScript numbers are IEEE binary64 values, so they are Rocq's primitive
    floats.  Asynchronous functions are computations in a state-and-exception
    monad over a [World]; every call that leaves the process is recorded in the
    world's trace and answered by an oracle of the [Env], which may depend on
    everything that happened before. *)

From Stdlib Require Import ZArith Ascii String Floats.
From Stdlib.Strings Require Byte.
From stdpp Require Import base option list gmap strings.

Abbreviation number := float (only parsing).

(** ** JavaScript string helpers (ASCII strings: mint addresses are base58) *)

(** White space and line terminators of [String.prototype.trim] that are ASCII:
    TAB, LF, VT, FF, CR and SPACE. *)
Definition isWhiteSpace (c : ascii) : bool :=
  let n := nat_of_ascii c in
  ((n =? 9) || (n =? 10) || (n =? 11) || (n =? 12) || (n =? 13) || (n =? 32))%nat.

Fixpoint trimStart (s : string) : string :=
  match s with
  | String c rest => if isWhiteSpace c then trimStart rest else s
  | EmptyString => EmptyString
  end.

Definition trimEnd (s : string) : string :=
  String.rev (trimStart (String.rev s)).

Definition trim (s : string) : string := trimEnd (trimStart s).

Definition lowerChar (c : ascii) : ascii :=
  let n := nat_of_ascii c in
  if ((65 <=? n) && (n <=? 90))%nat then ascii_of_nat (n + 32) else c.

Fixpoint toLowerCase (s : string) : string :=
  match s with
  | String c rest => String (lowerChar c) (toLowerCase rest)
  | EmptyString => EmptyString
  end.

(** Truthiness of a string: the empty string is falsy. *)
Definition truthy (s : string) : bool := negb (String.eqb s "").

(** [a?.trim() || b]: the trimmed string when there is one and it is not empty. *)
Definition trimmedOr (a : option string) (b : option string) : option string :=
  match a with
  | Some s => if truthy (trim s) then Some (trim s) else b
  | None => b
  end.

(** ** Data model *)

(** [TokenMetrics] of the Jupiter module: every field may be [null]. *)
Record TokenMetrics := {
  mcap : option number;
  liquidity : option number;
  holderCount : option number;
}.

(** One item of the Jupiter search response; [undefined] and [null] are [None]. *)
Record JupiterMintInformation := {
  jm_mcap : option number;
  jm_liquidity : option number;
  jm_holderCount : option number;
}.

Record CachedMetrics := {
  metrics : option TokenMetrics;
  expiresAt : Z;
}.

(** [AutoTradeTokenConfig] of the shared package, as the backend reads it. *)
Record AutoTradeTokenConfig := {
  address : string;
  symbol : option string;
  enabled : bool;
  marketCapMin : option number;
  marketCapMax : option number;
}.

(** [Pick<AutoTradeTokenConfig, 'marketCapMin' | 'marketCapMax'>]. *)
Record TokenMarketCapBounds := {
  boundMin : option number;
  boundMax : option number;
}.

(** A token configuration passed where bounds are expected (structural typing). *)
Definition boundsOf (token : AutoTradeTokenConfig) : TokenMarketCapBounds :=
  {| boundMin := marketCapMin token; boundMax := marketCapMax token |}.

Record AutoTradeConfig := {
  autoTradeEnabled : bool;
  tokens : option (list AutoTradeTokenConfig);
}.

Record AgentTradingConfig := {
  autoTrade : option AutoTradeConfig;
}.

Record AutoTradeMarketCapGuardResult := {
  allowed : bool;
  reason : string;
  marketCap : option number;
}.

(** The reason codes of the guard, and the string the code reports for each. *)
Inductive GuardReason :=
  | no_bounds_configured
  | metrics_unavailable
  | below_min
  | above_max
  | in_range.

Definition reasonString (r : GuardReason) : string :=
  match r with
  | no_bounds_configured => "no_market_cap_bounds_configured"
  | metrics_unavailable => "market_cap_unavailable"
  | below_min => "market_cap_below_min"
  | above_max => "market_cap_above_max"
  | in_range => "market_cap_in_range"
  end.

(** Argument of [tradingExecutor.executePurchase]. *)
Record PurchaseRequest := {
  pr_agentId : string;
  pr_walletAddress : option string;
  pr_tokenAddress : string;
  pr_tokenSymbol : option string;
  pr_signalId : option Z;
}.

Record PurchaseResult := {
  transactionId : string;
  newPositionId : string;
}.

(** [data] of [prisma.tradingSignal.create]. *)
Record SignalData := {
  sd_tokenAddress : string;
  sd_symbol : option string;
  sd_signalType : string;
  sd_activationReason : string;
  sd_signalStrength : Z;
  sd_source : string;
  sd_userId : string;
}.

(** [PositionClosedEvent] of the position event emitter.  [source] is typed
    ['wallet_reset' | 'trading'] and optional; it is kept as the string it is
    at run time. *)
Record PositionClosedEvent := {
  pc_agentId : string;
  pc_walletAddress : string;
  pc_positionId : string;
  pc_tokenAddress : string;
  pc_tokenSymbol : option string;
  pc_source : option string;
}.

(** A row of the [agentPosition] table, as far as the queries here read it. *)
Record AgentPositionRow := {
  ap_id : string;
  ap_agentId : string;
  ap_walletAddress : string;
  ap_tokenAddress : string;
}.

(** The request of the config endpoint: the authenticated user's id, the [:id]
    parameter and [body.config] ([undefined], [null] or a partial config). *)
Inductive BodyConfig :=
  | BodyUndefined
  | BodyNull
  | BodyPartial (partialConfig : AgentTradingConfig).

Record AuthenticatedRequest := {
  req_user : option string;
  req_params_id : string;
  req_body_config : BodyConfig;
}.

Inductive ResponseBody :=
  | ErrorBody (error : string) (code : option string) (details : list string)
  | ConfigBody (config : AgentTradingConfig).

Record HttpResponse := {
  status : Z;
  body : ResponseBody;
}.

(** What can be thrown: the executor's typed error, the two service errors the
    config endpoint tells apart, and any other error. *)
Inductive Exn :=
  | TradingExecutorError (code : option string) (message : string)
  | AgentServiceError (code : string) (message : string)
  | ConfigServiceError (code : string) (message : string) (details : list string)
  | OtherError (message : string).

Inductive Completion (A : Type) :=
  | Normal (a : A)
  | Thrown (e : Exn).
Arguments Normal {A} a.
Arguments Thrown {A} e.

(** What the awaited Jupiter request can come to. *)
Inductive JupiterBody :=
  | BodyNotArray
  | BodyArray (items : list JupiterMintInformation).

Inductive ProviderOutcome :=
  | RequestRejected                 (* network error, or the 8 s timeout *)
  | HttpNotOk (status : Z) (text : option string)
                                    (* [response.ok] is false; [text]: what
                                       [response.text()] resolves to, if it does *)
  | JsonRejected                    (* [response.json()] rejects *)
  | HttpOk (data : JupiterBody).    (* the body, read at its declared type *)

Inductive LogLevel := Debug | Info | Warn | Error.

(** ** The trace of calls *)

Inductive Event :=
  | EvFetchTokenMetrics (tokenAddress : string)
  | EvProviderCall (time : Z) (tokenAddress : string)
  | EvEvaluateGuard (tokenAddress : string)
  | EvCheckAndSet (key : string) (ttlSeconds : Z)
  | EvLoadAgentConfig (agentId : string)
  | EvGetActiveAgentIds
  | EvGetTradingMode (agentId : string)
  | EvFindWalletByAgentId (agentId tradingMode : string)
  | EvFindFirstPosition (agentId walletAddress tokenAddress : string)
  | EvFindAgent (agentId : string) (userId : option string)
  | EvCreateSignal (data : SignalData)
  | EvUpdateAgentConfig (agentId : string) (config : option AgentTradingConfig)
  | EvExecutePurchase (request : PurchaseRequest)
  | EvLog (level : LogLevel) (message : string).

(** The newest event is the head of the list. *)
Abbreviation Trace := (list Event) (only parsing).

(** ** The environment: the collaborators and constants outside the sources *)

Record Env := {
  (** [Date.now()], in milliseconds *)
  Date_now : Trace → Z;
  (** [process.env.JUPITER_API_KEY] *)
  JUPITER_API_KEY : option string;
  (** the Jupiter Tokens API behind [fetch] *)
  jupiterSearch : Trace → string → ProviderOutcome;
  (** [REDIS_TTL.IDEMPOTENCY] of the shared constants *)
  REDIS_TTL_IDEMPOTENCY : Z;
  (** [idempotencyService.checkAndSet] *)
  checkAndSet_reply : Trace → string → Z → Completion bool;
  (** [configService.loadAgentConfig] *)
  loadAgentConfig_reply : Trace → string → Completion AgentTradingConfig;
  (** [configService.mergeConfigs] and [configService.validateConfig] *)
  mergeConfigs : AgentTradingConfig → AgentTradingConfig → Completion AgentTradingConfig;
  validateConfig : AgentTradingConfig → bool * list string;
  (** [agentService.updateAgentConfig] *)
  updateAgentConfig_reply :
    Trace → string → option AgentTradingConfig → Completion AgentTradingConfig;
  (** [redisAgentService.getActiveAgentIds] and [getTradingMode] *)
  getActiveAgentIds_reply : Trace → Completion (list string);
  getTradingMode_reply : Trace → string → Completion string;
  (** [AgentRepository.findWalletByAgentId]: the wallet's address, if any *)
  findWalletByAgentId_reply : Trace → string → string → Completion (option string);
  (** the rows of the [agentPosition] table (the authoritative store of active
      positions) when it is queried, or the query's failure *)
  agentPosition_rows : Trace → Completion (list AgentPositionRow);
  (** [prisma.agent.findUnique] / [findFirst]: the owner of the agent, if it exists *)
  findAgent_reply : Trace → string → option string → Completion (option string);
  (** [prisma.tradingSignal.create]: the id of the new signal *)
  createSignal_reply : Trace → SignalData → Completion Z;
  (** [tradingExecutor.executePurchase] *)
  executePurchase_reply : Trace → PurchaseRequest → Completion PurchaseResult;
}.

(** ** The world and the monad of asynchronous functions *)

Record World := {
  metricsCache : gmap string CachedMetrics;
  trace : list Event;
}.

Definition M (A : Type) : Type := World → Completion A * World.

#[global] Instance M_ret : MRet M := λ A a w, (Normal a, w).

#[global] Instance M_bind : MBind M := λ A B f m w,
  match m w with
  | (Normal a, w') => f a w'
  | (Thrown e, w') => (Thrown e, w')
  end.

Definition throw {A} (e : Exn) : M A := λ w, (Thrown e, w).

(** [try { body } catch (error) { handler }] *)
Definition tryCatch {A} (body : M A) (handler : Exn → M A) : M A := λ w,
  match body w with
  | (Normal a, w') => (Normal a, w')
  | (Thrown e, w') => handler e w'
  end.

Definition emit (e : Event) : M unit := λ w,
  (Normal tt, {| metricsCache := metricsCache w; trace := e :: trace w |}).

(** A call that leaves the process: it is recorded, then answered. *)
Definition external {A} (e : Event) (reply : Trace → Completion A) : M A := λ w,
  let w' := {| metricsCache := metricsCache w; trace := e :: trace w |} in
  (reply (trace w'), w').

Definition logger (level : LogLevel) (message : string) : M unit :=
  emit (EvLog level message).

Definition getCache : M (gmap string CachedMetrics) := λ w, (Normal (metricsCache w), w).

Definition setCache (c : gmap string CachedMetrics) : M unit := λ w,
  (Normal tt, {| metricsCache := c; trace := trace w |}).

Definition readTrace : M (list Event) := λ w, (Normal (trace w), w).

(** [for (const x of xs) { await body(x) }] *)
Fixpoint forOf {A} (xs : list A) (body : A → M unit) : M unit :=
  match xs with
  | [] => mret tt
  | x :: rest => body x ;; forOf rest body
  end.

Section Program.

Variable env : Env.

(** ** Jupiter token metrics (metrics cache) *)

Definition METRICS_CACHE_TTL_MS : Z := 30000.

Definition now : M Z := λ w, (Normal (Date_now env (trace w)), w).

(** [cacheResult]: store a result with the configured TTL. *)
Definition cacheResult (tokenAddress : string) (m : option TokenMetrics) : M unit :=
  t ← now;
  cache ← getCache;
  setCache (<[tokenAddress := {| metrics := m; expiresAt := (t + METRICS_CACHE_TTL_MS)%Z |}]> cache).

(** [clearTokenMetricsCache] *)
Definition clearTokenMetricsCache : M unit := setCache ∅.

(** How the synchronous start of [fetchTokenMetrics] ends: with a value, or
    suspended on the request it has just issued. *)
Inductive FetchStart :=
  | Returned (m : option TokenMetrics)
  | Awaiting.

(** [cached && Date.now() < cached.expiresAt] *)
Definition unexpired (t : Z) (entry : option CachedMetrics) : option CachedMetrics :=
  match entry with
  | Some cached => if (t <? expiresAt cached)%Z then Some cached else None
  | None => None
  end.

(** [getJupiterApiKey()] followed by the test [!apiKey]. *)
Definition apiKeyMissing : bool :=
  match JUPITER_API_KEY env with
  | Some key => negb (truthy key)
  | None => true
  end.

(** [fetchTokenMetrics] up to its first [await]. *)
Definition fetchTokenMetrics_start (tokenAddress : string) : M FetchStart :=
  emit (EvFetchTokenMetrics tokenAddress);;
  t ← now;
  cache ← getCache;
  match unexpired t (cache !! tokenAddress) with
  | Some cached => mret (Returned (metrics cached))
  | None =>
      if apiKeyMissing then
        logger Warn "JUPITER_API_KEY not set; skipping token metrics fetch";;
        mret (Returned None)
      else
        emit (EvProviderCall t tokenAddress);;
        mret Awaiting
  end.

(** [fetchTokenMetrics] from the point where the request has settled. *)
Definition fetchTokenMetrics_settle (tokenAddress : string) (outcome : ProviderOutcome)
  : M (option TokenMetrics) :=
  match outcome with
  | RequestRejected =>
      logger Warn "Failed to fetch token metrics";;
      cacheResult tokenAddress None;;
      mret None
  | HttpNotOk _ (Some _) =>
      logger Warn "API error";;
      cacheResult tokenAddress None;;
      mret None
  | HttpNotOk _ None =>
      logger Warn "Failed to fetch token metrics";;
      cacheResult tokenAddress None;;
      mret None
  | JsonRejected =>
      logger Warn "Failed to fetch token metrics";;
      cacheResult tokenAddress None;;
      mret None
  | HttpOk BodyNotArray | HttpOk (BodyArray []) =>
      logger Debug "Token not found or empty response";;
      cacheResult tokenAddress None;;
      mret None
  | HttpOk (BodyArray (first :: _)) =>
      let m := {| mcap := jm_mcap first;
                  liquidity := jm_liquidity first;
                  holderCount := jm_holderCount first |} in
      cacheResult tokenAddress (Some m);;
      mret (Some m)
  end.

(** The rest of a started call: the provider answers and the call settles. *)
Definition fetchTokenMetrics_resume (tokenAddress : string) (started : FetchStart)
  : M (option TokenMetrics) :=
  match started with
  | Returned m => mret m
  | Awaiting =>
      tr ← readTrace;
      fetchTokenMetrics_settle tokenAddress (jupiterSearch env tr tokenAddress)
  end.

(** [fetchTokenMetrics], run without interruption. *)
Definition fetchTokenMetrics (tokenAddress : string) : M (option TokenMetrics) :=
  started ← fetchTokenMetrics_start tokenAddress;
  fetchTokenMetrics_resume tokenAddress started.

(** Two calls for one token, the second made while the first awaits the provider. *)
Definition overlappingFetches (tokenAddress : string)
  : M (option TokenMetrics * option TokenMetrics) :=
  first ← fetchTokenMetrics_start tokenAddress;
  second ← fetchTokenMetrics_start tokenAddress;
  m1 ← fetchTokenMetrics_resume tokenAddress first;
  m2 ← fetchTokenMetrics_resume tokenAddress second;
  mret (m1, m2).

(** Two calls for one token, one after the other. *)
Definition consecutiveFetches (tokenAddress : string)
  : M (option TokenMetrics * option TokenMetrics) :=
  m1 ← fetchTokenMetrics tokenAddress;
  m2 ← fetchTokenMetrics tokenAddress;
  mret (m1, m2).

(** ** Market-cap guard *)

Definition isSet {A} (o : option A) : bool :=
  match o with Some _ => true | None => false end.

Definition hasAutoTradeMarketCapBounds (tokenBounds : option TokenMarketCapBounds) : bool :=
  match tokenBounds with
  | None => false
  | Some b => isSet (boundMin b) || isSet (boundMax b)
  end.

(** [tokenBounds?.marketCapMin != null && marketCap < tokenBounds.marketCapMin] *)
Definition belowMin (tokenBounds : option TokenMarketCapBounds) (m : number) : bool :=
  match tokenBounds ≫= boundMin with
  | Some lo => PrimFloat.ltb m lo
  | None => false
  end.

(** [tokenBounds?.marketCapMax != null && marketCap > tokenBounds.marketCapMax] *)
Definition aboveMax (tokenBounds : option TokenMarketCapBounds) (m : number) : bool :=
  match tokenBounds ≫= boundMax with
  | Some hi => PrimFloat.ltb hi m
  | None => false
  end.

Definition evaluateAutoTradeMarketCapGuard
    (tokenAddress : string) (tokenBounds : option TokenMarketCapBounds)
  : M AutoTradeMarketCapGuardResult :=
  emit (EvEvaluateGuard tokenAddress);;
  if negb (hasAutoTradeMarketCapBounds tokenBounds) then
    mret {| allowed := true;
            reason := "no_market_cap_bounds_configured";
            marketCap := None |}
  else
    fetched ← fetchTokenMetrics tokenAddress;
    match fetched ≫= mcap with
    | None =>
        mret {| allowed := false;
                reason := "market_cap_unavailable";
                marketCap := None |}
    | Some cap =>
        if belowMin tokenBounds cap then
          mret {| allowed := false;
                  reason := "market_cap_below_min";
                  marketCap := Some cap |}
        else if aboveMax tokenBounds cap then
          mret {| allowed := false;
                  reason := "market_cap_above_max";
                  marketCap := Some cap |}
        else
          mret {| allowed := true;
                  reason := "market_cap_in_range";
                  marketCap := Some cap |}
    end.

(** ** Shared auto-trade constants *)

Definition AUTO_TRADE_SIGNAL_TYPE : string := "Auto-trade".
Definition AUTO_TRADE_SIGNAL_SOURCE : string := "Trading Engine".

Definition EXPECTED_AUTO_TRADE_SKIP_CODES : list string :=
  ["INSUFFICIENT_BALANCE"; "BELOW_MINIMUM_THRESHOLD"; "POSITION_EXISTS";
   "MAX_POSITIONS_EXCEEDED"; "PRICE_IMPACT_TOO_HIGH"].

(** [error instanceof TradingExecutorError && error.code &&
     EXPECTED_AUTO_TRADE_SKIP_CODES.has(error.code)] *)
Definition isExpectedSkip (error : Exn) : bool :=
  match error with
  | TradingExecutorError (Some code) _ =>
      truthy code && existsb (String.eqb code) EXPECTED_AUTO_TRADE_SKIP_CODES
  | _ => false
  end.

(** ** Collaborators, as recorded calls *)

Definition checkAndSet (key : string) (ttlSeconds : Z) : M bool :=
  external (EvCheckAndSet key ttlSeconds) (λ tr, checkAndSet_reply env tr key ttlSeconds).

Definition loadAgentConfig (agentId : string) : M AgentTradingConfig :=
  external (EvLoadAgentConfig agentId) (λ tr, loadAgentConfig_reply env tr agentId).

Definition updateAgentConfig (agentId : string) (config : option AgentTradingConfig)
  : M AgentTradingConfig :=
  external (EvUpdateAgentConfig agentId config)
           (λ tr, updateAgentConfig_reply env tr agentId config).

Definition getActiveAgentIds : M (list string) :=
  external EvGetActiveAgentIds (getActiveAgentIds_reply env).

Definition getTradingMode (agentId : string) : M string :=
  external (EvGetTradingMode agentId) (λ tr, getTradingMode_reply env tr agentId).

Definition findWalletByAgentId (agentId tradingMode : string) : M (option string) :=
  external (EvFindWalletByAgentId agentId tradingMode)
           (λ tr, findWalletByAgentId_reply env tr agentId tradingMode).

(** The [where] clause of the reconciliation query: [agentId] and
    [walletAddress] equal, [tokenAddress] equal in mode ['insensitive']. *)
Definition positionMatches (agentId walletAddress tokenAddress : string)
    (row : AgentPositionRow) : bool :=
  String.eqb (ap_agentId row) agentId
  && String.eqb (ap_walletAddress row) walletAddress
  && String.eqb (toLowerCase (ap_tokenAddress row)) (toLowerCase tokenAddress).

(** [prisma.agentPosition.findFirst({ where, select: { id: true } })] *)
Definition findFirstPosition (agentId walletAddress tokenAddress : string)
  : M (option string) :=
  external (EvFindFirstPosition agentId walletAddress tokenAddress)
           (λ tr,
              match agentPosition_rows env tr with
              | Normal rows =>
                  Normal (ap_id <$> List.find
                                      (positionMatches agentId walletAddress tokenAddress)
                                      rows)
              | Thrown e => Thrown e
              end).

Definition findAgent (agentId : string) (userId : option string) : M (option string) :=
  external (EvFindAgent agentId userId) (λ tr, findAgent_reply env tr agentId userId).

Definition createSignal (data : SignalData) : M Z :=
  external (EvCreateSignal data) (λ tr, createSignal_reply env tr data).

Definition executePurchase (request : PurchaseRequest) : M PurchaseResult :=
  external (EvExecutePurchase request) (λ tr, executePurchase_reply env tr request).

(** A synchronous call that may throw. *)
Definition lift {A} (c : Completion A) : M A := λ w, (c, w).

(** ** Re-entry manager *)

Definition AUTO_TRADE_IDEMPOTENCY_PREFIX : string := "auto-trade-reentry".

Definition createAutoTradeSignal
    (agentId tokenAddress : string) (tokenSymbol : option string) : M (option Z) :=
  tryCatch
    (agent ← findAgent agentId None;
     match agent with
     | None =>
         logger Warn "Auto-trade signal creation skipped: agent not found";;
         mret None
     | Some userId =>
         signalId ← createSignal
           {| sd_tokenAddress := trim tokenAddress;
              sd_symbol := trimmedOr tokenSymbol None;
              sd_signalType := AUTO_TRADE_SIGNAL_TYPE;
              sd_activationReason := "Auto-trade re-entry after position close";
              sd_signalStrength := 3;
              sd_source := AUTO_TRADE_SIGNAL_SOURCE;
              sd_userId := userId |};
         mret (Some signalId)
     end)
    (λ _,
       logger Warn "Auto-trade signal creation failed; continuing without signal link";;
       mret None).

(** [config.autoTrade?.enabled] *)
Definition autoTradeOn (config : AgentTradingConfig) : bool :=
  match autoTrade config with
  | Some a => autoTradeEnabled a
  | None => false
  end.

(** [config.autoTrade.tokens ?? []] *)
Definition autoTradeTokens (config : AgentTradingConfig) : list AutoTradeTokenConfig :=
  match autoTrade config with
  | Some a => default [] (tokens a)
  | None => []
  end.

Definition normalizeToken (tokenAddress : string) : string :=
  toLowerCase (trim tokenAddress).

(** The key of the re-entry gate: [`${PREFIX}:${agentId}:${positionId}`]. *)
Definition reentryKey (event : PositionClosedEvent) : string :=
  AUTO_TRADE_IDEMPOTENCY_PREFIX +:+ ":" +:+ pc_agentId event +:+ ":" +:+ pc_positionId event.

(** [handlePositionClosed] from the answer of the idempotency gate onwards. *)
Definition reentryAfterGate (event : PositionClosedEvent) (canProceed : bool) : M unit :=
  let agentId := pc_agentId event in
  let tokenAddress := pc_tokenAddress event in
  let tokenSymbol := pc_tokenSymbol event in
  let normalizedToken := normalizeToken tokenAddress in
  if negb canProceed then
    logger Debug "Auto-trade re-entry skipped: duplicate close event"
  else
    config ← loadAgentConfig agentId;
    if negb (autoTradeOn config) then mret tt
    else
      match List.find
              (λ token, enabled token
                        && String.eqb (normalizeToken (address token)) normalizedToken)
              (autoTradeTokens config) with
      | None => mret tt
      | Some tokenConfig =>
          let resolvedSymbol :=
            trimmedOr tokenSymbol (trimmedOr (symbol tokenConfig) None) in
          marketCapGuard ←
            evaluateAutoTradeMarketCapGuard tokenAddress (Some (boundsOf tokenConfig));
          if negb (allowed marketCapGuard) then
            logger Info "Auto-trade re-entry skipped by market-cap policy"
          else
            autoTradeSignalId ←
              createAutoTradeSignal agentId tokenAddress resolvedSymbol;
            logger Info "Auto-trade re-entry: executing direct purchase";;
            _ ← executePurchase
                  {| pr_agentId := agentId;
                     pr_walletAddress := None;
                     pr_tokenAddress := tokenAddress;
                     pr_tokenSymbol := resolvedSymbol;
                     pr_signalId := autoTradeSignalId |};
            logger Info "Auto-trade re-entry purchase executed"
      end.

(** The [catch] block of [handlePositionClosed]. *)
Definition reentryOnError (error : Exn) : M unit :=
  if isExpectedSkip error then
    logger Info "Auto-trade re-entry skipped by execution guardrail"
  else
    logger Warn "Auto-trade re-entry: error during position_closed handling".

Definition handlePositionClosed (event : PositionClosedEvent) : M unit :=
  tryCatch
    (if bool_decide (pc_source event = Some "wallet_reset") then
       logger Info "Auto-trade re-entry skipped: wallet reset close event"
     else
       canProceed ← checkAndSet (reentryKey event) (REDIS_TTL_IDEMPOTENCY env);
       reentryAfterGate event canProceed)
    reentryOnError.

(** ** Reconciliation manager *)

Definition RECONCILE_INTERVAL_MS : Z := 10 * 60 * 1000.
Definition RECONCILE_LOCK_TTL_SECONDS : Z := 8 * 60.
Definition RECONCILE_IDEMPOTENCY_PREFIX : string := "auto-trade-reconcile".

(** The key of the reconciliation gate:
    [`${PREFIX}:${agentId}:${walletAddress}:${normalizedToken}`]. *)
Definition reconcileKey (agentId walletAddress normalizedToken : string) : string :=
  RECONCILE_IDEMPOTENCY_PREFIX +:+ ":" +:+ agentId +:+ ":" +:+ walletAddress
    +:+ ":" +:+ normalizedToken.

Definition reconcileToken
    (agentId walletAddress tokenAddress : string) (tokenSymbol : option string)
    (tokenBounds : TokenMarketCapBounds) : M unit :=
  let normalizedToken := normalizeToken tokenAddress in
  let idempotencyKey := reconcileKey agentId walletAddress normalizedToken in
  canProceed ← checkAndSet idempotencyKey RECONCILE_LOCK_TTL_SECONDS;
  if negb canProceed then mret tt
  else
    existingPosition ← findFirstPosition agentId walletAddress normalizedToken;
    if isSet existingPosition then mret tt
    else
      marketCapGuard ← evaluateAutoTradeMarketCapGuard normalizedToken (Some tokenBounds);
      if negb (allowed marketCapGuard) then
        logger Info "Auto-trade reconciliation skipped by market-cap policy"
      else
        tryCatch
          (_ ← executePurchase
                 {| pr_agentId := agentId;
                    pr_walletAddress := Some walletAddress;
                    pr_tokenAddress := normalizedToken;
                    pr_tokenSymbol := trimmedOr tokenSymbol None;
                    pr_signalId := None |};
           logger Info "Auto-trade reconciliation opened missing position")
          (λ error,
             if isExpectedSkip error then
               logger Info "Auto-trade reconciliation skipped by execution guardrail"
             else
               logger Warn "Auto-trade reconciliation failed to open missing position").

Definition reconcileAgent (agentId : string) : M unit :=
  tryCatch
    (config ← loadAgentConfig agentId;
     if negb (autoTradeOn config) then mret tt
     else
       let enabledTokens := List.filter enabled (autoTradeTokens config) in
       if (length enabledTokens =? 0)%nat then mret tt
       else
         tradingMode ← getTradingMode agentId;
         wallet ← findWalletByAgentId agentId tradingMode;
         match wallet with
         | Some walletAddress =>
             if truthy walletAddress then
               forOf enabledTokens
                 (λ token,
                    reconcileToken agentId walletAddress (address token) (symbol token)
                      (boundsOf token))
             else
               logger Warn "Auto-trade reconciliation skipped: active wallet not found"
         | None =>
             logger Warn "Auto-trade reconciliation skipped: active wallet not found"
         end)
    (λ _, logger Warn "Auto-trade reconciliation skipped for agent due to error").

Definition runCycle : M unit :=
  activeAgentIds ← getActiveAgentIds;
  if (length activeAgentIds =? 0)%nat then mret tt
  else forOf activeAgentIds reconcileAgent.

(** ** Config endpoint: immediate buy on save *)

Definition createImmediateAutoTradeSignal
    (userId tokenAddress : string) (tokenSymbol : option string) : M (option Z) :=
  tryCatch
    (signalId ← createSignal
       {| sd_tokenAddress := trim tokenAddress;
          sd_symbol := trimmedOr tokenSymbol None;
          sd_signalType := AUTO_TRADE_SIGNAL_TYPE;
          sd_activationReason := "Auto-trade immediate buy after config save";
          sd_signalStrength := 3;
          sd_source := AUTO_TRADE_SIGNAL_SOURCE;
          sd_userId := userId |};
     mret (Some signalId))
    (λ _, logger Warn "Auto-trade immediate signal creation failed";; mret None).

Definition getImmediateAutoTradeTokens (previousConfig nextConfig : AgentTradingConfig)
  : list AutoTradeTokenConfig :=
  if negb (autoTradeOn nextConfig) then []
  else
    let previousEnabled := autoTradeOn previousConfig in
    let previousEnabledSet : gset string :=
      list_to_set
        (map (λ token, normalizeToken (address token))
             (List.filter enabled (autoTradeTokens previousConfig))) in
    let nextEnabledTokens := List.filter enabled (autoTradeTokens nextConfig) in
    if negb previousEnabled then nextEnabledTokens
    else
      List.filter
        (λ token, negb (bool_decide (normalizeToken (address token) ∈ previousEnabledSet)))
        nextEnabledTokens.

(** The pattern [/^[0-9a-f]{8}-[0-9a-f]{4}-[0-9a-f]{4}-[0-9a-f]{4}-[0-9a-f]{12}$/i]. *)
Definition isHexDigit (c : ascii) : bool :=
  let n := nat_of_ascii c in
  (((48 <=? n) && (n <=? 57)) || ((65 <=? n) && (n <=? 70))
   || ((97 <=? n) && (n <=? 102)))%nat.

Fixpoint hexRun (n : nat) (s : string) : option string :=
  match n with
  | O => Some s
  | S n' =>
      match s with
      | String c rest => if isHexDigit c then hexRun n' rest else None
      | EmptyString => None
      end
  end.

Definition dash (s : string) : option string :=
  match s with
  | String c rest => if Ascii.eqb c "-" then Some rest else None
  | EmptyString => None
  end.

Definition uuidRegex_test (id : string) : bool :=
  let rest : option string :=
    s1 ← hexRun 8 id; s2 ← dash s1;
    s3 ← hexRun 4 s2; s4 ← dash s3;
    s5 ← hexRun 4 s4; s6 ← dash s5;
    s7 ← hexRun 4 s6; s8 ← dash s7;
    hexRun 12 s8 in
  match rest with
  | Some EmptyString => true
  | _ => false
  end.

Definition errorResponse (code : Z) (error : string) : HttpResponse :=
  {| status := code; body := ErrorBody error None [] |}.

(** The body of the immediate-buy loop for one token. *)
Definition immediatePurchase (id userId : string) (token : AutoTradeTokenConfig) : M unit :=
  tryCatch
    (signalId ← createImmediateAutoTradeSignal userId (address token) (symbol token);
     _ ← executePurchase
           {| pr_agentId := id;
              pr_walletAddress := None;
              pr_tokenAddress := trim (address token);
              pr_tokenSymbol := trim <$> symbol token;
              pr_signalId := signalId |};
     mret tt)
    (λ error,
       match error with
       | TradingExecutorError _ _ =>
           logger Warn "Auto-trade immediate purchase skipped/failed"
       | _ =>
           logger Warn "Auto-trade immediate purchase failed with unexpected error"
       end).

(** From [agentService.updateAgentConfig] to the response. *)
Definition saveAndTrigger
    (id userId : string) (finalConfig existingConfig : option AgentTradingConfig)
  : M HttpResponse :=
  updatedConfig ← updateAgentConfig id finalConfig;
  match finalConfig, existingConfig with
  | Some _, Some existing =>
      forOf (getImmediateAutoTradeTokens existing updatedConfig)
            (immediatePurchase id userId)
  | _, _ => mret tt
  end;;
  mret {| status := 200; body := ConfigBody updatedConfig |}.

Definition updateAgentTradingConfig (req : AuthenticatedRequest) : M HttpResponse :=
  tryCatch
    match req_user req with
    | None => mret (errorResponse 401 "Unauthorized")
    | Some userId =>
        let id := req_params_id req in
        if negb (uuidRegex_test id) then
          mret (errorResponse 400 "Invalid agent ID format")
        else
          match req_body_config req with
          | BodyUndefined => mret (errorResponse 400 "Config is required in request body")
          | partialConfig =>
              agent ← findAgent id (Some userId);
              match agent with
              | None => mret (errorResponse 404 "Agent not found")
              | Some _ =>
                  match partialConfig with
                  | BodyPartial partial =>
                      existingConfig ← loadAgentConfig id;
                      finalConfig ← lift (mergeConfigs env existingConfig partial);
                      let validationResult := validateConfig env finalConfig in
                      if negb validationResult.1 then
                        mret {| status := 400;
                                body := ErrorBody "Invalid trading configuration" None
                                                  validationResult.2 |}
                      else
                        saveAndTrigger id userId (Some finalConfig) (Some existingConfig)
                  | _ => saveAndTrigger id userId None None
                  end
              end
          end
    end
    (λ error,
       logger Error "Update agent trading config error";;
       match error with
       | AgentServiceError code message =>
           if String.eqb code "AGENT_NOT_FOUND" then mret (errorResponse 404 message)
           else mret {| status := 400; body := ErrorBody message (Some code) [] |}
       | ConfigServiceError code message details =>
           mret {| status := 400; body := ErrorBody message (Some code) details |}
       | _ => mret (errorResponse 500 "Internal server error")
       end).

(** ** Entry points, in the order a process runs them *)

Inductive Operation :=
  | OpFetch (tokenAddress : string)
  | OpGuard (tokenAddress : string) (tokenBounds : option TokenMarketCapBounds)
  | OpPositionClosed (event : PositionClosedEvent)
  | OpReconcile
  | OpSaveConfig (req : AuthenticatedRequest).

(** One operation, run to completion; a rejection is caught by the caller. *)
Definition perform (op : Operation) : M unit :=
  tryCatch
    match op with
    | OpFetch tokenAddress => fetchTokenMetrics tokenAddress;; mret tt
    | OpGuard tokenAddress tokenBounds =>
        evaluateAutoTradeMarketCapGuard tokenAddress tokenBounds;; mret tt
    | OpPositionClosed event => handlePositionClosed event
    | OpReconcile => runCycle
    | OpSaveConfig req => updateAgentTradingConfig req;; mret tt
    end
    (λ _, logger Error "unhandled error").

Definition performAll (ops : list Operation) : M unit := forOf ops perform.

End Program.

(** ** Redis position service *)

(** What the service reads of a parsed payload:
    [JSON.parse(positionData) as { walletAddress?: string; tokenAddress?: string }]. *)
Record PositionJson := {
  pj_walletAddress : option string;
  pj_tokenAddress : option string;
}.

(** The Redis keyspace: string values and set values, under one name space.
    A set that loses its last member disappears, as in Redis. *)
Record Redis := {
  stringKeys : gmap string string;
  setKeys : gmap string (gset string);
}.

Definition redis_get (key : string) (r : Redis) : option string :=
  stringKeys r !! key.

Definition redis_del (key : string) (r : Redis) : Redis :=
  {| stringKeys := delete key (stringKeys r); setKeys := delete key (setKeys r) |}.

Definition smembers (key : string) (r : Redis) : gset string :=
  default ∅ (setKeys r !! key).

Definition sadd (key member : string) (r : Redis) : Redis :=
  {| stringKeys := stringKeys r;
     setKeys := <[key := {[member]} ∪ smembers key r]> (setKeys r) |}.

Definition srem (key member : string) (r : Redis) : Redis :=
  let rest := smembers key r ∖ {[member]} in
  {| stringKeys := stringKeys r;
     setKeys := if decide (rest = ∅) then delete key (setKeys r)
                else <[key := rest]> (setKeys r) |}.

Definition scard (key : string) (r : Redis) : nat := size (smembers key r).

(** [SET key value]: the key holds the string, whatever it held before. *)
Definition redis_set (key value : string) (r : Redis) : Redis :=
  {| stringKeys := <[key := value]> (stringKeys r); setKeys := delete key (setKeys r) |}.

(** The reply of [SADD key member]: 1 if the member was added, 0 if it was
    in the set already. *)
Definition sadd_reply (key member : string) (r : Redis) : nat :=
  if decide (member ∈ smembers key r) then 0 else 1.

Section PositionService.

(** The key builders [REDIS_KEYS.POSITION], [REDIS_KEYS.AGENT_POSITIONS] and
    [REDIS_KEYS.TOKEN_POSITIONS] of the shared constants, and [JSON.parse] at
    the type the service reads it ([None]: the parse, or the property access on
    a parsed [null], throws). *)
Variables POSITION AGENT_POSITIONS TOKEN_POSITIONS : string → string.
Variable JSON_parse : string → option PositionJson.

Definition removeFromIndexes (id agentId tokenAddress : string) (r : Redis) : Redis :=
  let agentKey := AGENT_POSITIONS agentId in
  let tokenKey := TOKEN_POSITIONS (toLowerCase tokenAddress) in
  let r1 := srem tokenKey id (srem agentKey id r) in
  let r2 := if (scard agentKey r1 =? 0)%nat then redis_del agentKey r1 else r1 in
  if (scard tokenKey r2 =? 0)%nat then redis_del tokenKey r2 else r2.

Definition deletePosition (id agentId tokenAddress : string) (r : Redis) : Redis :=
  removeFromIndexes id agentId tokenAddress (redis_del (POSITION id) r).

Definition getAgentPositionIds (agentId : string) (r : Redis) : list string :=
  elements (smembers (AGENT_POSITIONS agentId) r).

Definition getTokenPositionIds (tokenAddress : string) (r : Redis) : list string :=
  elements (smembers (TOKEN_POSITIONS (toLowerCase tokenAddress)) r).

(** Unlinking a purged position from the token index, when its payload names a token. *)
Definition unlinkToken (positionId : string) (position : PositionJson) (r : Redis) : Redis :=
  match pj_tokenAddress position with
  | Some tokenAddress =>
      if truthy tokenAddress then
        let tokenKey := TOKEN_POSITIONS (toLowerCase tokenAddress) in
        let r1 := srem tokenKey positionId r in
        if (scard tokenKey r1 =? 0)%nat then redis_del tokenKey r1 else r1
      else r
  | None => r
  end.

(** One turn of the loop of [deleteWalletPositions]. *)
Definition purgeOne (agentKey walletAddress : string)
    (acc : Redis * nat) (positionId : string) : Redis * nat :=
  let '(r, deletedCount) := acc in
  let positionKey := POSITION positionId in
  match redis_get positionKey r with
  | None => (srem agentKey positionId r, deletedCount)
  | Some positionData =>
      if negb (truthy positionData) then (srem agentKey positionId r, deletedCount)
      else
        match JSON_parse positionData with
        | Some position =>
            if negb (bool_decide (pj_walletAddress position = Some walletAddress))
            then (r, deletedCount)
            else
              (unlinkToken positionId position
                 (srem agentKey positionId (redis_del positionKey r)),
               S deletedCount)
        | None =>
            (srem agentKey positionId (redis_del positionKey r), S deletedCount)
        end
  end.

Definition deleteWalletPositions (agentId walletAddress : string) (r : Redis)
  : Redis * nat :=
  let agentKey := AGENT_POSITIONS agentId in
  let positionIds := elements (smembers agentKey r) in
  let '(r1, deletedCount) :=
    fold_left (purgeOne agentKey walletAddress) positionIds (r, O) in
  (if (scard agentKey r1 =? 0)%nat then redis_del agentKey r1 else r1, deletedCount).

(** One turn of the loop of [deleteAgentPositions]: the token index is cleaned
    when the payload parses and names a token address ([JSON.parse] or
    [position.tokenAddress.toLowerCase()] throwing is caught and logged), and
    the payload key is deleted in every case. *)
Definition forgetOne (r : Redis) (positionId : string) : Redis :=
  let positionKey := POSITION positionId in
  let r1 :=
    match redis_get positionKey r with
    | Some positionData =>
        if truthy positionData then
          match JSON_parse positionData ≫= pj_tokenAddress with
          | Some tokenAddress =>
              let tokenKey := TOKEN_POSITIONS (toLowerCase tokenAddress) in
              let r' := srem tokenKey positionId r in
              if (scard tokenKey r' =? 0)%nat then redis_del tokenKey r' else r'
          | None => r
          end
        else r
    | None => r
    end in
  redis_del positionKey r1.

Definition deleteAgentPositions (agentId : string) (r : Redis) : Redis :=
  let positionIds := getAgentPositionIds agentId r in
  if (length positionIds =? 0)%nat then r
  else redis_del (AGENT_POSITIONS agentId) (fold_left forgetOne positionIds r).

(** The Prisma row [AgentPosition], through the three fields the service reads
    of it and the text [JSON.stringify(serializePositionForRedis(position))]
    that is stored for it. *)
Context {AgentPosition : Type}.
Variables position_id position_agentId position_tokenAddress : AgentPosition → string.
Variable serializedJson : AgentPosition → string.

(** [addToIndexes]: the store, and whether the debug line is written (it is
    when at least one of the two [SADD] added the id). *)
Definition addToIndexes (position : AgentPosition) (r : Redis) : Redis * bool :=
  let agentKey := AGENT_POSITIONS (position_agentId position) in
  let tokenKey := TOKEN_POSITIONS (toLowerCase (position_tokenAddress position)) in
  let agentAdded := sadd_reply agentKey (position_id position) r in
  let r1 := sadd agentKey (position_id position) r in
  let tokenAdded := sadd_reply tokenKey (position_id position) r1 in
  let r2 := sadd tokenKey (position_id position) r1 in
  (r2, (0 <? agentAdded)%nat || (0 <? tokenAdded)%nat).

Definition setPosition (position : AgentPosition) (r : Redis) : Redis * bool :=
  let key := POSITION (position_id position) in
  addToIndexes position (redis_set key (serializedJson position) r).

End PositionService.

(** ** Token metadata service: decimals of a mint *)

(** What an attempt to read the mint account can fail with. *)
Inductive ChainError :=
  | RpcError (message : string)     (* [new PublicKey] throws, or the RPC call rejects *)
  | AccountNotFound (tokenAddress : string)
  | InvalidDataLength (length : nat).

(** [TokenMetadataServiceError]: its code and its details. *)
Record TokenMetadataServiceError := {
  tms_code : string;
  tms_tokenAddress : string;
  tms_lastError : option ChainError;
}.

Inductive ChainCall :=
  | CallGetAccountInfo (rpcUrl tokenAddress : string)
  | CallDelay (ms : Z)
  | CallLog (level : LogLevel) (message : string).

(** The Solana side: the environment variable, [new PublicKey(tokenAddress)]
    (the message of the error it throws, if it throws) and
    [connection.getAccountInfo] (a rejection, [null], or the account data). *)
Record Chain := {
  SOLANA_RPC_URL : option string;
  PublicKey_error : string → option string;
  getAccountInfo_reply : list ChainCall → string → string + option (list Byte.byte);
}.

(** The fields of the [TokenMetadataService] instance, and the calls it has
    made (the newest first). *)
Record MetadataService := {
  connection : option string;
  decimalsCache : gmap string Z;
  chainCalls : list ChainCall;
}.

Definition SOL_DECIMALS : Z := 9.
Definition SOL_MINT_ADDRESS : string := "So11111111111111111111111111111111111111112".
Definition MAX_RETRIES : nat := 2.
Definition RETRY_DELAY_MS : Z := 500.

Definition called (c : ChainCall) (s : MetadataService) : MetadataService :=
  {| connection := connection s;
     decimalsCache := decimalsCache s;
     chainCalls := c :: chainCalls s |}.

Definition cacheDecimals (tokenAddress : string) (decimals : Z) (s : MetadataService)
  : MetadataService :=
  {| connection := connection s;
     decimalsCache := <[tokenAddress := decimals]> (decimalsCache s);
     chainCalls := chainCalls s |}.

(** [a || b || c] on strings that may be absent. *)
Definition firstTruthy (candidates : list (option string)) (fallback : string) : string :=
  default fallback
    (List.find truthy (omap id candidates)).

Section TokenMetadataService.

Variable chain : Chain.

Definition initialize (rpcUrl : option string) (s : MetadataService) : MetadataService :=
  match connection s with
  | Some _ => s
  | None =>
      let url := firstTruthy [rpcUrl; SOLANA_RPC_URL chain]
                   "https://api.mainnet-beta.solana.com" in
      {| connection := Some url;
         decimalsCache := <[SOL_MINT_ADDRESS := SOL_DECIMALS]> (decimalsCache s);
         chainCalls := CallLog Info "TokenMetadataService initialized" :: chainCalls s |}
  end.

(** The byte of the mint account that holds the decimals. *)
Definition decimalsAt (data : list Byte.byte) : Z :=
  match data !! 44%nat with
  | Some b => Z.of_N (Byte.to_N b)
  | None => 0        (* not reached: the length is checked first *)
  end.

Definition fetchDecimalsFromChain (tokenAddress : string) (s : MetadataService)
  : (ChainError + Z) * MetadataService :=
  match PublicKey_error chain tokenAddress with
  | Some message => (inl (RpcError message), s)
  | None =>
      match connection s with
      | None => (inl (RpcError "Cannot read properties of null"), s)
      | Some url =>
          let s1 := called (CallGetAccountInfo url tokenAddress) s in
          match getAccountInfo_reply chain (chainCalls s1) tokenAddress with
          | inl message => (inl (RpcError message), s1)
          | inr None => (inl (AccountNotFound tokenAddress), s1)
          | inr (Some data) =>
              if (length data <? 45)%nat then (inl (InvalidDataLength (length data)), s1)
              else (inr (decimalsAt data), s1)
          end
      end
  end.

(** [delay]: the wait is recorded. *)
Definition delay (ms : Z) (s : MetadataService) : MetadataService :=
  called (CallDelay ms) s.

(** The loop of [fetchDecimalsWithRetry] from attempt number [attempt], with
    [left] attempts to go: [left = MAX_RETRIES + 1 - attempt]. *)
Fixpoint fetchDecimalsLoop (left attempt : nat) (lastError : option ChainError)
    (tokenAddress : string) (s : MetadataService)
  : (TokenMetadataServiceError + Z) * MetadataService :=
  match left with
  | O =>
      (inl {| tms_code := "DECIMALS_FETCH_FAILED";
              tms_tokenAddress := tokenAddress;
              tms_lastError := lastError |}, s)
  | S left' =>
      match fetchDecimalsFromChain tokenAddress s with
      | (inr decimals, s1) => (inr decimals, cacheDecimals tokenAddress decimals s1)
      | (inl error, s1) =>
          let s2 := called (CallLog Warn "Token decimals fetch attempt failed") s1 in
          let s3 := if (attempt <? MAX_RETRIES)%nat then delay RETRY_DELAY_MS s2 else s2 in
          fetchDecimalsLoop left' (S attempt) (Some error) tokenAddress s3
      end
  end.

Definition fetchDecimalsWithRetry (tokenAddress : string) (s : MetadataService)
  : (TokenMetadataServiceError + Z) * MetadataService :=
  fetchDecimalsLoop MAX_RETRIES 1 None tokenAddress s.

(** [if (!this.connection) this.initialize()] *)
Definition connected (s : MetadataService) : MetadataService :=
  match connection s with
  | None => initialize None s
  | Some _ => s
  end.

Definition getTokenDecimals (tokenAddress : string) (s : MetadataService)
  : (TokenMetadataServiceError + Z) * MetadataService :=
  match decimalsCache s !! tokenAddress with
  | Some decimals => (inr decimals, s)
  | None =>
      if String.eqb (toLowerCase tokenAddress) (toLowerCase SOL_MINT_ADDRESS) then
        (inr SOL_DECIMALS, cacheDecimals tokenAddress SOL_DECIMALS s)
      else
        fetchDecimalsWithRetry tokenAddress (connected s)
  end.

Definition clearCache (s : MetadataService) : MetadataService :=
  {| connection := connection s; decimalsCache := ∅; chainCalls := chainCalls s |}.

End TokenMetadataService.

(** ** Vocabulary of the properties *)

(** The world in which the guard runs its body: the call itself is on the trace. *)
Definition guardEntered (tokenAddress : string) (w : World) : World :=
  {| metricsCache := metricsCache w; trace := EvEvaluateGuard tokenAddress :: trace w |}.

(** Kinds of calls on a trace, and how often a kind occurs. *)
Inductive Kind :=
  | KFetch | KProvider | KGuard | KGate | KLoadConfig | KActiveAgents
  | KTradingMode | KFindWallet | KFindPosition | KFindAgent | KCreateSignal
  | KUpdateConfig | KPurchase | KLog.

#[global] Instance Kind_eq_dec : EqDecision Kind.
Proof. solve_decision. Defined.

Definition kindOf (e : Event) : Kind :=
  match e with
  | EvFetchTokenMetrics _ => KFetch
  | EvProviderCall _ _ => KProvider
  | EvEvaluateGuard _ => KGuard
  | EvCheckAndSet _ _ => KGate
  | EvLoadAgentConfig _ => KLoadConfig
  | EvGetActiveAgentIds => KActiveAgents
  | EvGetTradingMode _ => KTradingMode
  | EvFindWalletByAgentId _ _ => KFindWallet
  | EvFindFirstPosition _ _ _ => KFindPosition
  | EvFindAgent _ _ => KFindAgent
  | EvCreateSignal _ => KCreateSignal
  | EvUpdateAgentConfig _ _ => KUpdateConfig
  | EvExecutePurchase _ => KPurchase
  | EvLog _ _ => KLog
  end.

(** Number of events of a kind on a trace. *)
Definition calls (k : Kind) (tr : list Event) : nat :=
  length (List.filter (λ e, bool_decide (kindOf e = k)) tr).

(** The world with one more event on its trace. *)
Definition pushed (e : Event) (w : World) : World :=
  {| metricsCache := metricsCache w; trace := e :: trace w |}.

(** Every kind of event but one. *)
Definition allBut (k0 : Kind) (k : Kind) : bool := negb (bool_decide (k = k0)).

(** Everything but the guard and the metrics fetch behind it. *)
Definition noGuardKinds (k : Kind) : bool :=
  negb (bool_decide (k = KGuard)) && negb (bool_decide (k = KFetch))
  && negb (bool_decide (k = KProvider)).

(** Every run of the computation takes a world to one related to it by [R]. *)
Definition steps (R : World → World → Prop) {A} (m : M A) : Prop :=
  ∀ w, R w (m w).2.

(** [w'] continues [w] with events of the kinds [ok] only. *)
Definition adds (ok : Kind → bool) (w w' : World) : Prop :=
  ∃ later, trace w' = later ++ trace w ∧ Forall (λ e, ok (kindOf e) = true) later.

(** At least one of [marketCapMin] / [marketCapMax] is set. *)
Definition someBoundSet (b : TokenMarketCapBounds) : Prop :=
  boundMin b ≠ None ∨ boundMax b ≠ None.

(** The market cap is below the configured minimum: [min] is set and [m < min]. *)
Definition isBelowMin (b : TokenMarketCapBounds) (m : number) : Prop :=
  ∃ lo, boundMin b = Some lo ∧ PrimFloat.ltb m lo = true.

(** The market cap is above the configured maximum: [max] is set and [m > max]. *)
Definition isAboveMax (b : TokenMarketCapBounds) (m : number) : Prop :=
  ∃ hi, boundMax b = Some hi ∧ PrimFloat.ltb hi m = true.

(** A row is an active position of the wallet in the token, whatever the case
    of the letters of its token address. *)
Definition isPositionOf (agentId walletAddress normalizedToken : string)
    (row : AgentPositionRow) : Prop :=
  ap_agentId row = agentId
  ∧ ap_walletAddress row = walletAddress
  ∧ toLowerCase (ap_tokenAddress row) = normalizedToken.

(** The purchase the reconciliation makes for a token. *)
Definition reconcilePurchase (agentId walletAddress : string)
    (token : AutoTradeTokenConfig) : PurchaseRequest :=
  {| pr_agentId := agentId;
     pr_walletAddress := Some walletAddress;
     pr_tokenAddress := toLowerCase (trim (address token));
     pr_tokenSymbol := trimmedOr (symbol token) None;
     pr_signalId := None |}.

(** The purchase the config endpoint makes for a token. *)
Definition immediateRequest (id : string) (token : AutoTradeTokenConfig)
    (signalId : option Z) : PurchaseRequest :=
  {| pr_agentId := id;
     pr_walletAddress := None;
     pr_tokenAddress := trim (address token);
     pr_tokenSymbol := trim <$> symbol token;
     pr_signalId := signalId |}.

(** The clock never goes back. *)
Definition monotoneClock (env : Env) : Prop :=
  ∀ e tr, (Date_now env tr ≤ Date_now env (e :: tr))%Z.

(** Provider requests for a token issued in the window of one TTL from [from]. *)
Definition inWindow (tokenAddress : string) (from : Z) (e : Event) : bool :=
  match e with
  | EvProviderCall t tok =>
      String.eqb tok tokenAddress && (from <=? t)%Z
      && (t <? from + METRICS_CACHE_TTL_MS)%Z
  | _ => false
  end.

Definition providerCallsIn (tokenAddress : string) (from : Z) (tr : list Event) : nat :=
  length (List.filter (inWindow tokenAddress from) tr).

(** Every provider request on the trace is covered by a cache entry that
    outlives it by a TTL at least. *)
Definition covered (w : World) : Prop :=
  ∀ t tok, EvProviderCall t tok ∈ trace w →
    ∃ c, metricsCache w !! tok = Some c ∧ (t + METRICS_CACHE_TTL_MS ≤ expiresAt c)%Z.

(** Each provider request comes a TTL or more after the earlier ones for the
    same token. *)
Fixpoint spaced (tr : list Event) : Prop :=
  match tr with
  | [] => True
  | e :: earlier =>
      match e with
      | EvProviderCall t tok =>
          ∀ t0, EvProviderCall t0 tok ∈ earlier → (t0 + METRICS_CACHE_TTL_MS ≤ t)%Z
      | _ => True
      end ∧ spaced earlier
  end.

(** What the cache and the trace keep between the operations of a process. *)
Definition cacheInvariant (w : World) : Prop := covered w ∧ spaced (trace w).

Definition keepsInvariant (w w' : World) : Prop := cacheInvariant w → cacheInvariant w'.

(** What the sweep does with one id of the agent index. *)
Inductive Fate :=
  | Stale                         (* no payload: the index entry is repaired away *)
  | Kept                          (* a payload of another wallet: left untouched *)
  | Purged (position : PositionJson)   (* a payload of the wallet: deleted *)
  | Corrupt.                      (* a payload that does not parse: deleted *)

Definition countsAsDeleted (f : Fate) : bool :=
  match f with Purged _ | Corrupt => true | _ => false end.

Definition staysIndexed (f : Fate) : bool :=
  match f with Kept => true | _ => false end.

Section PositionVocabulary.

Variables POSITION TOKEN_POSITIONS : string → string.
Variable JSON_parse : string → option PositionJson.

(** The fate of an id of the agent index, read off its payload. *)
Definition fateOf (walletAddress : string) (r : Redis) (positionId : string) : Fate :=
  match redis_get (POSITION positionId) r with
  | None => Stale
  | Some positionData =>
      if truthy positionData then
        match JSON_parse positionData with
        | Some position =>
            if bool_decide (pj_walletAddress position = Some walletAddress)
            then Purged position else Kept
        | None => Corrupt
        end
      else Stale
  end.

(** The key of the token index a purged position is unlinked from, if any. *)
Definition tokenKeyOf (f : Fate) : option string :=
  match f with
  | Purged position =>
      match pj_tokenAddress position with
      | Some tokenAddress =>
          if truthy tokenAddress then Some (TOKEN_POSITIONS (toLowerCase tokenAddress))
          else None
      | None => None
      end
  | _ => None
  end.

(** The ids of a list that the sweep counts as deleted. *)
Definition deletedIds (walletAddress : string) (r : Redis) (ids : list string)
  : list string :=
  filter (λ id, countsAsDeleted (fateOf walletAddress r id) = true) ids.

End PositionVocabulary.

(** *** Vocabulary of the further properties *)


(** The cache has no entry for the token that is still valid at time [t]. *)
Definition noFreshEntry (t : Z) (tokenAddress : string) (w : World) : Prop :=
  ∀ cached, metricsCache w !! tokenAddress = Some cached → (expiresAt cached ≤ t)%Z.




(** What the guard may add to the trace for a token: its metrics fetch, a
    provider request and log lines. *)
Definition fetchEventFor (tokenAddress : string) (e : Event) : Prop :=
  e = EvFetchTokenMetrics tokenAddress
  ∨ (∃ t, e = EvProviderCall t tokenAddress)
  ∨ kindOf e = KLog.

(** The token of the configuration that a close event re-enters:
    [tokens.find((token) => token.enabled && ... === normalizedToken)]. *)
Definition reentryToken (event : PositionClosedEvent) (config : AgentTradingConfig)
  : option AutoTradeTokenConfig :=
  List.find
    (λ token, enabled token
              && String.eqb (normalizeToken (address token))
                            (normalizeToken (pc_tokenAddress event)))
    (autoTradeTokens config).

(** The purchase of a re-entry: the address as the event has it, no wallet. *)
Definition reentryRequest (event : PositionClosedEvent) (tokenConfig : AutoTradeTokenConfig)
    (signalId : option Z) : PurchaseRequest :=
  {| pr_agentId := pc_agentId event;
     pr_walletAddress := None;
     pr_tokenAddress := pc_tokenAddress event;
     pr_tokenSymbol :=
       trimmedOr (pc_tokenSymbol event) (trimmedOr (symbol tokenConfig) None);
     pr_signalId := signalId |}.

(** The purchase the reconciliation makes for a token address. *)
Definition reconcileRequest (agentId walletAddress tokenAddress : string)
    (tokenSymbol : option string) : PurchaseRequest :=
  {| pr_agentId := agentId;
     pr_walletAddress := Some walletAddress;
     pr_tokenAddress := normalizeToken tokenAddress;
     pr_tokenSymbol := trimmedOr tokenSymbol None;
     pr_signalId := None |}.

(** Every kind of event. *)
Definition anyKind (k : Kind) : bool := true.

(** Everything but a purchase and the creation of a signal. *)
Definition noBuyKinds (k : Kind) : bool :=
  negb (bool_decide (k = KPurchase)) && negb (bool_decide (k = KCreateSignal)).

(** The request is refused before any collaborator is called. *)
Definition refusedUpFront (req : AuthenticatedRequest) : Prop :=
  req_user req = None
  ∨ uuidRegex_test (req_params_id req) = false
  ∨ req_body_config req = BodyUndefined.

(** The answer of the [catch] block of the endpoint to an error. *)
Definition saveErrorResponse (error : Exn) : HttpResponse :=
  match error with
  | AgentServiceError code message =>
      if String.eqb code "AGENT_NOT_FOUND" then errorResponse 404 message
      else {| status := 400; body := ErrorBody message (Some code) [] |}
  | ConfigServiceError code message details =>
      {| status := 400; body := ErrorBody message (Some code) details |}
  | _ => errorResponse 500 "Internal server error"
  end.

(** What the [try] block of the endpoint comes to. *)
Definition saveTried (req : AuthenticatedRequest) (w : World)
    (out : Completion HttpResponse * World) : Prop :=
  match out.1 with
  | Normal resp =>
      status resp ∈ [200; 400; 401; 404]%Z
      ∧ (refusedUpFront req → out.2 = w ∧ status resp ≠ 200%Z)
      ∧ (status resp ≠ 200%Z ∨ req_body_config req = BodyNull → adds noBuyKinds w out.2)
  | Thrown _ => ¬ refusedUpFront req ∧ adds noBuyKinds w out.2
  end.

(** No set of the store is empty (Redis removes a set with its last member). *)
Definition noEmptySet (r : Redis) : Prop := ∀ k, setKeys r !! k ≠ Some ∅.

Section StoreVocabulary.

Variables POSITION AGENT_POSITIONS TOKEN_POSITIONS : string → string.
Variable JSON_parse : string → option PositionJson.

(** The store as the service keeps it: payload keys hold strings, index keys
    hold sets, and no set is empty. *)
Definition storeTyped (r : Redis) : Prop :=
  (∀ id, setKeys r !! POSITION id = None)
  ∧ (∀ a, stringKeys r !! AGENT_POSITIONS a = None)
  ∧ (∀ t, stringKeys r !! TOKEN_POSITIONS t = None)
  ∧ noEmptySet r.

(** The payload of the id parses and names another wallet. *)
Definition ofOtherWallet (walletAddress : string) (r : Redis) (positionId : string) : Prop :=
  ∃ data position,
    redis_get (POSITION positionId) r = Some data
    ∧ truthy data = true
    ∧ JSON_parse data = Some position
    ∧ pj_walletAddress position ≠ Some walletAddress.

(** The key of the token index that the payload of an id names, if it does. *)
Definition payloadTokenKey (r : Redis) (positionId : string) : option string :=
  match redis_get (POSITION positionId) r with
  | Some positionData =>
      if truthy positionData then
        (λ tokenAddress, TOKEN_POSITIONS (toLowerCase tokenAddress))
          <$> (JSON_parse positionData ≫= pj_tokenAddress)
      else None
  | None => None
  end.

End StoreVocabulary.

(** Any spelling of the SOL mint address. *)
Definition isSolMint (tokenAddress : string) : Prop :=
  toLowerCase tokenAddress = toLowerCase SOL_MINT_ADDRESS.

(** Every number in the decimals cache is a byte, and the number for a
    spelling of the SOL mint is 9. *)
Definition decimalsSound (s : MetadataService) : Prop :=
  ∀ tokenAddress d, decimalsCache s !! tokenAddress = Some d →
    (0 ≤ d ≤ 255)%Z ∧ (isSolMint tokenAddress → d = SOL_DECIMALS).

Definition isRpc (c : ChainCall) : bool :=
  match c with CallGetAccountInfo _ _ => true | _ => false end.

Definition isDelay (c : ChainCall) : bool :=
  match c with CallDelay _ => true | _ => false end.

Definition isWarning (c : ChainCall) : bool :=
  match c with CallLog Warn _ => true | _ => false end.

(** Number of calls of a sort among the calls of the metadata service. *)
Definition countCalls (p : ChainCall → bool) (made : list ChainCall) : nat :=
  length (List.filter p made).

(** ** Fixtures: concrete environments and worlds *)

Definition emptyWorld : World := {| metricsCache := ∅; trace := [] |}.

Definition noConfig : AgentTradingConfig := {| autoTrade := None |}.

(** A provider answer that reports the given market cap. *)
Definition reports (cap : option number) : ProviderOutcome :=
  HttpOk (BodyArray [{| jm_mcap := cap;
                        jm_liquidity := Some 1000000%float;
                        jm_holderCount := Some 1000%float |}]).

(** A test double for the collaborators: the API key, the market cap the
    provider reports, the stored configuration, the active agents, their
    wallet, the rows of the position table and the owner of the agent. *)
Definition testEnv (apiKey : option string) (cap : option number)
    (config : AgentTradingConfig) (agents : list string) (wallet : option string)
    (rows : list AgentPositionRow) (owner : option string) : Env := {|
  Date_now := λ _, 0%Z;
  JUPITER_API_KEY := apiKey;
  jupiterSearch := λ _ _, reports cap;
  REDIS_TTL_IDEMPOTENCY := 60%Z;
  checkAndSet_reply := λ _ _ _, Normal true;
  loadAgentConfig_reply := λ _ _, Normal config;
  mergeConfigs := λ _ next, Normal next;
  validateConfig := λ _, (true, []);
  updateAgentConfig_reply := λ _ _ c, Normal (default noConfig c);
  getActiveAgentIds_reply := λ _, Normal agents;
  getTradingMode_reply := λ _ _, Normal "simulation";
  findWalletByAgentId_reply := λ _ _ _, Normal wallet;
  agentPosition_rows := λ _, Normal rows;
  findAgent_reply := λ _ _ _, Normal owner;
  createSignal_reply := λ _ _, Normal 1%Z;
  executePurchase_reply := λ _ _,
    Normal {| transactionId := "tx-1"; newPositionId := "pos-1" |};
|}.

(** An API key, a provider that always answers the same, and a clock that
    advances by one second with every event. *)
Definition tickingEnv (answer : ProviderOutcome) : Env := {|
  Date_now := λ tr, (1000 * Z.of_nat (length tr))%Z;
  JUPITER_API_KEY := Some "key";
  jupiterSearch := λ _ _, answer;
  REDIS_TTL_IDEMPOTENCY := 60%Z;
  checkAndSet_reply := λ _ _ _, Normal true;
  loadAgentConfig_reply := λ _ _, Normal noConfig;
  mergeConfigs := λ _ next, Normal next;
  validateConfig := λ _, (true, []);
  updateAgentConfig_reply := λ _ _ c, Normal (default noConfig c);
  getActiveAgentIds_reply := λ _, Normal [];
  getTradingMode_reply := λ _ _, Normal "simulation";
  findWalletByAgentId_reply := λ _ _ _, Normal None;
  agentPosition_rows := λ _, Normal [];
  findAgent_reply := λ _ _ _, Normal None;
  createSignal_reply := λ _ _, Normal 1%Z;
  executePurchase_reply := λ _ _,
    Normal {| transactionId := "tx-1"; newPositionId := "pos-1" |};
|}.

(** An environment where nothing outside the process is available. *)
Definition offlineEnv : Env := testEnv None None noConfig [] None [] None.

(** An API key and a provider that reports the given market cap. *)
Definition envWithMcap (cap : option number) : Env :=
  testEnv (Some "key") cap noConfig [] None [] None.

Definition TOKEN : string := "Token111111111111111111111111111111111111".

Definition bounds_200k_5m : TokenMarketCapBounds :=
  {| boundMin := Some 200000%float; boundMax := Some 5000000%float |}.

Definition tokenConfig : AutoTradeTokenConfig :=
  {| address := TOKEN;
     symbol := Some "TKN";
     enabled := true;
     marketCapMin := Some 200000%float;
     marketCapMax := Some 5000000%float |}.

Definition configWith (on : bool) : AgentTradingConfig :=
  {| autoTrade := Some {| autoTradeEnabled := on; tokens := Some [tokenConfig] |} |}.

(** The reconciliation scenario: one active agent with one enabled token, a
    wallet, and a market cap inside the token's bounds. *)
Definition cycleEnv (rows : list AgentPositionRow) : Env :=
  testEnv (Some "key") (Some 1200000%float) (configWith true) ["agent-1"]
          (Some "wallet-1") rows None.

(** An active position of the wallet in the token, stored in upper case. *)
Definition existingRow : AgentPositionRow :=
  {| ap_id := "existing-pos";
     ap_agentId := "agent-1";
     ap_walletAddress := "wallet-1";
     ap_tokenAddress := "TOKEN111111111111111111111111111111111111" |}.

(** The config-save scenario: auto-trade was off, the request switches it on,
    and the token's market cap is below its minimum. *)
Definition saveEnv : Env :=
  testEnv (Some "key") (Some 100000%float) (configWith false) [] None [] (Some "user-1").

Definition AGENT_UUID : string := "123e4567-e89b-12d3-a456-426614174000".

Definition saveRequest : AuthenticatedRequest :=
  {| req_user := Some "user-1";
     req_params_id := AGENT_UUID;
     req_body_config := BodyPartial (configWith true) |}.

Definition closeEvent (source : option string) : PositionClosedEvent :=
  {| pc_agentId := "agent-1";
     pc_walletAddress := "wallet-1";
     pc_positionId := "pos-1";
     pc_tokenAddress := TOKEN;
     pc_tokenSymbol := Some "TKN";
     pc_source := source |}.

(** Key builders for the scenarios of the position cache, and a stand-in for
    [JSON.parse] on their payloads. *)
Definition positionKey (id : string) : string := "position:" +:+ id.
Definition agentPositionsKey (agentId : string) : string := "agent_positions:" +:+ agentId.
Definition tokenPositionsKey (tokenAddress : string) : string :=
  "token_positions:" +:+ tokenAddress.

Definition parsePayload (data : string) : option PositionJson :=
  if String.eqb data "payload of wallet-1 in TokenA" then
    Some {| pj_walletAddress := Some "wallet-1"; pj_tokenAddress := Some "TokenA" |}
  else if String.eqb data "payload of wallet-2 in TokenB" then
    Some {| pj_walletAddress := Some "wallet-2"; pj_tokenAddress := Some "TokenB" |}
  else None.

(** An agent index with a stale id, a position of another wallet and a
    position of the wallet to purge. *)
Definition threeIdsStore : Redis :=
  {| stringKeys :=
       <[positionKey "p-other" := "payload of wallet-2 in TokenB"]>
         (<[positionKey "p-mine" := "payload of wallet-1 in TokenA"]> ∅);
     setKeys :=
       <[agentPositionsKey "agent-1" := {["p-stale"; "p-other"; "p-mine"]}]>
         (<[tokenPositionsKey "tokenb" := {["p-other"]}]>
            (<[tokenPositionsKey "tokena" := {["p-mine"]}]> ∅)) |}.

(** An agent index with one id whose payload does not parse; the id is also in
    a token index. *)
Definition corruptStore : Redis :=
  {| stringKeys := <[positionKey "p-bad" := "{not json"]> ∅;
     setKeys :=
       <[agentPositionsKey "agent-1" := {["p-bad"]}]>
         (<[tokenPositionsKey "tokena" := {["p-bad"]}]> ∅) |}.

(** The scenario of a re-entry: auto-trade on for the token, a market cap
    inside its bounds, and an owner for the signal. *)
Definition reentryEnv : Env :=
  testEnv (Some "key") (Some 1200000%float) (configWith true) [] None [] (Some "user-1").

(** A request to reset the configuration of the agent. *)
Definition resetRequest : AuthenticatedRequest :=
  {| req_user := Some "user-1";
     req_params_id := AGENT_UUID;
     req_body_config := BodyNull |}.

Definition emptyStore : Redis := {| stringKeys := ∅; setKeys := ∅ |}.

(** A row of the wallet in [TokenA], and the text stored for a row in the
    scenarios. *)
Definition mineRow : AgentPositionRow :=
  {| ap_id := "p-mine";
     ap_agentId := "agent-1";
     ap_walletAddress := "wallet-1";
     ap_tokenAddress := "TokenA" |}.

(** A position that the store of the scenario does not know yet. *)
Definition freshRow : AgentPositionRow :=
  {| ap_id := "p-new";
     ap_agentId := "agent-1";
     ap_walletAddress := "wallet-1";
     ap_tokenAddress := "TokenA" |}.

Definition rowJson (row : AgentPositionRow) : string :=
  "payload of " +:+ ap_walletAddress row +:+ " in " +:+ ap_tokenAddress row.

(** A node that rejects every request, and a node that answers with a mint
    account of 82 bytes whose byte 44 is 6. *)
Definition deadChain : Chain :=
  {| SOLANA_RPC_URL := None;
     PublicKey_error := λ _, None;
     getAccountInfo_reply := λ _ _, inl "fetch failed" |}.

Definition mintAccount : list Byte.byte :=
  replicate 44 Byte.x00 ++ [Byte.x06] ++ replicate 37 Byte.x00.

Definition mintChain : Chain :=
  {| SOLANA_RPC_URL := Some "https://rpc.example";
     PublicKey_error := λ _, None;
     getAccountInfo_reply := λ _ _, inr (Some mintAccount) |}.

Definition newService : MetadataService :=
  {| connection := None; decimalsCache := ∅; chainCalls := [] |}.

(** ** Properties *)

(** Unfolds the monad's operations and computes. *)
Ltac run := unfold mbind, M_bind, mret, M_ret, emit, logger, external; cbn.

(** *** The guard *)

Lemma guard_no_bounds env tokenAddress tokenBounds w :
  hasAutoTradeMarketCapBounds tokenBounds = false →
  evaluateAutoTradeMarketCapGuard env tokenAddress tokenBounds w =
    (Normal {| allowed := true;
               reason := reasonString no_bounds_configured;
               marketCap := None |},
     guardEntered tokenAddress w).
Proof.
  intros H. unfold evaluateAutoTradeMarketCapGuard. run. rewrite H. reflexivity.
Qed.

Lemma guard_with_bounds env tokenAddress tokenBounds w fetched w' :
  hasAutoTradeMarketCapBounds tokenBounds = true →
  fetchTokenMetrics env tokenAddress (guardEntered tokenAddress w) = (Normal fetched, w') →
  evaluateAutoTradeMarketCapGuard env tokenAddress tokenBounds w =
    (Normal
       match fetched ≫= mcap with
       | None => {| allowed := false;
                    reason := reasonString metrics_unavailable;
                    marketCap := None |}
       | Some cap =>
           if belowMin tokenBounds cap then
             {| allowed := false; reason := reasonString below_min; marketCap := Some cap |}
           else if aboveMax tokenBounds cap then
             {| allowed := false; reason := reasonString above_max; marketCap := Some cap |}
           else
             {| allowed := true; reason := reasonString in_range; marketCap := Some cap |}
       end, w').
Proof.
  intros H Hf. unfold evaluateAutoTradeMarketCapGuard. run. rewrite H. cbn.
  unfold guardEntered in Hf. rewrite Hf.
  destruct fetched as [[[cap|] ? ?]|]; cbn; try reflexivity.
  destruct (belowMin tokenBounds cap); [reflexivity|].
  destruct (aboveMax tokenBounds cap); reflexivity.
Qed.

Lemma fetchTokenMetrics_returns env tokenAddress w :
  ∃ fetched w', fetchTokenMetrics env tokenAddress w = (Normal fetched, w').
Proof.
  unfold fetchTokenMetrics, fetchTokenMetrics_start, fetchTokenMetrics_resume. run.
  destruct (unexpired _ _); run; [eauto|].
  destruct (apiKeyMissing env); run; [eauto|].
  unfold fetchTokenMetrics_settle.
  destruct (jupiterSearch _ _ _) as [|? [?|]| |[|[|]]]; run; eauto.
Qed.

Lemma someBoundSet_has b :
  someBoundSet b → hasAutoTradeMarketCapBounds (Some b) = true.
Proof.
  unfold someBoundSet. destruct b as [[lo|] [hi|]]; cbn; intros [H|H]; congruence.
Qed.

Lemma belowMin_spec b m : belowMin (Some b) m = true ↔ isBelowMin b m.
Proof.
  unfold belowMin, isBelowMin. cbn. destruct (boundMin b) as [lo|]; split.
  - eauto.
  - intros (? & [= <-] & ?). done.
  - done.
  - intros (? & [=] & _).
Qed.

Lemma aboveMax_spec b m : aboveMax (Some b) m = true ↔ isAboveMax b m.
Proof.
  unfold aboveMax, isAboveMax. cbn. destruct (boundMax b) as [hi|]; split.
  - eauto.
  - intros (? & [= <-] & ?). done.
  - done.
  - intros (? & [=] & _).
Qed.

(** C2. Fail-closed: when at least one bound is set and the metrics fetch made
    by the guard resolves to [null], or to metrics whose market cap is [null],
    [evaluateAutoTradeMarketCapGuard] returns [allowed: false] with the reason
    [metrics_unavailable] (the string [market_cap_unavailable]) and
    [marketCap: null]; so it does not return [allowed: true]. *)
Theorem C2_guard_fails_closed env tokenAddress b w fetched w' :
  someBoundSet b →
  fetchTokenMetrics env tokenAddress (guardEntered tokenAddress w) = (Normal fetched, w') →
  fetched ≫= mcap = None →
  evaluateAutoTradeMarketCapGuard env tokenAddress (Some b) w =
    (Normal {| allowed := false;
               reason := reasonString metrics_unavailable;
               marketCap := None |}, w').
Proof.
  intros Hb Hf Hnone.
  rewrite (guard_with_bounds _ _ _ _ _ _ (someBoundSet_has _ Hb) Hf).
  rewrite Hnone. reflexivity.
Qed.

Lemma C2_guard_fails_closed_witness :
  evaluateAutoTradeMarketCapGuard offlineEnv TOKEN (Some bounds_200k_5m) emptyWorld =
    (Normal {| allowed := false;
               reason := "market_cap_unavailable";
               marketCap := None |},
     {| metricsCache := ∅;
        trace := [EvLog Warn "JUPITER_API_KEY not set; skipping token metrics fetch";
                  EvFetchTokenMetrics TOKEN;
                  EvEvaluateGuard TOKEN] |}).
Proof.
  apply (C2_guard_fails_closed offlineEnv TOKEN bounds_200k_5m emptyWorld None).
  - left. discriminate.
  - reflexivity.
  - reflexivity.
Defined.

(** The same when the provider answers with a [null] market cap. *)
Example guard_null_mcap :
  (evaluateAutoTradeMarketCapGuard (envWithMcap None) TOKEN
     (Some {| boundMin := None; boundMax := Some 5000000%float |}) emptyWorld).1 =
    Normal {| allowed := false; reason := "market_cap_unavailable"; marketCap := None |}.
Proof. reflexivity. Qed.

(** C3. When the bounds are absent, or both [marketCapMin] and [marketCapMax]
    are unset, [evaluateAutoTradeMarketCapGuard] returns [allowed: true] with
    the reason [no_bounds_configured] (the string
    [no_market_cap_bounds_configured]) and [marketCap: null]; it makes no call of
    [fetchTokenMetrics], no provider request, and leaves the metrics cache as
    it was. *)
Theorem C3_guard_no_bounds_no_fetch env tokenAddress tokenBounds w :
  tokenBounds = None
  ∨ (∃ b, tokenBounds = Some b ∧ boundMin b = None ∧ boundMax b = None) →
  ∃ w',
    evaluateAutoTradeMarketCapGuard env tokenAddress tokenBounds w =
      (Normal {| allowed := true;
                 reason := reasonString no_bounds_configured;
                 marketCap := None |}, w')
    ∧ calls KFetch (trace w') = calls KFetch (trace w)
    ∧ calls KProvider (trace w') = calls KProvider (trace w)
    ∧ metricsCache w' = metricsCache w.
Proof.
  intros H. exists (guardEntered tokenAddress w). split; [|done].
  apply guard_no_bounds.
  destruct H as [->|(b & -> & Hlo & Hhi)]; [done|].
  cbn. by rewrite Hlo, Hhi.
Qed.

Lemma C3_guard_no_bounds_no_fetch_witness :
  ∃ w',
    evaluateAutoTradeMarketCapGuard (envWithMcap (Some 1500000%float)) TOKEN
      (Some {| boundMin := None; boundMax := None |}) emptyWorld =
      (Normal {| allowed := true;
                 reason := "no_market_cap_bounds_configured";
                 marketCap := None |}, w')
    ∧ calls KFetch (trace w') = calls KFetch (trace emptyWorld)
    ∧ calls KProvider (trace w') = calls KProvider (trace emptyWorld)
    ∧ metricsCache w' = metricsCache emptyWorld.
Proof.
  apply (C3_guard_no_bounds_no_fetch (envWithMcap (Some 1500000%float)) TOKEN).
  right. eexists. split; [reflexivity|]. split; reflexivity.
Defined.

Example hasBounds_cases :
  hasAutoTradeMarketCapBounds None = false
  ∧ hasAutoTradeMarketCapBounds (Some {| boundMin := None; boundMax := None |}) = false
  ∧ hasAutoTradeMarketCapBounds (Some {| boundMin := Some 1%float; boundMax := None |}) = true
  ∧ hasAutoTradeMarketCapBounds
      (Some {| boundMin := None; boundMax := Some 5000000%float |}) = true
  ∧ hasAutoTradeMarketCapBounds (Some bounds_200k_5m) = true.
Proof. repeat split. Qed.

(** C4. When at least one bound is set and the fetch resolves to a market cap
    [m]: if [min] is set and [m < min] the guard returns [allowed: false] with
    [below_min]; otherwise, if [max] is set and [m > max], [allowed: false]
    with [above_max]; otherwise [allowed: true] with [in_range]; and in all
    three cases the returned [marketCap] is [m] itself. *)
Theorem C4_guard_range_check env tokenAddress b w fetched m w' :
  someBoundSet b →
  fetchTokenMetrics env tokenAddress (guardEntered tokenAddress w)
    = (Normal (Some fetched), w') →
  mcap fetched = Some m →
  ∃ r,
    evaluateAutoTradeMarketCapGuard env tokenAddress (Some b) w = (Normal r, w')
    ∧ marketCap r = Some m
    ∧ (isBelowMin b m →
         allowed r = false ∧ reason r = reasonString below_min)
    ∧ (¬ isBelowMin b m → isAboveMax b m →
         allowed r = false ∧ reason r = reasonString above_max)
    ∧ (¬ isBelowMin b m → ¬ isAboveMax b m →
         allowed r = true ∧ reason r = reasonString in_range).
Proof.
  intros Hb Hf Hm.
  rewrite (guard_with_bounds _ _ _ _ _ _ (someBoundSet_has _ Hb) Hf).
  cbn. rewrite Hm. cbn.
  destruct (belowMin (Some b) m) eqn:Hlo.
  { apply belowMin_spec in Hlo. eexists. split; [reflexivity|]. cbn. tauto. }
  assert (¬ isBelowMin b m) as Hnlo.
  { intros H. apply belowMin_spec in H. congruence. }
  destruct (aboveMax (Some b) m) eqn:Hhi.
  { apply aboveMax_spec in Hhi. eexists. split; [reflexivity|]. cbn. tauto. }
  assert (¬ isAboveMax b m) as Hnhi.
  { intros H. apply aboveMax_spec in H. congruence. }
  eexists. split; [reflexivity|]. cbn. tauto.
Qed.

Lemma C4_guard_range_check_witness :
  ∃ r,
    evaluateAutoTradeMarketCapGuard (envWithMcap (Some 100000%float)) TOKEN
      (Some bounds_200k_5m) emptyWorld
    = (Normal r,
       (fetchTokenMetrics (envWithMcap (Some 100000%float)) TOKEN
          (guardEntered TOKEN emptyWorld)).2)
    ∧ marketCap r = Some 100000%float
    ∧ (isBelowMin bounds_200k_5m 100000%float →
         allowed r = false ∧ reason r = reasonString below_min)
    ∧ (¬ isBelowMin bounds_200k_5m 100000%float →
       isAboveMax bounds_200k_5m 100000%float →
         allowed r = false ∧ reason r = reasonString above_max)
    ∧ (¬ isBelowMin bounds_200k_5m 100000%float →
       ¬ isAboveMax bounds_200k_5m 100000%float →
         allowed r = true ∧ reason r = reasonString in_range).
Proof.
  apply (C4_guard_range_check (envWithMcap (Some 100000%float)) TOKEN bounds_200k_5m
           emptyWorld
           {| mcap := Some 100000%float;
              liquidity := Some 1000000%float;
              holderCount := Some 1000%float |}).
  - left. discriminate.
  - vm_compute. reflexivity.
  - reflexivity.
Defined.

(** The three cases of the scenario: bounds 200000 .. 5000000. *)
Example guard_scenario_below :
  (evaluateAutoTradeMarketCapGuard (envWithMcap (Some 100000%float)) TOKEN
     (Some bounds_200k_5m) emptyWorld).1 =
    Normal {| allowed := false; reason := "market_cap_below_min";
              marketCap := Some 100000%float |}.
Proof. reflexivity. Qed.

Example guard_scenario_above :
  (evaluateAutoTradeMarketCapGuard (envWithMcap (Some 8000000%float)) TOKEN
     (Some bounds_200k_5m) emptyWorld).1 =
    Normal {| allowed := false; reason := "market_cap_above_max";
              marketCap := Some 8000000%float |}.
Proof. reflexivity. Qed.

Example guard_scenario_in_range :
  (evaluateAutoTradeMarketCapGuard (envWithMcap (Some 1500000%float)) TOKEN
     (Some bounds_200k_5m) emptyWorld).1 =
    Normal {| allowed := true; reason := "market_cap_in_range";
              marketCap := Some 1500000%float |}.
Proof. reflexivity. Qed.

(** *** Relations that every step of a computation respects *)

Create HintDb steps discriminated.

Section Steps.

Variable R : World → World → Prop.
Context `{!PreOrder R}.

(** The kinds of events the relation lets a computation add to the trace. *)
Variable ok : Kind → bool.
Hypothesis R_event : ∀ e w, ok (kindOf e) = true → R w (pushed e w).

Lemma steps_ret {A} (a : A) : steps R (mret a).
Proof. intros w. reflexivity. Qed.

Lemma steps_throw {A} (e : Exn) : steps R (@throw A e).
Proof. intros w. reflexivity. Qed.

Lemma steps_lift {A} (c : Completion A) : steps R (lift c).
Proof. intros w. reflexivity. Qed.

Lemma steps_readTrace : steps R readTrace.
Proof. intros w. reflexivity. Qed.

Lemma steps_getCache : steps R getCache.
Proof. intros w. reflexivity. Qed.

Lemma steps_now env : steps R (now env).
Proof. intros w. reflexivity. Qed.

Lemma steps_bind {A B} (m : M A) (f : A → M B) :
  steps R m → (∀ a, steps R (f a)) → steps R (m ≫= f).
Proof.
  intros Hm Hf w. unfold mbind, M_bind. specialize (Hm w).
  destruct (m w) as [[a|e] w1]; cbn in *; [|done].
  etrans; [exact Hm|apply Hf].
Qed.

Lemma steps_tryCatch {A} (body : M A) (handler : Exn → M A) :
  steps R body → (∀ e, steps R (handler e)) → steps R (tryCatch body handler).
Proof.
  intros Hm Hf w. unfold tryCatch. specialize (Hm w).
  destruct (body w) as [[a|e] w1]; cbn in *; [done|].
  etrans; [exact Hm|apply Hf].
Qed.

Lemma steps_emit e : ok (kindOf e) = true → steps R (emit e).
Proof. intros He w. apply R_event, He. Qed.

Lemma steps_logger level message : ok KLog = true → steps R (logger level message).
Proof. intros He. apply steps_emit, He. Qed.

Lemma steps_external {A} e (reply : list Event → Completion A) :
  ok (kindOf e) = true → steps R (external e reply).
Proof. intros He w. apply R_event, He. Qed.

Lemma steps_forOf {A} (xs : list A) (body : A → M unit) :
  (∀ x, steps R (body x)) → steps R (forOf xs body).
Proof.
  intros Hb. induction xs as [|x xs IH]; cbn.
  - apply steps_ret.
  - apply steps_bind; [apply Hb|intros _; apply IH].
Qed.

End Steps.

#[global] Hint Resolve steps_ret steps_throw steps_lift steps_readTrace steps_getCache
  steps_now : steps.

(** Splits a premise [forallb ok kinds = true] into one fact per kind. *)
Ltac kinds H :=
  cbn in H; repeat (apply andb_true_iff in H as [? H]); clear H.

Section StepsOfThePrograms.

Variable R : World → World → Prop.
Context `{!PreOrder R}.
Variable ok : Kind → bool.
Hypothesis R_event : ∀ e w, ok (kindOf e) = true → R w (pushed e w).
Variable env : Env.

(** Walks through a computation, one construct at a time. *)
Ltac walk :=
  repeat first
    [ assumption
    | solve [auto with steps]
    | apply (@steps_bind R _); [|intros ?]
    | apply (@steps_tryCatch R _); [|intros ?]
    | apply (@steps_forOf R _); intros ?
    | apply (steps_logger R ok R_event)
    | apply (steps_emit R ok R_event)
    | apply (steps_external R ok R_event)
    | match goal with
      | |- steps _ (if ?b then _ else _) => destruct b
      | |- steps _ (match ?x with _ => _ end) => destruct x
      end ].

Lemma steps_createAutoTradeSignal agentId tokenAddress tokenSymbol :
  forallb ok [KFindAgent; KCreateSignal; KLog] = true →
  steps R (createAutoTradeSignal env agentId tokenAddress tokenSymbol).
Proof.
  intros H. kinds H. unfold createAutoTradeSignal, findAgent, createSignal. walk.
Qed.

Lemma steps_fetchTokenMetrics tokenAddress :
  (∀ c w, R w {| metricsCache := c; trace := trace w |}) →
  forallb ok [KFetch; KProvider; KLog] = true →
  steps R (fetchTokenMetrics env tokenAddress).
Proof.
  intros Hcache H. kinds H.
  assert (∀ c, steps R (setCache c)) as Hset by (intros c w; apply Hcache).
  unfold fetchTokenMetrics, fetchTokenMetrics_start, fetchTokenMetrics_resume,
    fetchTokenMetrics_settle, cacheResult.
  walk.
Qed.

Lemma steps_immediatePurchase id userId token :
  forallb ok [KCreateSignal; KPurchase; KLog] = true →
  steps R (immediatePurchase env id userId token).
Proof.
  intros H. kinds H.
  unfold immediatePurchase, createImmediateAutoTradeSignal, createSignal, executePurchase.
  walk.
Qed.

Lemma steps_updateAgentTradingConfig req :
  forallb ok [KFindAgent; KLoadConfig; KUpdateConfig; KCreateSignal; KPurchase; KLog]
    = true →
  steps R (updateAgentTradingConfig env req).
Proof.
  intros H.
  assert (∀ id userId token, steps R (immediatePurchase env id userId token)) as Hbuy.
  { intros. apply steps_immediatePurchase. cbn in *. kinds H. by repeat (apply andb_true_iff; split). }
  kinds H.
  unfold updateAgentTradingConfig, saveAndTrigger, errorResponse, findAgent,
    loadAgentConfig, updateAgentConfig.
  walk.
Qed.

Section WithFetch.

Hypothesis fetch_steps : ∀ tokenAddress, steps R (fetchTokenMetrics env tokenAddress).

Lemma steps_guard tokenAddress tokenBounds :
  ok KGuard = true →
  steps R (evaluateAutoTradeMarketCapGuard env tokenAddress tokenBounds).
Proof.
  intros H. unfold evaluateAutoTradeMarketCapGuard.
  pose proof (fetch_steps tokenAddress). walk.
Qed.

Lemma steps_reentryAfterGate event canProceed :
  forallb ok [KLog; KLoadConfig; KGuard; KFindAgent; KCreateSignal; KPurchase] = true →
  steps R (reentryAfterGate env event canProceed).
Proof.
  intros H. kinds H.
  pose proof (λ a b, steps_guard a b ltac:(assumption)) as Hguard.
  assert (∀ a b c, steps R (createAutoTradeSignal env a b c)) as Hsignal.
  { intros. apply steps_createAutoTradeSignal. cbn. by repeat (apply andb_true_iff; split). }
  unfold reentryAfterGate, loadAgentConfig, executePurchase.
  walk.
Qed.

Lemma steps_reentryOnError error : ok KLog = true → steps R (reentryOnError error).
Proof. intros H. unfold reentryOnError. walk. Qed.

Lemma steps_handlePositionClosed event :
  forallb ok [KLog; KGate; KLoadConfig; KGuard; KFindAgent; KCreateSignal; KPurchase]
    = true →
  steps R (handlePositionClosed env event).
Proof.
  intros H.
  assert (∀ b, steps R (reentryAfterGate env event b)) as Hafter.
  { intros. apply steps_reentryAfterGate. cbn in *. kinds H.
    by repeat (apply andb_true_iff; split). }
  kinds H.
  pose proof (λ e, steps_reentryOnError e ltac:(assumption)) as Herr.
  unfold handlePositionClosed, checkAndSet.
  walk.
Qed.

Lemma steps_reconcileToken agentId walletAddress tokenAddress tokenSymbol tokenBounds :
  forallb ok [KGate; KFindPosition; KGuard; KLog; KPurchase] = true →
  steps R (reconcileToken env agentId walletAddress tokenAddress tokenSymbol tokenBounds).
Proof.
  intros H. kinds H.
  pose proof (λ a b, steps_guard a b ltac:(assumption)) as Hguard.
  unfold reconcileToken, checkAndSet, findFirstPosition, executePurchase.
  walk.
Qed.

Lemma steps_reconcileAgent agentId :
  forallb ok [KLoadConfig; KTradingMode; KFindWallet; KGate; KFindPosition; KGuard;
              KLog; KPurchase] = true →
  steps R (reconcileAgent env agentId).
Proof.
  intros H.
  assert (∀ a b c d e, steps R (reconcileToken env a b c d e)) as Htoken.
  { intros. apply steps_reconcileToken. cbn in *. kinds H.
    by repeat (apply andb_true_iff; split). }
  kinds H.
  unfold reconcileAgent, loadAgentConfig, getTradingMode, findWalletByAgentId.
  walk.
Qed.

Lemma steps_runCycle :
  forallb ok [KActiveAgents; KLoadConfig; KTradingMode; KFindWallet; KGate;
              KFindPosition; KGuard; KLog; KPurchase] = true →
  steps R (runCycle env).
Proof.
  intros H.
  assert (∀ a, steps R (reconcileAgent env a)) as Hagent.
  { intros. apply steps_reconcileAgent. cbn in *. kinds H.
    by repeat (apply andb_true_iff; split). }
  kinds H.
  unfold runCycle, getActiveAgentIds.
  walk.
Qed.

End WithFetch.

End StepsOfThePrograms.

(** *** The events a computation adds to the trace *)

#[global] Instance adds_preorder ok : PreOrder (adds ok).
Proof.
  split.
  - intros w. exists []. by split.
  - intros w1 w2 w3 (l1 & E1 & F1) (l2 & E2 & F2).
    exists (l2 ++ l1). split.
    + by rewrite E2, E1, app_assoc.
    + by apply Forall_app.
Qed.

Lemma adds_event ok e w : ok (kindOf e) = true → adds ok w (pushed e w).
Proof. intros H. exists [e]. split; [done|]. by constructor. Qed.

Lemma adds_cache ok c w : adds ok w {| metricsCache := c; trace := trace w |}.
Proof. exists []. by split. Qed.

Lemma calls_app k l1 l2 : calls k (l1 ++ l2) = calls k l1 + calls k l2.
Proof. unfold calls. by rewrite List.filter_app, length_app. Qed.

Lemma calls_none ok k later :
  ok k = false → Forall (λ e, ok (kindOf e) = true) later → calls k later = 0.
Proof.
  intros Hk. unfold calls. induction 1 as [|e l He _ IH]; [done|].
  cbn. case_bool_decide; [congruence|done].
Qed.

Lemma adds_calls ok k w w' :
  ok k = false → adds ok w w' → calls k (trace w') = calls k (trace w).
Proof.
  intros Hk (later & -> & Hall). rewrite calls_app, (calls_none ok); done.
Qed.

(** [fetchTokenMetrics] adds calls of itself, provider requests and log lines. *)
Lemma fetch_adds ok env tokenAddress :
  forallb ok [KFetch; KProvider; KLog] = true →
  steps (adds ok) (fetchTokenMetrics env tokenAddress).
Proof.
  intros H. apply (steps_fetchTokenMetrics (adds ok) ok (adds_event ok)); [|done].
  intros c w. apply adds_cache.
Qed.

(** *** The re-entry handler *)

Lemma tryCatch_external {A B} e (reply : list Event → Completion A) (k : A → M B)
    (handler : Exn → M B) w :
  tryCatch (external e reply ≫= k) handler w =
    match reply (e :: trace w) with
    | Normal a => tryCatch (k a) handler (pushed e w)
    | Thrown x => handler x (pushed e w)
    end.
Proof.
  unfold tryCatch, mbind, M_bind, external, pushed. cbn.
  by destruct (reply _).
Qed.

Lemma reentryOnError_returns error w :
  (reentryOnError error w).1 = Normal tt.
Proof. unfold reentryOnError. by destruct (isExpectedSkip error). Qed.

(** The handler never lets an error out. *)
Lemma handlePositionClosed_returns env event w :
  (handlePositionClosed env event w).1 = Normal tt.
Proof.
  unfold handlePositionClosed, tryCatch.
  destruct (_ w) as [[[]|e] w1]; [done|]. apply reentryOnError_returns.
Qed.

(** C5. On a [position_closed] event whose source is [wallet_reset] the handler
    returns after one log line: it makes no call of the idempotency gate
    ([checkAndSet]) and no call of [executePurchase]. *)
Theorem C5_wallet_reset_is_ignored env event w :
  pc_source event = Some "wallet_reset" →
  ∃ w',
    handlePositionClosed env event w = (Normal tt, w')
    ∧ trace w' =
        EvLog Info "Auto-trade re-entry skipped: wallet reset close event" :: trace w
    ∧ calls KGate (trace w') = calls KGate (trace w)
    ∧ calls KPurchase (trace w') = calls KPurchase (trace w).
Proof.
  intros H. unfold handlePositionClosed. rewrite H.
  eexists. split; [reflexivity|]. done.
Qed.

Lemma C5_wallet_reset_is_ignored_witness :
  ∃ w',
    handlePositionClosed offlineEnv (closeEvent (Some "wallet_reset")) emptyWorld
      = (Normal tt, w')
    ∧ trace w' =
        EvLog Info "Auto-trade re-entry skipped: wallet reset close event"
          :: trace emptyWorld
    ∧ calls KGate (trace w') = calls KGate (trace emptyWorld)
    ∧ calls KPurchase (trace w') = calls KPurchase (trace emptyWorld).
Proof.
  apply (C5_wallet_reset_is_ignored offlineEnv (closeEvent (Some "wallet_reset"))).
  reflexivity.
Defined.

(** C10. On a [position_closed] event whose source is anything but the string
    [wallet_reset] (absent, ['trading'], or any other value) the handler goes
    past the wallet-reset check: its first call is the idempotency gate, on the
    key of the agent and the position, and it makes no other gate call.  With
    C5, the events ignored at step 1 are those whose source is exactly
    [wallet_reset]. *)
Theorem C10_other_sources_reach_the_gate env event w :
  pc_source event ≠ Some "wallet_reset" →
  ∃ later w',
    handlePositionClosed env event w = (Normal tt, w')
    ∧ trace w' =
        later ++ EvCheckAndSet (reentryKey event) (REDIS_TTL_IDEMPOTENCY env) :: trace w
    ∧ calls KGate later = 0.
Proof.
  intros Hsrc.
  pose proof (handlePositionClosed_returns env event w) as Hret.
  set (ok := allBut KGate).
  assert (adds ok (pushed (EvCheckAndSet (reentryKey event) (REDIS_TTL_IDEMPOTENCY env)) w)
               (handlePositionClosed env event w).2) as (later & Hlater & Hall).
  { unfold handlePositionClosed. rewrite bool_decide_eq_false_2 by done.
    unfold checkAndSet. rewrite tryCatch_external.
    destruct (checkAndSet_reply _ _ _ _) as [canProceed|x].
    - apply (steps_tryCatch (adds ok)).
      + apply (steps_reentryAfterGate (adds ok) ok (adds_event ok)); [|done].
        intros tok. by apply fetch_adds.
      + intros e. by apply (steps_reentryOnError (adds ok) ok (adds_event ok)).
    - by apply (steps_reentryOnError (adds ok) ok (adds_event ok)). }
  destruct (handlePositionClosed env event w) as [res w'] eqn:E. cbn in *. subst res.
  exists later, w'. split; [done|]. split; [done|].
  by apply (calls_none ok).
Qed.

Lemma C10_other_sources_reach_the_gate_witness :
  ∃ later w',
    handlePositionClosed offlineEnv (closeEvent None) emptyWorld = (Normal tt, w')
    ∧ trace w' =
        later ++ EvCheckAndSet (reentryKey (closeEvent None))
                   (REDIS_TTL_IDEMPOTENCY offlineEnv) :: trace emptyWorld
    ∧ calls KGate later = 0.
Proof.
  apply (C10_other_sources_reach_the_gate offlineEnv (closeEvent None) emptyWorld).
  discriminate.
Defined.

(** The same event with the source ['trading'], and with no source. *)
Example reentry_trading_source :
  trace (handlePositionClosed offlineEnv (closeEvent (Some "trading")) emptyWorld).2 =
    [EvLoadAgentConfig "agent-1"; EvCheckAndSet "auto-trade-reentry:agent-1:pos-1" 60].
Proof. reflexivity. Qed.

Example reentry_absent_source :
  trace (handlePositionClosed offlineEnv (closeEvent None) emptyWorld).2 =
    [EvLoadAgentConfig "agent-1"; EvCheckAndSet "auto-trade-reentry:agent-1:pos-1" 60].
Proof. reflexivity. Qed.

(** *** The reconciliation cycle *)

Lemma bind_external {A B} e (reply : list Event → Completion A) (k : A → M B) w a :
  reply (e :: trace w) = Normal a →
  (external e reply ≫= k) w = k a (pushed e w).
Proof. intros H. unfold mbind, M_bind, external. cbn. by rewrite H. Qed.

Lemma tryCatch_external_normal {A B} e (reply : list Event → Completion A) (k : A → M B)
    (handler : Exn → M B) w a :
  reply (e :: trace w) = Normal a →
  tryCatch (external e reply ≫= k) handler w = tryCatch (k a) handler (pushed e w).
Proof. intros H. by rewrite tryCatch_external, H. Qed.

Lemma lowerChar_idem c : lowerChar (lowerChar c) = lowerChar c.
Proof. by destruct c as [[] [] [] [] [] [] [] []]. Qed.

Lemma toLowerCase_idem s : toLowerCase (toLowerCase s) = toLowerCase s.
Proof. induction s as [|c s IH]; cbn; [done|]. by rewrite lowerChar_idem, IH. Qed.

Lemma positionMatches_spec agentId walletAddress tokenAddress row :
  positionMatches agentId walletAddress (normalizeToken tokenAddress) row = true
  ↔ isPositionOf agentId walletAddress (normalizeToken tokenAddress) row.
Proof.
  unfold positionMatches, isPositionOf, normalizeToken.
  rewrite toLowerCase_idem, !andb_true_iff, !String.eqb_eq. tauto.
Qed.

Lemma find_position_none agentId walletAddress tokenAddress rows :
  (∀ row, row ∈ rows →
     ¬ isPositionOf agentId walletAddress (normalizeToken tokenAddress) row) →
  List.find (positionMatches agentId walletAddress (normalizeToken tokenAddress)) rows
    = None.
Proof.
  intros H. destruct (List.find _ rows) as [row|] eqn:E; [|done].
  apply List.find_some in E as [Hin Hm].
  apply positionMatches_spec in Hm. apply list_elem_of_In in Hin. by destruct (H row).
Qed.

Lemma find_position_some agentId walletAddress tokenAddress rows row :
  row ∈ rows →
  isPositionOf agentId walletAddress (normalizeToken tokenAddress) row →
  is_Some (List.find
             (positionMatches agentId walletAddress (normalizeToken tokenAddress)) rows).
Proof.
  intros Hin Hrow.
  destruct (List.find _ rows) as [r|] eqn:E; [by eexists|].
  apply list_elem_of_In in Hin.
  pose proof (List.find_none _ _ E _ Hin) as Hno.
  apply positionMatches_spec in Hrow. congruence.
Qed.

Section ReconcileOneToken.

Variables (env : Env) (agentId walletAddress : string) (token : AutoTradeTokenConfig).
Variable w : World.

Let normalized := toLowerCase (trim (address token)).
Let key := reconcileKey agentId walletAddress normalized.
Let t5 := EvCheckAndSet key RECONCILE_LOCK_TTL_SECONDS :: trace w.
Let t6 := EvFindFirstPosition agentId walletAddress normalized :: t5.

Hypothesis gate_granted :
  checkAndSet_reply env t5 key RECONCILE_LOCK_TTL_SECONDS = Normal true.

Variable rows : list AgentPositionRow.
Hypothesis store_rows : agentPosition_rows env t6 = Normal rows.

Lemma reconcileToken_existing row :
  row ∈ rows → isPositionOf agentId walletAddress normalized row →
  reconcileToken env agentId walletAddress (address token) (symbol token) (boundsOf token) w
    = (Normal tt, {| metricsCache := metricsCache w; trace := t6 |}).
Proof.
  intros Hin Hrow.
  destruct (find_position_some _ _ _ _ _ Hin Hrow) as [r Hr].
  unfold t6, t5, key, normalized in *. clear Hrow.
  unfold reconcileToken, checkAndSet, findFirstPosition, normalizeToken in *.
  erewrite bind_external by exact gate_granted. cbn.
  erewrite bind_external; cycle 1.
  { cbn. rewrite store_rows, Hr. reflexivity. }
  reflexivity.
Qed.

Lemma reconcileToken_missing g w6 :
  (∀ row, row ∈ rows → ¬ isPositionOf agentId walletAddress normalized row) →
  evaluateAutoTradeMarketCapGuard env normalized (Some (boundsOf token))
    {| metricsCache := metricsCache w; trace := t6 |} = (Normal g, w6) →
  allowed g = true →
  ∃ level message,
    reconcileToken env agentId walletAddress (address token) (symbol token)
      (boundsOf token) w
    = (Normal tt,
       pushed (EvLog level message)
         (pushed (EvExecutePurchase (reconcilePurchase agentId walletAddress token)) w6)).
Proof.
  intros Hnone Hguard Hallowed.
  pose proof (find_position_none _ _ _ _ Hnone) as Hfind.
  unfold t6, t5, key, normalized in *. clear Hnone.
  unfold reconcileToken, checkAndSet, findFirstPosition, normalizeToken in *.
  erewrite bind_external by exact gate_granted. cbn.
  erewrite bind_external; cycle 1.
  { cbn. rewrite store_rows, Hfind. reflexivity. }
  cbn. unfold mbind at 1, M_bind at 1. unfold pushed at 1. unfold pushed at 1. cbn.
  rewrite Hguard, Hallowed. cbn.
  unfold tryCatch, executePurchase, mbind, M_bind, external, reconcilePurchase. cbn.
  destruct (executePurchase_reply _ _ _) as [res|error]; cbn.
  - by eexists _, _.
  - destruct (isExpectedSkip error); by eexists _, _.
Qed.

End ReconcileOneToken.

Section ReconcileCycle.

Variables (env : Env) (agentId : string) (config : AgentTradingConfig).
Variables (token : AutoTradeTokenConfig) (mode walletAddress : string).
Variable w : World.

Let t1 := EvGetActiveAgentIds :: trace w.
Let t2 := EvLoadAgentConfig agentId :: t1.
Let t3 := EvGetTradingMode agentId :: t2.
Let t4 := EvFindWalletByAgentId agentId mode :: t3.

Hypothesis one_agent : getActiveAgentIds_reply env t1 = Normal [agentId].
Hypothesis its_config : loadAgentConfig_reply env t2 agentId = Normal config.
Hypothesis auto_trade_on : autoTradeOn config = true.
Hypothesis one_enabled_token : List.filter enabled (autoTradeTokens config) = [token].
Hypothesis its_mode : getTradingMode_reply env t3 agentId = Normal mode.
Hypothesis its_wallet :
  findWalletByAgentId_reply env t4 agentId mode = Normal (Some walletAddress).
Hypothesis wallet_named : truthy walletAddress = true.

(** In this scenario the cycle comes down to [reconcileToken] for the one token. *)
Lemma runCycle_one_token w' :
  reconcileToken env agentId walletAddress (address token) (symbol token) (boundsOf token)
    {| metricsCache := metricsCache w; trace := t4 |} = (Normal tt, w') →
  runCycle env w = (Normal tt, w').
Proof.
  intros Htoken. unfold t4, t3, t2, t1 in *.
  unfold runCycle, getActiveAgentIds.
  erewrite bind_external by exact one_agent. cbn.
  unfold mbind at 1, M_bind at 1.
  unfold reconcileAgent at 1, loadAgentConfig.
  erewrite tryCatch_external_normal by exact its_config.
  rewrite auto_trade_on, one_enabled_token. cbn.
  unfold getTradingMode.
  erewrite tryCatch_external_normal by exact its_mode.
  unfold findWalletByAgentId.
  erewrite tryCatch_external_normal by exact its_wallet.
  cbn match. rewrite wallet_named.
  unfold tryCatch, mbind, M_bind. cbn. unfold pushed. cbn.
  by rewrite Htoken.
Qed.

End ReconcileCycle.

(** C6. One reconciliation cycle for one active agent whose configuration has
    auto-trade on and one enabled token, with a wallet and a granted gate:
    - when the store has no active position of the wallet in the token and the
      market-cap guard allows, the cycle makes exactly one [executePurchase]
      call, and its [tokenAddress] is the trimmed, lower-cased address;
    - when the store has a position whose token address equals the normalized
      one up to the case of letters, the cycle makes no [executePurchase] call. *)
Theorem C6_reconciliation_cycle
    env agentId config token mode walletAddress rows w :
  let normalized := toLowerCase (trim (address token)) in
  let key := reconcileKey agentId walletAddress normalized in
  let t1 := EvGetActiveAgentIds :: trace w in
  let t2 := EvLoadAgentConfig agentId :: t1 in
  let t3 := EvGetTradingMode agentId :: t2 in
  let t4 := EvFindWalletByAgentId agentId mode :: t3 in
  let t5 := EvCheckAndSet key RECONCILE_LOCK_TTL_SECONDS :: t4 in
  let t6 := EvFindFirstPosition agentId walletAddress normalized :: t5 in
  getActiveAgentIds_reply env t1 = Normal [agentId] →
  loadAgentConfig_reply env t2 agentId = Normal config →
  autoTradeOn config = true →
  List.filter enabled (autoTradeTokens config) = [token] →
  getTradingMode_reply env t3 agentId = Normal mode →
  findWalletByAgentId_reply env t4 agentId mode = Normal (Some walletAddress) →
  truthy walletAddress = true →
  checkAndSet_reply env t5 key RECONCILE_LOCK_TTL_SECONDS = Normal true →
  agentPosition_rows env t6 = Normal rows →
  ((∀ row, row ∈ rows → ¬ isPositionOf agentId walletAddress normalized row) →
   (∃ g w6,
      evaluateAutoTradeMarketCapGuard env normalized (Some (boundsOf token))
        {| metricsCache := metricsCache w; trace := t6 |} = (Normal g, w6)
      ∧ allowed g = true) →
   ∃ later earlier w',
     runCycle env w = (Normal tt, w')
     ∧ trace w' =
         later ++ EvExecutePurchase (reconcilePurchase agentId walletAddress token)
           :: earlier ++ trace w
     ∧ calls KPurchase later = 0 ∧ calls KPurchase earlier = 0
     ∧ calls KPurchase (trace w') = S (calls KPurchase (trace w))
     ∧ pr_tokenAddress (reconcilePurchase agentId walletAddress token)
         = toLowerCase (trim (address token)))
  ∧ ((∃ row, row ∈ rows ∧ isPositionOf agentId walletAddress normalized row) →
     ∃ w',
       runCycle env w = (Normal tt, w')
       ∧ calls KPurchase (trace w') = calls KPurchase (trace w)).
Proof.
  intros normalized key t1 t2 t3 t4 t5 t6 H1 H2 H3 H4 H5 H6 H7 Hgate Hrows.
  split.
  - intros Hnone (g & w6 & Hguard & Hallowed).
    destruct (reconcileToken_missing env agentId walletAddress token
                {| metricsCache := metricsCache w; trace := t4 |}
                Hgate rows Hrows g w6 Hnone Hguard Hallowed)
      as (level & message & Htoken).
    pose proof (runCycle_one_token env agentId config token mode walletAddress w
                  H1 H2 H3 H4 H5 H6 H7 _ Htoken) as Hcycle.
    assert (adds (allBut KPurchase)
                 {| metricsCache := metricsCache w; trace := t6 |} w6)
      as (mid & Hmid & Hall).
    { pose proof (steps_guard (adds (allBut KPurchase)) (allBut KPurchase)
                    (adds_event _) env
                    (λ tok, fetch_adds (allBut KPurchase) env tok eq_refl)
                    normalized (Some (boundsOf token)) eq_refl
                    {| metricsCache := metricsCache w; trace := t6 |}) as Hsteps.
      by rewrite Hguard in Hsteps. }
    cbn in Hmid.
    exists [EvLog level message],
      (mid ++ [EvFindFirstPosition agentId walletAddress normalized;
               EvCheckAndSet key RECONCILE_LOCK_TTL_SECONDS;
               EvFindWalletByAgentId agentId mode;
               EvGetTradingMode agentId;
               EvLoadAgentConfig agentId;
               EvGetActiveAgentIds]).
    eexists. split; [exact Hcycle|].
    assert (calls KPurchase mid = 0) as Hmid0 by by apply (calls_none (allBut KPurchase)).
    split; [|split; [done|split; [|split; [|done]]]].
    + cbn. rewrite Hmid. unfold t6, t5, t4, t3, t2, t1. by rewrite <- app_assoc.
    + by rewrite calls_app, Hmid0.
    + cbn [pushed trace]. rewrite Hmid.
      change (calls KPurchase
                (EvLog level message
                 :: EvExecutePurchase (reconcilePurchase agentId walletAddress token)
                 :: mid ++ t6))
        with (S (calls KPurchase (mid ++ t6))).
      by rewrite calls_app, Hmid0.
  - intros (row & Hin & Hrow).
    pose proof (reconcileToken_existing env agentId walletAddress token
                  {| metricsCache := metricsCache w; trace := t4 |}
                  Hgate rows Hrows row Hin Hrow) as Htoken.
    pose proof (runCycle_one_token env agentId config token mode walletAddress w
                  H1 H2 H3 H4 H5 H6 H7 _ Htoken) as Hcycle.
    eexists. split; [exact Hcycle|]. reflexivity.
Qed.

Lemma C6_reconciliation_cycle_witness :
  (∃ later earlier w',
     runCycle (cycleEnv []) emptyWorld = (Normal tt, w')
     ∧ trace w' =
         later ++ EvExecutePurchase (reconcilePurchase "agent-1" "wallet-1" tokenConfig)
           :: earlier ++ trace emptyWorld
     ∧ calls KPurchase later = 0 ∧ calls KPurchase earlier = 0
     ∧ calls KPurchase (trace w') = S (calls KPurchase (trace emptyWorld))
     ∧ pr_tokenAddress (reconcilePurchase "agent-1" "wallet-1" tokenConfig)
         = toLowerCase (trim (address tokenConfig)))
  ∧ (∃ w',
       runCycle (cycleEnv [existingRow]) emptyWorld = (Normal tt, w')
       ∧ calls KPurchase (trace w') = calls KPurchase (trace emptyWorld)).
Proof.
  split.
  - apply (C6_reconciliation_cycle (cycleEnv []) "agent-1" (configWith true) tokenConfig
             "simulation" "wallet-1" [] emptyWorld
             eq_refl eq_refl eq_refl eq_refl eq_refl eq_refl eq_refl eq_refl eq_refl).
    + intros row Hin. inversion Hin.
    + eexists _, _. split; [vm_compute; reflexivity|reflexivity].
  - apply (C6_reconciliation_cycle (cycleEnv [existingRow]) "agent-1" (configWith true)
             tokenConfig "simulation" "wallet-1" [existingRow] emptyWorld
             eq_refl eq_refl eq_refl eq_refl eq_refl eq_refl eq_refl eq_refl eq_refl).
    exists existingRow. split; [left|by vm_compute].
Defined.

(** The purchase of the scenario, as the unit test of the manager expects it. *)
Example reconcile_scenario_purchase :
  List.filter (λ e, bool_decide (kindOf e = KPurchase))
    (trace (runCycle (cycleEnv []) emptyWorld).2) =
    [EvExecutePurchase
       {| pr_agentId := "agent-1";
          pr_walletAddress := Some "wallet-1";
          pr_tokenAddress := "token111111111111111111111111111111111111";
          pr_tokenSymbol := Some "TKN";
          pr_signalId := None |}].
Proof. by vm_compute. Qed.

Example reconcile_scenario_existing :
  List.filter (λ e, bool_decide (kindOf e = KPurchase))
    (trace (runCycle (cycleEnv [existingRow]) emptyWorld).2) = [].
Proof. by vm_compute. Qed.

(** *** The immediate buy on configuration save *)

(** Reads the new events off a trace that extends [t]. *)
Ltac prefix_of l t :=
  lazymatch l with
  | t => constr:(@nil Event)
  | ?a :: ?rest => let p := prefix_of rest t in constr:(a :: p)
  end.

Ltac prefix_of_trace :=
  lazymatch goal with
  | |- ?l = _ ++ ?t => let p := prefix_of l t in exact (eq_refl (p ++ t))
  end.

Lemma immediatePurchase_buys env id userId token w :
  ∃ later w' signalId,
    immediatePurchase env id userId token w = (Normal tt, w')
    ∧ trace w' = later ++ trace w
    ∧ Forall (λ e, noGuardKinds (kindOf e) = true) later
    ∧ EvExecutePurchase (immediateRequest id token signalId) ∈ later.
Proof.
  unfold immediatePurchase, createImmediateAutoTradeSignal, createSignal, executePurchase,
    tryCatch, mbind, M_bind, mret, M_ret, external, logger, emit, immediateRequest.
  cbn.
  destruct (createSignal_reply _ _ _) as [signalId|e1]; cbn;
    destruct (executePurchase_reply _ _ _) as [res|e2]; cbn; try destruct e2;
    eexists _, _, _;
    (split; [reflexivity|]);
    (split; [simpl; prefix_of_trace|]);
    (split; [repeat (apply Forall_cons_2; [reflexivity|]); apply Forall_nil_2|]);
    first [apply list_elem_of_here|apply list_elem_of_further, list_elem_of_here].
Qed.

Lemma immediate_loop env id userId tokens w :
  ∃ later w',
    forOf tokens (immediatePurchase env id userId) w = (Normal tt, w')
    ∧ trace w' = later ++ trace w
    ∧ Forall (λ e, noGuardKinds (kindOf e) = true) later
    ∧ ∀ token, token ∈ tokens →
        ∃ signalId, EvExecutePurchase (immediateRequest id token signalId) ∈ later.
Proof.
  revert w. induction tokens as [|token rest IH]; intros w.
  - exists [], w. repeat split; [constructor|]. intros token Hin. inversion Hin.
  - destruct (immediatePurchase_buys env id userId token w)
      as (l1 & w1 & sid & E1 & T1 & F1 & P1).
    destruct (IH w1) as (l2 & w2 & E2 & T2 & F2 & P2).
    exists (l2 ++ l1), w2. split; [|split; [|split]].
    + cbn. unfold mbind, M_bind. by rewrite E1.
    + by rewrite T2, T1, app_assoc.
    + by apply Forall_app.
    + intros t [->|Hin]%elem_of_cons.
      * exists sid. set_solver.
      * destruct (P2 t Hin) as [s Hs]. exists s. set_solver.
Qed.

(** C1 (as the code has it). On configuration save, for every token that
    transitions into an enabled auto-trade state
    ([getImmediateAutoTradeTokens]), the immediate-buy trigger calls
    [executePurchase] for that token with its trimmed address.  It does not
    evaluate the market-cap guard and fetches no metrics: the token's bounds
    never prevent this purchase. *)
Theorem C1_immediate_buy_without_guard env userId id partial existing final updated w :
  let t1 := EvFindAgent id (Some userId) :: trace w in
  let t2 := EvLoadAgentConfig id :: t1 in
  let t3 := EvUpdateAgentConfig id (Some final) :: t2 in
  uuidRegex_test id = true →
  (∃ owner, findAgent_reply env t1 id (Some userId) = Normal (Some owner)) →
  loadAgentConfig_reply env t2 id = Normal existing →
  mergeConfigs env existing partial = Normal final →
  (validateConfig env final).1 = true →
  updateAgentConfig_reply env t3 id (Some final) = Normal updated →
  ∃ later w',
    updateAgentTradingConfig env
      {| req_user := Some userId; req_params_id := id;
         req_body_config := BodyPartial partial |} w
      = (Normal {| status := 200; body := ConfigBody updated |}, w')
    ∧ trace w' = later ++ t3
    ∧ calls KGuard later = 0
    ∧ calls KFetch later = 0
    ∧ ∀ token, token ∈ getImmediateAutoTradeTokens existing updated →
        ∃ signalId, EvExecutePurchase (immediateRequest id token signalId) ∈ later.
Proof.
  intros t1 t2 t3 Hid (owner & Hagent) Hload Hmerge Hvalid Hupdate.
  destruct (immediate_loop env id userId (getImmediateAutoTradeTokens existing updated)
              {| metricsCache := metricsCache w; trace := t3 |})
    as (later & w' & Eloop & Tloop & Floop & Ploop).
  exists later, w'. split; [|split; [exact Tloop|split; [|split; [|exact Ploop]]]].
  - unfold updateAgentTradingConfig. cbn. rewrite Hid. cbn.
    unfold findAgent. erewrite tryCatch_external_normal by exact Hagent.
    unfold loadAgentConfig. erewrite tryCatch_external_normal by exact Hload.
    unfold tryCatch, mbind at 1, M_bind at 1, lift. rewrite Hmerge. cbn.
    rewrite Hvalid. cbn.
    unfold saveAndTrigger, updateAgentConfig.
    erewrite bind_external by exact Hupdate.
    unfold mbind, M_bind, pushed. cbn.
    fold t1 t2 t3. by rewrite Eloop.
  - by apply (calls_none noGuardKinds).
  - by apply (calls_none noGuardKinds).
Qed.

Lemma C1_immediate_buy_without_guard_witness :
  ∃ later w',
    updateAgentTradingConfig saveEnv saveRequest emptyWorld
      = (Normal {| status := 200; body := ConfigBody (configWith true) |}, w')
    ∧ trace w' =
        later ++ [EvUpdateAgentConfig AGENT_UUID (Some (configWith true));
                  EvLoadAgentConfig AGENT_UUID;
                  EvFindAgent AGENT_UUID (Some "user-1")]
    ∧ calls KGuard later = 0
    ∧ calls KFetch later = 0
    ∧ ∀ token, token ∈ getImmediateAutoTradeTokens (configWith false) (configWith true) →
        ∃ signalId,
          EvExecutePurchase (immediateRequest AGENT_UUID token signalId) ∈ later.
Proof.
  apply (C1_immediate_buy_without_guard saveEnv "user-1" AGENT_UUID (configWith true)
           (configWith false) (configWith true) (configWith true) emptyWorld).
  - reflexivity.
  - exists "user-1". reflexivity.
  - reflexivity.
  - reflexivity.
  - reflexivity.
  - reflexivity.
Defined.

(** The claim as stated fails: the token switched on by the request has a
    market cap below its minimum, so the guard denies it, and the save still
    purchases it, with no guard evaluation on the trace. *)
Lemma C1_counterexample :
  getImmediateAutoTradeTokens (configWith false) (configWith true) = [tokenConfig]
  ∧ (evaluateAutoTradeMarketCapGuard saveEnv (trim (address tokenConfig))
       (Some (boundsOf tokenConfig)) emptyWorld).1
    = Normal {| allowed := false;
                reason := "market_cap_below_min";
                marketCap := Some 100000%float |}
  ∧ (updateAgentTradingConfig saveEnv saveRequest emptyWorld).1
    = Normal {| status := 200; body := ConfigBody (configWith true) |}
  ∧ trace (updateAgentTradingConfig saveEnv saveRequest emptyWorld).2
    = [EvExecutePurchase
         {| pr_agentId := AGENT_UUID;
            pr_walletAddress := None;
            pr_tokenAddress := TOKEN;
            pr_tokenSymbol := Some "TKN";
            pr_signalId := Some 1%Z |};
       EvCreateSignal
         {| sd_tokenAddress := TOKEN;
            sd_symbol := Some "TKN";
            sd_signalType := "Auto-trade";
            sd_activationReason := "Auto-trade immediate buy after config save";
            sd_signalStrength := 3;
            sd_source := "Trading Engine";
            sd_userId := "user-1" |};
       EvUpdateAgentConfig AGENT_UUID (Some (configWith true));
       EvLoadAgentConfig AGENT_UUID;
       EvFindAgent AGENT_UUID (Some "user-1")].
Proof. repeat split; by vm_compute. Qed.

(** *** The metrics cache *)

(** A cache hit: the entry is returned as it is, null result or not; nothing
    is asked of the provider and the cache is left alone. *)
Lemma fetch_hit env tokenAddress w cached :
  metricsCache w !! tokenAddress = Some cached →
  (Date_now env (EvFetchTokenMetrics tokenAddress :: trace w) < expiresAt cached)%Z →
  fetchTokenMetrics env tokenAddress w
    = (Normal (metrics cached), pushed (EvFetchTokenMetrics tokenAddress) w).
Proof.
  intros Hentry Hfresh.
  unfold fetchTokenMetrics, fetchTokenMetrics_start, fetchTokenMetrics_resume. run.
  rewrite Hentry. cbn.
  destruct (Z.ltb_spec (Date_now env (EvFetchTokenMetrics tokenAddress :: trace w))
              (expiresAt cached)) as [_|Hge]; [reflexivity|lia].
Qed.

#[global] Instance keepsInvariant_preorder : PreOrder keepsInvariant.
Proof.
  split.
  - by intros w H.
  - intros w1 w2 w3 H12 H23 H. by apply H23, H12.
Qed.

Lemma cacheInvariant_empty : cacheInvariant emptyWorld.
Proof. split; [|done]. intros t tok Hin. inversion Hin. Qed.

Lemma keepsInvariant_event e w :
  allBut KProvider (kindOf e) = true → keepsInvariant w (pushed e w).
Proof.
  intros He [Hcov Hsp]. split.
  - intros t tok [Heq|Hin]%elem_of_cons.
    + subst e. discriminate He.
    + by apply Hcov.
  - cbn. split; [|done]. by destruct e.
Qed.

Lemma unexpired_none t entry :
  unexpired t entry = None →
  ∀ c, entry = Some c → (expiresAt c ≤ t)%Z.
Proof.
  intros H c ->. cbn in H.
  destruct (Z.ltb_spec t (expiresAt c)); [done|lia].
Qed.

(** The world after a provider request at [t] that settled at [t'], behind
    the log lines [logs]. *)
Lemma cacheInvariant_after_request w t t' tokenAddress m logs :
  cacheInvariant w →
  unexpired t (metricsCache w !! tokenAddress) = None →
  (t ≤ t')%Z →
  Forall (λ e, kindOf e = KLog) logs →
  cacheInvariant
    {| metricsCache :=
         <[tokenAddress := {| metrics := m;
                              expiresAt := (t' + METRICS_CACHE_TTL_MS)%Z |}]>
           (metricsCache w);
       trace := logs ++ EvProviderCall t tokenAddress
                  :: EvFetchTokenMetrics tokenAddress :: trace w |}.
Proof.
  intros [Hcov Hsp] Hmiss Hle Hlogs.
  assert (∀ t0, EvProviderCall t0 tokenAddress ∈ trace w →
                (t0 + METRICS_CACHE_TTL_MS ≤ t)%Z) as Hearlier.
  { intros t0 Hin. destruct (Hcov _ _ Hin) as (c & Hc & Hexp).
    pose proof (unexpired_none _ _ Hmiss c Hc). lia. }
  split.
  - intros t0 tok Hin. cbn in *.
    apply elem_of_app in Hin as [Hin|Hin].
    { rewrite Forall_forall in Hlogs. by specialize (Hlogs _ Hin). }
    destruct (decide (tok = tokenAddress)) as [->|Hne].
    + rewrite lookup_insert_eq. eexists. split; [done|]. cbn.
      apply elem_of_cons in Hin as [[= -> ]|Hin]; [lia|].
      apply elem_of_cons in Hin as [[=]|Hin].
      specialize (Hearlier _ Hin). unfold METRICS_CACHE_TTL_MS in *. lia.
    + rewrite lookup_insert_ne by done.
      apply elem_of_cons in Hin as [[= -> ->]|Hin]; [done|].
      apply elem_of_cons in Hin as [[=]|Hin].
      by apply Hcov.
  - cbn. induction Hlogs as [|e logs He _ IH]; cbn.
    + split; [|split; [done|done]].
      intros t0 [[=]|Hin]%elem_of_cons. by apply Hearlier.
    + split; [|exact IH]. by destruct e.
Qed.

Lemma fetch_keeps_invariant env tokenAddress :
  monotoneClock env → steps keepsInvariant (fetchTokenMetrics env tokenAddress).
Proof.
  intros Hclock w Hinv.
  unfold fetchTokenMetrics, fetchTokenMetrics_start, fetchTokenMetrics_resume. run.
  set (tr0 := EvFetchTokenMetrics tokenAddress :: trace w).
  destruct (unexpired _ _) as [cached|] eqn:Hmiss; run.
  { by apply (keepsInvariant_event (EvFetchTokenMetrics tokenAddress) w). }
  destruct (apiKeyMissing env); run.
  { apply (keepsInvariant_event (EvLog Warn _) (pushed (EvFetchTokenMetrics _) w));
      [done|].
    by apply (keepsInvariant_event (EvFetchTokenMetrics tokenAddress) w). }
  pose proof (Hclock (EvProviderCall (Date_now env tr0) tokenAddress) tr0) as Hle1.
  unfold fetchTokenMetrics_settle, cacheResult, now, getCache, setCache.
  destruct (jupiterSearch env _ _) as [|? [?|]| |[|[|first rest]]]; run;
    lazymatch goal with
    | |- cacheInvariant {| metricsCache := _; trace := ?l :: EvProviderCall _ _ :: _ |} =>
        pose proof (Hclock l (EvProviderCall (Date_now env tr0) tokenAddress :: tr0))
          as Hle2;
        apply (cacheInvariant_after_request w _ _ tokenAddress _ [l]);
          [done|done|lia|apply Forall_cons_2; [done|apply Forall_nil_2]]
    | |- _ => by apply (cacheInvariant_after_request w _ _ tokenAddress _ [])
    end.
Qed.

Lemma perform_keeps_invariant env op :
  monotoneClock env → steps keepsInvariant (perform env op).
Proof.
  intros Hclock.
  pose proof (λ tok, fetch_keeps_invariant env tok Hclock) as Hfetch.
  pose proof (steps_logger keepsInvariant (allBut KProvider) keepsInvariant_event)
    as Hlog.
  assert (∀ A (m : M A), steps keepsInvariant m →
            steps keepsInvariant (m ≫= λ _, mret tt)) as Hdrop.
  { intros A m Hm. apply (@steps_bind keepsInvariant _); [done|].
    intros a. apply (@steps_ret keepsInvariant _). }
  unfold perform.
  apply (@steps_tryCatch keepsInvariant _); [|intros e; exact (Hlog _ _ eq_refl)].
  destruct op as [tok|tok b|event| |req].
  - apply Hdrop, Hfetch.
  - apply Hdrop.
    by apply (steps_guard keepsInvariant (allBut KProvider) keepsInvariant_event).
  - by apply (steps_handlePositionClosed keepsInvariant (allBut KProvider)
                keepsInvariant_event).
  - by apply (steps_runCycle keepsInvariant (allBut KProvider) keepsInvariant_event).
  - apply Hdrop.
    by apply (steps_updateAgentTradingConfig keepsInvariant (allBut KProvider)
                keepsInvariant_event).
Qed.

Lemma no_calls_before tokenAddress from tr :
  (∀ t0, EvProviderCall t0 tokenAddress ∈ tr → (t0 < from)%Z) →
  providerCallsIn tokenAddress from tr = 0.
Proof.
  unfold providerCallsIn. induction tr as [|e tr IH]; intros H; [done|].
  cbn. destruct (inWindow tokenAddress from e) eqn:He.
  - destruct e; try done. cbn in He.
    apply andb_true_iff in He as [[Htok Hlo]%andb_true_iff _].
    apply String.eqb_eq in Htok as ->. apply Z.leb_le in Hlo.
    specialize (H time). ospecialize* H; [left|lia].
  - apply IH. intros t0 Hin. apply H. by right.
Qed.

Lemma spaced_window tokenAddress from tr :
  spaced tr → providerCallsIn tokenAddress from tr ≤ 1.
Proof.
  induction tr as [|e tr IH]; intros Hsp; [cbn; lia|].
  destruct Hsp as [He Hsp]. unfold providerCallsIn in *. cbn.
  destruct (inWindow tokenAddress from e) eqn:Hwin; [|by apply IH].
  destruct e; try done. cbn in Hwin.
  apply andb_true_iff in Hwin as [[Htok _]%andb_true_iff Hhi].
  apply String.eqb_eq in Htok as ->. apply Z.ltb_lt in Hhi.
  cbn. fold (providerCallsIn tokenAddress from tr).
  rewrite no_calls_before; [lia|].
  intros t0 Hin. specialize (He t0 Hin). lia.
Qed.

(** C7 (as the code has it). A call of [fetchTokenMetrics] that finds an
    entry for the token, a cached [null] included, before its [expiresAt]
    returns the entry's value as it is, asks nothing of the provider and
    leaves the cache alone.  Hence, when the operations of the process run one
    after the other (no call starts while another awaits the provider) and the
    clock does not go back, any window of one TTL holds at most one provider
    request per token address, however many calls are made. *)
Theorem C7_cache_caps_provider_calls env :
  monotoneClock env →
  (∀ tokenAddress w cached,
     metricsCache w !! tokenAddress = Some cached →
     (Date_now env (EvFetchTokenMetrics tokenAddress :: trace w) < expiresAt cached)%Z →
     fetchTokenMetrics env tokenAddress w
       = (Normal (metrics cached), pushed (EvFetchTokenMetrics tokenAddress) w))
  ∧ (∀ ops w tokenAddress from,
       cacheInvariant w →
       providerCallsIn tokenAddress from (trace (performAll env ops w).2) ≤ 1).
Proof.
  intros Hclock. split.
  - intros. by apply fetch_hit.
  - intros ops w tokenAddress from Hinv. apply spaced_window.
    assert (steps keepsInvariant (performAll env ops)) as Hall.
    { apply (@steps_forOf keepsInvariant _). intros op.
      by apply perform_keeps_invariant. }
    by destruct (Hall w Hinv).
Qed.

Lemma tickingEnv_monotone answer : monotoneClock (tickingEnv answer).
Proof. intros e tr. cbn [Date_now tickingEnv length]. lia. Qed.

Lemma C7_cache_caps_provider_calls_witness :
  fetchTokenMetrics (tickingEnv RequestRejected) TOKEN
    (fetchTokenMetrics (tickingEnv RequestRejected) TOKEN emptyWorld).2
  = (Normal None,
     pushed (EvFetchTokenMetrics TOKEN)
       (fetchTokenMetrics (tickingEnv RequestRejected) TOKEN emptyWorld).2)
  ∧ providerCallsIn TOKEN 0
      (trace (performAll (tickingEnv RequestRejected)
                [OpFetch TOKEN; OpGuard TOKEN (Some bounds_200k_5m); OpFetch TOKEN]
                emptyWorld).2) ≤ 1.
Proof.
  pose proof (C7_cache_caps_provider_calls (tickingEnv RequestRejected)
                (tickingEnv_monotone RequestRejected)) as [Hhit Hcap].
  split.
  - apply (Hhit TOKEN _ {| metrics := None; expiresAt := 33000 |}).
    + vm_compute. reflexivity.
    + vm_compute. reflexivity.
  - apply Hcap, cacheInvariant_empty.
Defined.

(** Three calls in a row, the provider failing: one request, and the cached
    failure answers the other two. *)
Example consecutive_calls_one_request :
  trace (performAll (tickingEnv RequestRejected)
           [OpFetch TOKEN; OpFetch TOKEN; OpFetch TOKEN] emptyWorld).2 =
    [EvFetchTokenMetrics TOKEN;
     EvFetchTokenMetrics TOKEN;
     EvLog Warn "Failed to fetch token metrics";
     EvProviderCall 1000 TOKEN;
     EvFetchTokenMetrics TOKEN].
Proof. by vm_compute. Qed.

(** The claim as stated fails for calls that overlap: the second call starts
    while the first awaits the provider, finds no entry yet, and asks the
    provider as well, two seconds after the first request. *)
Lemma C7_counterexample :
  (fetchTokenMetrics_start (tickingEnv (reports (Some 1500000%float))) TOKEN
     emptyWorld).1 = Normal Awaiting
  ∧ trace (overlappingFetches (tickingEnv (reports (Some 1500000%float))) TOKEN
             emptyWorld).2
    = [EvProviderCall 3000 TOKEN;
       EvFetchTokenMetrics TOKEN;
       EvProviderCall 1000 TOKEN;
       EvFetchTokenMetrics TOKEN]
  ∧ calls KFetch
      (trace (overlappingFetches (tickingEnv (reports (Some 1500000%float))) TOKEN
                emptyWorld).2) = 2
  ∧ providerCallsIn TOKEN 0
      (trace (overlappingFetches (tickingEnv (reports (Some 1500000%float))) TOKEN
                emptyWorld).2) = 2.
Proof. repeat split; by vm_compute. Qed.

(** The same two calls, one after the other: one request. *)
Example consecutive_fetches_one_request :
  providerCallsIn TOKEN 0
    (trace (consecutiveFetches (tickingEnv (reports (Some 1500000%float))) TOKEN
              emptyWorld).2) = 1.
Proof. by vm_compute. Qed.

(** *** The position cache: [deleteWalletPositions] *)

Lemma elem_of_cons_ne {A} (x y : A) (l : list A) : x ≠ y → x ∈ y :: l ↔ x ∈ l.
Proof. intros Hne. rewrite elem_of_cons. tauto. Qed.

Lemma redis_get_del k k' r :
  redis_get k (redis_del k' r) = if decide (k = k') then None else redis_get k r.
Proof.
  unfold redis_get, redis_del. cbn. case_decide as H.
  - subst. apply lookup_delete_eq.
  - by apply lookup_delete_ne.
Qed.

Lemma redis_get_srem k k' m r : redis_get k (srem k' m r) = redis_get k r.
Proof. done. Qed.

Lemma smembers_del k k' r :
  smembers k (redis_del k' r) = if decide (k = k') then ∅ else smembers k r.
Proof.
  unfold smembers, redis_del. cbn. case_decide as H.
  - subst. by rewrite lookup_delete_eq.
  - by rewrite lookup_delete_ne.
Qed.

Lemma smembers_srem k k' m r :
  smembers k (srem k' m r)
  = if decide (k = k') then smembers k r ∖ {[m]} else smembers k r.
Proof.
  unfold srem. unfold smembers at 1. cbn.
  destruct (decide (k = k')) as [<-|Hk];
    destruct (decide (smembers _ r ∖ {[m]} = ∅)) as [He|He].
  - by rewrite lookup_delete_eq, He.
  - by rewrite lookup_insert_eq.
  - by rewrite lookup_delete_ne.
  - by rewrite lookup_insert_ne.
Qed.

(** [if (await client.scard(key) === 0) await client.del(key)] changes no set. *)
Lemma smembers_drop_empty k k' r :
  smembers k (if (scard k' r =? 0)%nat then redis_del k' r else r) = smembers k r.
Proof.
  destruct (Nat.eqb_spec (scard k' r) 0) as [H0|_]; [|done].
  rewrite smembers_del. case_decide as Hk; [|done]. subst k'.
  symmetry. by apply size_empty_iff, leibniz_equiv in H0.
Qed.

Lemma redis_get_drop_empty k k' r :
  k ≠ k' →
  redis_get k (if (scard k' r =? 0)%nat then redis_del k' r else r) = redis_get k r.
Proof.
  intros Hne. destruct (scard k' r =? 0)%nat; [|done].
  rewrite redis_get_del. by case_decide.
Qed.

Section PositionServiceProperties.

Variables POSITION AGENT_POSITIONS TOKEN_POSITIONS : string → string.
Variable JSON_parse : string → option PositionJson.

(** The three families of keys do not meet. *)
Hypothesis position_inj : ∀ id id', POSITION id = POSITION id' → id = id'.
Hypothesis position_not_agent : ∀ id a, POSITION id ≠ AGENT_POSITIONS a.
Hypothesis position_not_token : ∀ id t, POSITION id ≠ TOKEN_POSITIONS t.
Hypothesis token_not_agent : ∀ t a, TOKEN_POSITIONS t ≠ AGENT_POSITIONS a.

Local Abbreviation fateOf := (fateOf POSITION JSON_parse).
Local Abbreviation tokenKeyOf := (tokenKeyOf TOKEN_POSITIONS).
Local Abbreviation deletedIds := (deletedIds POSITION JSON_parse).
Local Abbreviation turn := (purgeOne POSITION TOKEN_POSITIONS JSON_parse).
Local Abbreviation unlink := (unlinkToken TOKEN_POSITIONS).
Local Abbreviation sweep :=
  (deleteWalletPositions POSITION AGENT_POSITIONS TOKEN_POSITIONS JSON_parse).

Lemma purgeOne_fate agentKey walletAddress r n positionId :
  turn agentKey walletAddress (r, n) positionId =
    match fateOf walletAddress r positionId with
    | Stale => (srem agentKey positionId r, n)
    | Kept => (r, n)
    | Purged position =>
        (unlink positionId position
           (srem agentKey positionId (redis_del (POSITION positionId) r)), S n)
    | Corrupt => (srem agentKey positionId (redis_del (POSITION positionId) r), S n)
    end.
Proof.
  unfold purgeOne, fateOf.
  destruct (redis_get _ r) as [data|]; [|done].
  destruct (truthy data); cbn; [|done].
  destruct (JSON_parse data) as [position|]; [|done].
  by destruct (bool_decide _).
Qed.

Lemma redis_get_unlinkToken id positionId position r :
  redis_get (POSITION id) (unlink positionId position r) = redis_get (POSITION id) r.
Proof.
  unfold unlinkToken.
  destruct (pj_tokenAddress position) as [ta|]; [|done].
  destruct (truthy ta); [|done].
  rewrite redis_get_drop_empty by apply position_not_token. done.
Qed.

Lemma smembers_unlinkToken k positionId position r :
  smembers k (unlink positionId position r)
  = if decide (tokenKeyOf (Purged position) = Some k)
    then smembers k r ∖ {[positionId]} else smembers k r.
Proof.
  unfold unlinkToken, tokenKeyOf.
  destruct (pj_tokenAddress position) as [ta|]; [|by case_decide].
  destruct (truthy ta); [|by case_decide].
  rewrite smembers_drop_empty, smembers_srem.
  repeat case_decide; congruence.
Qed.

(** One turn of the loop, seen through the payloads and the two indexes. *)
Lemma purgeOne_payload agentId walletAddress r n positionId id :
  redis_get (POSITION id)
    (turn (AGENT_POSITIONS agentId) walletAddress (r, n) positionId).1
  = if decide (id = positionId
               ∧ countsAsDeleted (fateOf walletAddress r positionId) = true)
    then None else redis_get (POSITION id) r.
Proof.
  rewrite purgeOne_fate.
  destruct (fateOf walletAddress r positionId) as [| |position|]; cbn.
  - case_decide; [naive_solver|done].
  - case_decide; [naive_solver|done].
  - rewrite redis_get_unlinkToken, redis_get_srem, redis_get_del.
    repeat case_decide; naive_solver.
  - rewrite redis_get_srem, redis_get_del.
    repeat case_decide; naive_solver.
Qed.

Lemma purgeOne_agent_index agentId walletAddress r n positionId :
  smembers (AGENT_POSITIONS agentId)
    (turn (AGENT_POSITIONS agentId) walletAddress (r, n) positionId).1
  = if staysIndexed (fateOf walletAddress r positionId)
    then smembers (AGENT_POSITIONS agentId) r
    else smembers (AGENT_POSITIONS agentId) r ∖ {[positionId]}.
Proof.
  rewrite purgeOne_fate.
  destruct (fateOf walletAddress r positionId) as [| |position|]; cbn.
  - rewrite smembers_srem. by rewrite decide_True.
  - done.
  - rewrite smembers_unlinkToken.
    rewrite decide_False; cycle 1.
    { unfold tokenKeyOf. destruct (pj_tokenAddress position) as [ta|]; [|done].
      destruct (truthy ta); [|done]. intros [= H]. by apply token_not_agent in H. }
    rewrite smembers_srem, decide_True, smembers_del by done.
    rewrite decide_False; [done|]. intros H. symmetry in H.
    by apply position_not_agent in H.
  - rewrite smembers_srem, decide_True, smembers_del by done.
    rewrite decide_False; [done|]. intros H. symmetry in H.
    by apply position_not_agent in H.
Qed.

Lemma purgeOne_token_index agentId walletAddress r n positionId t :
  smembers (TOKEN_POSITIONS t)
    (turn (AGENT_POSITIONS agentId) walletAddress (r, n) positionId).1
  = if decide (tokenKeyOf (fateOf walletAddress r positionId) = Some (TOKEN_POSITIONS t))
    then smembers (TOKEN_POSITIONS t) r ∖ {[positionId]}
    else smembers (TOKEN_POSITIONS t) r.
Proof.
  assert (∀ r0, smembers (TOKEN_POSITIONS t)
                  (srem (AGENT_POSITIONS agentId) positionId r0)
                = smembers (TOKEN_POSITIONS t) r0) as Hsrem.
  { intros r0. rewrite smembers_srem. rewrite decide_False; [done|].
    apply token_not_agent. }
  assert (∀ r0, smembers (TOKEN_POSITIONS t) (redis_del (POSITION positionId) r0)
                = smembers (TOKEN_POSITIONS t) r0) as Hdel.
  { intros r0. rewrite smembers_del. rewrite decide_False; [done|].
    intros H. symmetry in H. by apply position_not_token in H. }
  rewrite purgeOne_fate.
  destruct (fateOf walletAddress r positionId) as [| |position|]; cbn.
  - by rewrite Hsrem.
  - done.
  - by rewrite smembers_unlinkToken, Hsrem, Hdel.
  - by rewrite Hsrem, Hdel.
Qed.

Lemma purgeOne_count agentKey walletAddress r n positionId :
  (turn agentKey walletAddress (r, n) positionId).2
  = n + (if countsAsDeleted (fateOf walletAddress r positionId) then 1 else 0).
Proof.
  rewrite purgeOne_fate.
  destruct (fateOf walletAddress r positionId); cbn; lia.
Qed.

(** The fate of an id does not depend on the turns for the other ids. *)
Lemma fateOf_after_other agentId walletAddress r n positionId id :
  id ≠ positionId →
  fateOf walletAddress
    (turn (AGENT_POSITIONS agentId) walletAddress (r, n) positionId).1 id
  = fateOf walletAddress r id.
Proof.
  intros Hne. unfold fateOf. rewrite purgeOne_payload.
  rewrite decide_False; [done|]. naive_solver.
Qed.

Lemma deletedIds_agree walletAddress r r' ids :
  (∀ id, id ∈ ids → fateOf walletAddress r' id = fateOf walletAddress r id) →
  deletedIds walletAddress r' ids = deletedIds walletAddress r ids.
Proof.
  unfold deletedIds. induction ids as [|id ids IH]; intros H; [done|].
  rewrite !filter_cons, (H id) by left.
  rewrite IH; [done|]. intros id' Hin. apply H. by right.
Qed.

(** The loop of [deleteWalletPositions] over ids without repetition, seen
    through the payloads, the two indexes and the count. *)
Lemma sweep_spec agentId walletAddress ids :
  NoDup ids → ∀ r n,
  let res := fold_left (turn (AGENT_POSITIONS agentId) walletAddress) ids (r, n) in
  (∀ id, redis_get (POSITION id) res.1
         = if decide (id ∈ ids ∧ countsAsDeleted (fateOf walletAddress r id) = true)
           then None else redis_get (POSITION id) r)
  ∧ (∀ m, m ∈ smembers (AGENT_POSITIONS agentId) res.1
          ↔ m ∈ smembers (AGENT_POSITIONS agentId) r
            ∧ (m ∈ ids → staysIndexed (fateOf walletAddress r m) = true))
  ∧ (∀ t m, m ∈ smembers (TOKEN_POSITIONS t) res.1
            ↔ m ∈ smembers (TOKEN_POSITIONS t) r
              ∧ ¬ (m ∈ ids
                   ∧ tokenKeyOf (fateOf walletAddress r m) = Some (TOKEN_POSITIONS t)))
  ∧ res.2 = n + length (deletedIds walletAddress r ids).
Proof.
  induction 1 as [|id0 rest Hnotin Hnd IH]; intros r n; cbn zeta.
  { cbn. split; [|split; [|split]].
    - intros id. rewrite decide_False; [done|]. intros [Hin _]. inversion Hin.
    - intros m. split; [|naive_solver]. intros Hm. split; [done|]. inversion 1.
    - intros t m. split; [|naive_solver]. intros Hm. split; [done|].
      intros [Hin _]. inversion Hin.
    - lia. }
  cbn [fold_left].
  pose proof (purgeOne_payload agentId walletAddress r n id0) as Hp0.
  pose proof (purgeOne_agent_index agentId walletAddress r n id0) as Ha0.
  pose proof (purgeOne_token_index agentId walletAddress r n id0) as Ht0.
  pose proof (purgeOne_count (AGENT_POSITIONS agentId) walletAddress r n id0) as Hc0.
  pose proof (λ id, fateOf_after_other agentId walletAddress r n id0 id) as Hf0.
  destruct (turn (AGENT_POSITIONS agentId) walletAddress (r, n) id0) as [r1 n1].
  cbn [fst snd] in *.
  assert (∀ id, id ∈ rest → fateOf walletAddress r1 id = fateOf walletAddress r id)
    as Hfate.
  { intros id Hin. apply Hf0. intros ->. done. }
  destruct (IH r1 n1) as (Hp & Ha & Ht & Hc).
  clear IH Hf0.
  split; [|split; [|split]].
  - intros id. rewrite Hp, Hp0. clear Hp Ha Ht Hc Hp0 Ha0 Ht0 Hc0.
    destruct (decide (id = id0)) as [->|Hne].
    + rewrite (decide_False (P := id0 ∈ rest ∧ _)) by (by intros [? _]).
      apply decide_ext. split; intros [_ ?]; (split; [|done]); [left|done].
    + rewrite (decide_False (P := id = id0 ∧ _)) by (by intros [? _]).
      apply decide_ext. rewrite (elem_of_cons_ne _ _ _ Hne).
      split; intros [Hin HC]; (split; [done|]); by rewrite (Hfate id Hin) in *.
  - intros m. rewrite Ha, Ha0. clear Hp Ha Ht Hc Hp0 Ha0 Ht0 Hc0.
    destruct (decide (m = id0)) as [->|Hne].
    + destruct (staysIndexed (fateOf walletAddress r id0)).
      * split; intros [Hm _]; (split; [done|]); [done|]. intros Hin. by destruct Hnotin.
      * rewrite elem_of_difference, elem_of_singleton. split.
        -- intros [[_ []] _]. done.
        -- intros [_ Hk]. ospecialize* Hk; [left|done].
    + rewrite (elem_of_cons_ne _ _ _ Hne).
      assert (m ∈ (if staysIndexed (fateOf walletAddress r id0)
                   then smembers (AGENT_POSITIONS agentId) r
                   else smembers (AGENT_POSITIONS agentId) r ∖ {[id0]})
              ↔ m ∈ smembers (AGENT_POSITIONS agentId) r) as ->.
      { destruct (staysIndexed _); [done|].
        rewrite elem_of_difference, elem_of_singleton. tauto. }
      split; intros [Hm Hk]; (split; [done|]); intros Hin;
        specialize (Hk Hin); by rewrite (Hfate m Hin) in *.
  - intros t m. rewrite Ht, Ht0. clear Hp Ha Ht Hc Hp0 Ha0 Ht0 Hc0.
    destruct (decide (m = id0)) as [->|Hne].
    + case_decide as Hkey.
      * rewrite elem_of_difference, elem_of_singleton. split.
        -- intros [[_ []] _]. done.
        -- intros [_ []]. split; [left|done].
      * split; intros [Hm Hno]; (split; [done|]); intros [Hin Hk]; [done|].
        by destruct Hnotin.
    + rewrite (elem_of_cons_ne _ _ _ Hne).
      assert (m ∈ (if decide (tokenKeyOf (fateOf walletAddress r id0)
                              = Some (TOKEN_POSITIONS t))
                   then smembers (TOKEN_POSITIONS t) r ∖ {[id0]}
                   else smembers (TOKEN_POSITIONS t) r)
              ↔ m ∈ smembers (TOKEN_POSITIONS t) r) as ->.
      { case_decide; [|done].
        rewrite elem_of_difference, elem_of_singleton. tauto. }
      split; intros [Hm Hno]; (split; [done|]); intros [Hin Hk]; apply Hno;
        (split; [done|]); by rewrite (Hfate m Hin) in *.
  - rewrite Hc, Hc0, (deletedIds_agree _ _ _ _ Hfate).
    unfold deletedIds. rewrite filter_cons.
    destruct (countsAsDeleted (fateOf walletAddress r id0)).
    + rewrite decide_True by done. cbn. lia.
    + rewrite decide_False by done. lia.
Qed.

(** [deleteWalletPositions], seen through the payloads, the two indexes and
    the count it returns. *)
Lemma deleteWalletPositions_spec agentId walletAddress r :
  let index := smembers (AGENT_POSITIONS agentId) r in
  let res := sweep agentId walletAddress r in
  (∀ id, redis_get (POSITION id) res.1
         = if decide (id ∈ index ∧ countsAsDeleted (fateOf walletAddress r id) = true)
           then None else redis_get (POSITION id) r)
  ∧ (∀ m, m ∈ smembers (AGENT_POSITIONS agentId) res.1
          ↔ m ∈ index ∧ staysIndexed (fateOf walletAddress r m) = true)
  ∧ (∀ t m, m ∈ smembers (TOKEN_POSITIONS t) res.1
            ↔ m ∈ smembers (TOKEN_POSITIONS t) r
              ∧ ¬ (m ∈ index
                   ∧ tokenKeyOf (fateOf walletAddress r m) = Some (TOKEN_POSITIONS t)))
  ∧ res.2 = length (deletedIds walletAddress r (elements index)).
Proof.
  intros index res. unfold res, deleteWalletPositions. fold index.
  destruct (sweep_spec agentId walletAddress (elements index) (NoDup_elements index) r 0)
    as (Hp & Ha & Ht & Hc).
  destruct (fold_left _ (elements index) (r, 0)) as [r1 n1]. cbn [fst snd] in *.
  split; [|split; [|split]].
  - intros id. rewrite redis_get_drop_empty by apply position_not_agent.
    rewrite Hp. apply decide_ext. by rewrite elem_of_elements.
  - intros m. rewrite smembers_drop_empty, Ha, elem_of_elements.
    split; intros [Hm Hk]; (split; [done|]); auto.
  - intros t m. rewrite smembers_drop_empty, Ht. by rewrite elem_of_elements.
  - by rewrite Hc.
Qed.

End PositionServiceProperties.

(** C8. [deleteWalletPositions] on an agent index that holds a stale id (no
    payload), an id whose payload belongs to another wallet and an id whose
    payload belongs to the target wallet returns 1; it leaves the other
    wallet's payload, its agent-index entry and its token-index entries as
    they were, removes the stale id from the agent index, and deletes the
    matching payload with its entries in both indexes. *)
Theorem C8_delete_wallet_positions_scenario
    (POSITION AGENT_POSITIONS TOKEN_POSITIONS : string → string)
    (JSON_parse : string → option PositionJson)
    agentId walletAddress r stale other mine otherData otherJson mineData mineJson
    mineToken :
  (∀ id id', POSITION id = POSITION id' → id = id') →
  (∀ id a, POSITION id ≠ AGENT_POSITIONS a) →
  (∀ id t, POSITION id ≠ TOKEN_POSITIONS t) →
  (∀ t a, TOKEN_POSITIONS t ≠ AGENT_POSITIONS a) →
  stale ≠ other → stale ≠ mine → other ≠ mine →
  smembers (AGENT_POSITIONS agentId) r = {[stale; other; mine]} →
  redis_get (POSITION stale) r = None →
  redis_get (POSITION other) r = Some otherData →
  truthy otherData = true →
  JSON_parse otherData = Some otherJson →
  pj_walletAddress otherJson ≠ Some walletAddress →
  redis_get (POSITION mine) r = Some mineData →
  truthy mineData = true →
  JSON_parse mineData = Some mineJson →
  pj_walletAddress mineJson = Some walletAddress →
  pj_tokenAddress mineJson = Some mineToken →
  truthy mineToken = true →
  let res :=
    deleteWalletPositions POSITION AGENT_POSITIONS TOKEN_POSITIONS JSON_parse
      agentId walletAddress r in
  res.2 = 1
  ∧ redis_get (POSITION other) res.1 = Some otherData
  ∧ smembers (AGENT_POSITIONS agentId) res.1 = {[other]}
  ∧ (∀ t, other ∈ smembers (TOKEN_POSITIONS t) res.1
          ↔ other ∈ smembers (TOKEN_POSITIONS t) r)
  ∧ redis_get (POSITION stale) res.1 = None
  ∧ redis_get (POSITION mine) res.1 = None
  ∧ mine ∉ smembers (TOKEN_POSITIONS (toLowerCase mineToken)) res.1.
Proof.
  intros Hinj Hpa Hpt Hta Hso Hsm Hom Hindex Hstale Hother HotherT HotherJ HotherW
    Hmine HmineT HmineJ HmineW HmineTok HmineTokT res.
  destruct (deleteWalletPositions_spec POSITION AGENT_POSITIONS TOKEN_POSITIONS
              JSON_parse Hinj Hpa Hpt Hta agentId walletAddress r)
    as (Hp & Ha & Ht & Hc).
  fold res in Hp, Ha, Ht, Hc. rewrite Hindex in Hp, Ha, Ht, Hc.
  assert (fateOf POSITION JSON_parse walletAddress r stale = Stale) as Fs.
  { unfold fateOf. by rewrite Hstale. }
  assert (fateOf POSITION JSON_parse walletAddress r other = Kept) as Fo.
  { unfold fateOf. rewrite Hother, HotherT, HotherJ.
    by rewrite bool_decide_eq_false_2. }
  assert (fateOf POSITION JSON_parse walletAddress r mine = Purged mineJson) as Fm.
  { unfold fateOf. rewrite Hmine, HmineT, HmineJ.
    by rewrite bool_decide_eq_true_2. }
  split; [|split; [|split; [|split; [|split; [|split]]]]].
  - rewrite Hc.
    assert (elements ({[stale; other; mine]} : gset string) ≡ₚ [stale; other; mine])
      as Hperm.
    { apply NoDup_Permutation; [apply NoDup_elements| |].
      - repeat (apply NoDup_cons; split; [set_solver|]). apply NoDup_nil_2.
      - intros x. rewrite elem_of_elements. set_solver. }
    unfold deletedIds. rewrite Hperm.
    rewrite !filter_cons, filter_nil, Fs, Fo, Fm. cbn.
    rewrite decide_False by done. rewrite decide_False by done.
    by rewrite decide_True by done.
  - rewrite Hp, Fo. by rewrite decide_False by (by intros [_ ?]).
  - apply set_eq. intros m. rewrite Ha, elem_of_singleton. split.
    + intros [Hm Hk].
      assert (m = stale ∨ m = other ∨ m = mine) as [E|[E|E]]
        by (clear -Hm; set_solver);
        subst m; [by rewrite Fs in Hk|done|by rewrite Fm in Hk].
    + intros ->. split; [clear; set_solver|by rewrite Fo].
  - intros t. rewrite Ht, Fo. cbn. split; [by intros [? _]|].
    intros Hin. split; [done|]. by intros [_ ?].
  - rewrite Hp, Hstale. by case_decide.
  - rewrite Hp, Fm. rewrite decide_True; [done|]. split; [set_solver|done].
  - rewrite Ht, Fm. cbn. rewrite HmineTok, HmineTokT.
    intros [_ Hno]. apply Hno. split; [set_solver|done].
Qed.

Lemma positionKey_inj id id' : positionKey id = positionKey id' → id = id'.
Proof. unfold positionKey. cbn. by intros [=]. Qed.

Lemma positionKey_not_agent id a : positionKey id ≠ agentPositionsKey a.
Proof. discriminate. Qed.

Lemma positionKey_not_token id t : positionKey id ≠ tokenPositionsKey t.
Proof. discriminate. Qed.

Lemma tokenKey_not_agent t a : tokenPositionsKey t ≠ agentPositionsKey a.
Proof. discriminate. Qed.

Lemma C8_delete_wallet_positions_scenario_witness :
  let res :=
    deleteWalletPositions positionKey agentPositionsKey tokenPositionsKey parsePayload
      "agent-1" "wallet-1" threeIdsStore in
  res.2 = 1
  ∧ redis_get (positionKey "p-other") res.1 = Some "payload of wallet-2 in TokenB"
  ∧ smembers (agentPositionsKey "agent-1") res.1 = {["p-other"]}
  ∧ (∀ t, "p-other" ∈ smembers (tokenPositionsKey t) res.1
          ↔ "p-other" ∈ smembers (tokenPositionsKey t) threeIdsStore)
  ∧ redis_get (positionKey "p-stale") res.1 = None
  ∧ redis_get (positionKey "p-mine") res.1 = None
  ∧ "p-mine" ∉ smembers (tokenPositionsKey (toLowerCase "TokenA")) res.1.
Proof.
  apply (C8_delete_wallet_positions_scenario
           positionKey agentPositionsKey tokenPositionsKey parsePayload
           "agent-1" "wallet-1" threeIdsStore "p-stale" "p-other" "p-mine"
           "payload of wallet-2 in TokenB"
           {| pj_walletAddress := Some "wallet-2"; pj_tokenAddress := Some "TokenB" |}
           "payload of wallet-1 in TokenA"
           {| pj_walletAddress := Some "wallet-1"; pj_tokenAddress := Some "TokenA" |}
           "TokenA"
           positionKey_inj positionKey_not_agent positionKey_not_token
           tokenKey_not_agent);
    first [discriminate | reflexivity].
Defined.

(** The store after the sweep of the scenario: the payload and the index
    entries of the other wallet remain, the emptied token index is gone. *)
Example delete_wallet_positions_run :
  deleteWalletPositions positionKey agentPositionsKey tokenPositionsKey parsePayload
    "agent-1" "wallet-1" threeIdsStore
  = ({| stringKeys := <[positionKey "p-other" := "payload of wallet-2 in TokenB"]> ∅;
        setKeys :=
          <[agentPositionsKey "agent-1" := {["p-other"]}]>
            (<[tokenPositionsKey "tokenb" := {["p-other"]}]> ∅) |}, 1).
Proof. by vm_compute. Qed.

(** C9. In [deleteWalletPositions], for an id of the agent index whose payload
    does not parse: the turn of the loop deletes the payload key, removes the
    id from the agent index and counts it as deleted, and it leaves every set
    of the token index as it was; after the whole operation the payload is
    gone, the id is out of the agent index, it is part of the count, and it is
    still in every token set that held it. *)
Theorem C9_malformed_payload_keeps_token_index
    (POSITION AGENT_POSITIONS TOKEN_POSITIONS : string → string)
    (JSON_parse : string → option PositionJson)
    agentId walletAddress r positionId positionData :
  (∀ id id', POSITION id = POSITION id' → id = id') →
  (∀ id a, POSITION id ≠ AGENT_POSITIONS a) →
  (∀ id t, POSITION id ≠ TOKEN_POSITIONS t) →
  (∀ t a, TOKEN_POSITIONS t ≠ AGENT_POSITIONS a) →
  positionId ∈ smembers (AGENT_POSITIONS agentId) r →
  redis_get (POSITION positionId) r = Some positionData →
  truthy positionData = true →
  JSON_parse positionData = None →
  let turn n :=
    purgeOne POSITION TOKEN_POSITIONS JSON_parse (AGENT_POSITIONS agentId) walletAddress
      (r, n) positionId in
  let res :=
    deleteWalletPositions POSITION AGENT_POSITIONS TOKEN_POSITIONS JSON_parse
      agentId walletAddress r in
  (∀ n, turn n
        = (srem (AGENT_POSITIONS agentId) positionId (redis_del (POSITION positionId) r),
           S n))
  ∧ (∀ n, redis_get (POSITION positionId) (turn n).1 = None)
  ∧ (∀ n, positionId ∉ smembers (AGENT_POSITIONS agentId) (turn n).1)
  ∧ (∀ n t, setKeys (turn n).1 !! TOKEN_POSITIONS t = setKeys r !! TOKEN_POSITIONS t)
  ∧ redis_get (POSITION positionId) res.1 = None
  ∧ (positionId ∉ smembers (AGENT_POSITIONS agentId) res.1)
  ∧ (1 ≤ res.2)
  ∧ (∀ t, positionId ∈ smembers (TOKEN_POSITIONS t) res.1
          ↔ positionId ∈ smembers (TOKEN_POSITIONS t) r).
Proof.
  intros Hinj Hpa Hpt Hta Hin Hdata Htruthy Hparse turn res.
  assert (fateOf POSITION JSON_parse walletAddress r positionId = Corrupt) as Hfate.
  { unfold fateOf. by rewrite Hdata, Htruthy, Hparse. }
  assert (∀ n, turn n
               = (srem (AGENT_POSITIONS agentId) positionId
                    (redis_del (POSITION positionId) r), S n)) as Hturn.
  { intros n. unfold turn. by rewrite purgeOne_fate, Hfate. }
  destruct (deleteWalletPositions_spec POSITION AGENT_POSITIONS TOKEN_POSITIONS
              JSON_parse Hinj Hpa Hpt Hta agentId walletAddress r)
    as (Hp & Ha & Ht & Hc).
  fold res in Hp, Ha, Ht, Hc.
  split; [exact Hturn|]. split; [|split; [|split; [|split; [|split; [|split]]]]].
  - intros n. rewrite Hturn. cbn. rewrite redis_get_srem, redis_get_del.
    by rewrite decide_True.
  - intros n. rewrite Hturn. cbn. rewrite smembers_srem, decide_True by done.
    clear. set_solver.
  - intros n t. rewrite Hturn. cbn.
    assert (AGENT_POSITIONS agentId ≠ TOKEN_POSITIONS t) as Hne1 by (intros H; by eapply Hta).
    assert (POSITION positionId ≠ TOKEN_POSITIONS t) as Hne2 by apply Hpt.
    case_decide; [rewrite lookup_delete_ne by done|rewrite lookup_insert_ne by done];
      by rewrite lookup_delete_ne.
  - rewrite Hp, decide_True; [done|]. by rewrite Hfate.
  - rewrite Ha, Hfate. by intros [_ ?].
  - rewrite Hc.
    assert (positionId ∈ deletedIds POSITION JSON_parse walletAddress r
                           (elements (smembers (AGENT_POSITIONS agentId) r))) as Hcounted.
    { apply list_elem_of_filter. rewrite Hfate, elem_of_elements. done. }
    destruct (deletedIds _ _ _ _ _) as [|? ?]; [inversion Hcounted|cbn; lia].
  - intros t. rewrite Ht, Hfate. cbn. split; [by intros [? _]|].
    intros Ht0. split; [done|]. by intros [_ ?].
Qed.

Lemma C9_malformed_payload_keeps_token_index_witness :
  let turn n :=
    purgeOne positionKey tokenPositionsKey parsePayload (agentPositionsKey "agent-1")
      "wallet-1" (corruptStore, n) "p-bad" in
  let res :=
    deleteWalletPositions positionKey agentPositionsKey tokenPositionsKey parsePayload
      "agent-1" "wallet-1" corruptStore in
  (∀ n, turn n
        = (srem (agentPositionsKey "agent-1") "p-bad"
             (redis_del (positionKey "p-bad") corruptStore), S n))
  ∧ (∀ n, redis_get (positionKey "p-bad") (turn n).1 = None)
  ∧ (∀ n, "p-bad" ∉ smembers (agentPositionsKey "agent-1") (turn n).1)
  ∧ (∀ n t, setKeys (turn n).1 !! tokenPositionsKey t
            = setKeys corruptStore !! tokenPositionsKey t)
  ∧ redis_get (positionKey "p-bad") res.1 = None
  ∧ ("p-bad" ∉ smembers (agentPositionsKey "agent-1") res.1)
  ∧ (1 ≤ res.2)
  ∧ (∀ t, "p-bad" ∈ smembers (tokenPositionsKey t) res.1
          ↔ "p-bad" ∈ smembers (tokenPositionsKey t) corruptStore).
Proof.
  apply (C9_malformed_payload_keeps_token_index
           positionKey agentPositionsKey tokenPositionsKey parsePayload
           "agent-1" "wallet-1" corruptStore "p-bad" "{not json"
           positionKey_inj positionKey_not_agent positionKey_not_token
           tokenKey_not_agent).
  - vm_compute. reflexivity.
  - reflexivity.
  - reflexivity.
  - reflexivity.
Defined.

(** The store after the sweep: the payload and the agent index are gone, the
    token index still names the deleted position. *)
Example delete_corrupt_payload_run :
  deleteWalletPositions positionKey agentPositionsKey tokenPositionsKey parsePayload
    "agent-1" "wallet-1" corruptStore
  = ({| stringKeys := ∅;
        setKeys := <[tokenPositionsKey "tokena" := {["p-bad"]}]> ∅ |}, 1).
Proof. by vm_compute. Qed.

(** *** Further properties of the metrics cache *)

Lemma noFreshEntry_unexpired t tokenAddress w :
  noFreshEntry t tokenAddress w → unexpired t (metricsCache w !! tokenAddress) = None.
Proof.
  intros H. destruct (metricsCache w !! tokenAddress) as [c|] eqn:E; [|done]. cbn.
  specialize (H c E). destruct (Z.ltb_spec t (expiresAt c)); [lia|done].
Qed.


(** X1. Without an API key (the variable unset or empty) a call of
    [fetchTokenMetrics] that finds no valid entry returns [null] after one
    warning: nothing is asked of the provider and nothing is cached, so the
    next call does the same. *)
Theorem fetch_without_api_key env tokenAddress w :
  JUPITER_API_KEY env = None ∨ JUPITER_API_KEY env = Some "" →
  noFreshEntry (Date_now env (EvFetchTokenMetrics tokenAddress :: trace w)) tokenAddress w →
  fetchTokenMetrics env tokenAddress w
  = (Normal None,
     {| metricsCache := metricsCache w;
        trace := EvLog Warn "JUPITER_API_KEY not set; skipping token metrics fetch"
                   :: EvFetchTokenMetrics tokenAddress :: trace w |}).
Proof.
  intros Hkey Hmiss. apply noFreshEntry_unexpired in Hmiss.
  unfold fetchTokenMetrics, fetchTokenMetrics_start, fetchTokenMetrics_resume. run.
  rewrite Hmiss.
  assert (apiKeyMissing env = true) as ->.
  { unfold apiKeyMissing. by destruct Hkey as [->| ->]. }
  reflexivity.
Qed.

Lemma fetch_without_api_key_witness :
  fetchTokenMetrics offlineEnv TOKEN emptyWorld
  = (Normal None,
     {| metricsCache := ∅;
        trace := [EvLog Warn "JUPITER_API_KEY not set; skipping token metrics fetch";
                  EvFetchTokenMetrics TOKEN] |}).
Proof.
  apply (fetch_without_api_key offlineEnv TOKEN emptyWorld).
  - by left.
  - intros cached Hc. vm_compute in Hc. discriminate Hc.
Defined.



(** On the run of the witness the failure is cached until 33 s: the request
    was issued at 1 s and settled at 3 s. *)
Example fetch_failure_cached_until :
  expiresAt <$> (metricsCache (fetchTokenMetrics (tickingEnv RequestRejected) TOKEN
                                 emptyWorld).2 !! TOKEN)
  = Some 33000%Z.
Proof. by vm_compute. Qed.

(** *** Further properties of the guard *)


(** What a call of [fetchTokenMetrics] adds to the trace past its own entry. *)
Lemma fetch_events env tokenAddress w :
  ∃ later,
    trace (fetchTokenMetrics env tokenAddress w).2
      = later ++ EvFetchTokenMetrics tokenAddress :: trace w
    ∧ Forall (fetchEventFor tokenAddress) later
    ∧ calls KFetch later = 0
    ∧ calls KProvider later ≤ 1.
Proof.
  unfold fetchTokenMetrics, fetchTokenMetrics_start, fetchTokenMetrics_resume. run.
  destruct (unexpired _ _); run.
  { exists []. split; [done|]. split; [apply Forall_nil_2|]. split; [done|vm_compute; lia]. }
  destruct (apiKeyMissing env); run.
  { eexists [_]. split; [reflexivity|]. split; [|split; [reflexivity|vm_compute; lia]].
    apply Forall_cons_2; [by right; right|apply Forall_nil_2]. }
  unfold fetchTokenMetrics_settle, cacheResult, now, getCache, setCache.
  destruct (jupiterSearch env _ _) as [|? [?|]| |[|[|first rest]]]; run;
    first [ eexists [_; _]; (split; [reflexivity|]);
            split; [|split; [reflexivity|vm_compute; lia]];
            apply Forall_cons_2; [by right; right|];
            apply Forall_cons_2; [right; left; by eexists|apply Forall_nil_2]
          | eexists [_]; (split; [reflexivity|]);
            split; [|split; [reflexivity|vm_compute; lia]];
            apply Forall_cons_2; [right; left; by eexists|apply Forall_nil_2] ].
Qed.

(** X4. The guard has no effect but its metrics fetch: past its own entry, the
    trace gains at most one call of [fetchTokenMetrics] and at most one
    provider request, both for the token asked about, and log lines; the
    guard does not call itself again. *)
Theorem guard_effects env tokenAddress tokenBounds w :
  ∃ later,
    trace (evaluateAutoTradeMarketCapGuard env tokenAddress tokenBounds w).2
      = later ++ EvEvaluateGuard tokenAddress :: trace w
    ∧ Forall (fetchEventFor tokenAddress) later
    ∧ calls KFetch later ≤ 1
    ∧ calls KProvider later ≤ 1
    ∧ calls KGuard later = 0.
Proof.
  destruct (hasAutoTradeMarketCapBounds tokenBounds) eqn:Hb.
  - destruct (fetchTokenMetrics_returns env tokenAddress (guardEntered tokenAddress w))
      as (fetched & w' & Hf).
    rewrite (guard_with_bounds _ _ _ _ _ _ Hb Hf). cbn [snd].
    destruct (fetch_events env tokenAddress (guardEntered tokenAddress w))
      as (later & Ht & Hall & Hfetch & Hprov).
    rewrite Hf in Ht. cbn [snd] in Ht.
    exists (later ++ [EvFetchTokenMetrics tokenAddress]).
    split; [by rewrite Ht, <- app_assoc|].
    split; [apply Forall_app; split; [done|apply Forall_cons_2; [by left|apply Forall_nil_2]]|].
    assert (calls KFetch [EvFetchTokenMetrics tokenAddress] = 1) as E1 by reflexivity.
    assert (calls KProvider [EvFetchTokenMetrics tokenAddress] = 0) as E2 by reflexivity.
    assert (calls KGuard [EvFetchTokenMetrics tokenAddress] = 0) as E3 by reflexivity.
    rewrite !calls_app, E1, E2, E3. split; [lia|]. split; [lia|].
    assert (calls KGuard later = 0) as ->; [|done].
    clear -Hall. induction Hall as [|e l He _ IH]; [done|].
    unfold calls in *. cbn. destruct He as [->|[[t ->]|He]]; cbn; try done.
    rewrite bool_decide_eq_false_2 by congruence. done.
  - rewrite (guard_no_bounds _ _ _ _ Hb). cbn. exists [].
    split; [done|]. split; [apply Forall_nil_2|]. cbn. split; [lia|]. split; [lia|done].
Qed.

(** The scenario of the range check, with its effects: one fetch, one request. *)
Example guard_effects_in_range :
  trace (evaluateAutoTradeMarketCapGuard (envWithMcap (Some 1500000%float)) TOKEN
           (Some bounds_200k_5m) emptyWorld).2
  = [EvProviderCall 0 TOKEN; EvFetchTokenMetrics TOKEN; EvEvaluateGuard TOKEN].
Proof. by vm_compute. Qed.

(** *** Further properties of the re-entry handler *)

Lemma bind_external_cases {A B} e (reply : list Event → Completion A) (k : A → M B) w :
  (external e reply ≫= k) w =
    match reply (e :: trace w) with
    | Normal a => k a (pushed e w)
    | Thrown x => (Thrown x, pushed e w)
    end.
Proof. unfold mbind, M_bind, external, pushed. cbn. by destruct (reply _). Qed.

Lemma adds_push ok e w w' :
  ok (kindOf e) = true → adds ok (pushed e w) w' → adds ok w w'.
Proof. intros He H. etrans; [by apply adds_event|done]. Qed.

Lemma guard_adds env tokenAddress tokenBounds w :
  adds (allBut KPurchase) w (evaluateAutoTradeMarketCapGuard env tokenAddress tokenBounds w).2.
Proof.
  exact (steps_guard (adds (allBut KPurchase)) (allBut KPurchase) (adds_event _) env
           (λ tok, fetch_adds (allBut KPurchase) env tok eq_refl)
           tokenAddress tokenBounds eq_refl w).
Qed.

Lemma signal_adds env agentId tokenAddress tokenSymbol w :
  adds (allBut KPurchase) w (createAutoTradeSignal env agentId tokenAddress tokenSymbol w).2.
Proof.
  exact (steps_createAutoTradeSignal (adds (allBut KPurchase)) (allBut KPurchase)
           (adds_event _) env agentId tokenAddress tokenSymbol eq_refl w).
Qed.

(** The re-entry from the gate's answer on: either it buys nothing, or the
    gate was granted, auto-trade is on, the token is enabled, the guard
    allowed, and there is one purchase. *)
Lemma reentryAfterGate_outcome env event canProceed w c w' :
  let loaded := pushed (EvLoadAgentConfig (pc_agentId event)) w in
  reentryAfterGate env event canProceed w = (c, w') →
  adds (allBut KPurchase) w w'
  ∨ (canProceed = true
     ∧ ∃ config tokenConfig g w2 signalId mid tail,
         loadAgentConfig_reply env (trace loaded) (pc_agentId event) = Normal config
         ∧ autoTradeOn config = true
         ∧ reentryToken event config = Some tokenConfig
         ∧ evaluateAutoTradeMarketCapGuard env (pc_tokenAddress event)
             (Some (boundsOf tokenConfig)) loaded = (Normal g, w2)
         ∧ allowed g = true
         ∧ trace w'
           = tail ++ EvExecutePurchase (reentryRequest event tokenConfig signalId)
               :: mid ++ trace w
         ∧ Forall (λ e, allBut KPurchase (kindOf e) = true) mid
         ∧ Forall (λ e, allBut KPurchase (kindOf e) = true) tail).
Proof.
  intros loaded Hrun. unfold reentryAfterGate in Hrun.
  destruct canProceed; cbn [negb] in Hrun.
  2:{ left. injection Hrun as <- <-. by apply adds_event. }
  unfold loadAgentConfig in Hrun. rewrite bind_external_cases in Hrun. fold loaded in Hrun.
  destruct (loadAgentConfig_reply env _ _) as [config|x] eqn:Hload.
  2:{ left. injection Hrun as <- <-. by apply adds_event. }
  destruct (autoTradeOn config) eqn:Hon; cbn [negb] in Hrun.
  2:{ left. injection Hrun as <- <-. by apply adds_event. }
  fold (reentryToken event config) in Hrun.
  destruct (reentryToken event config) as [tokenConfig|] eqn:Hfind.
  2:{ left. injection Hrun as <- <-. by apply adds_event. }
  unfold mbind at 1, M_bind at 1 in Hrun.
  pose proof (guard_adds env (pc_tokenAddress event) (Some (boundsOf tokenConfig)) loaded)
    as Hguard.
  destruct (evaluateAutoTradeMarketCapGuard env _ _ loaded) as [[g|x] w2] eqn:Eg;
    cbn [snd] in Hguard.
  2:{ left. injection Hrun as <- <-.
      by apply (adds_push _ (EvLoadAgentConfig (pc_agentId event))). }
  destruct (allowed g) eqn:Hallowed; cbn [negb] in Hrun.
  2:{ left. injection Hrun as <- <-.
      apply (adds_push _ (EvLoadAgentConfig (pc_agentId event))); [done|].
      etrans; [exact Hguard|]. by apply adds_event. }
  unfold mbind at 1, M_bind at 1 in Hrun.
  pose proof (signal_adds env (pc_agentId event) (pc_tokenAddress event)
                (trimmedOr (pc_tokenSymbol event) (trimmedOr (symbol tokenConfig) None)) w2)
    as Hsignal.
  destruct (createAutoTradeSignal env _ _ _ w2) as [[signalId|x] w3]; cbn [snd] in Hsignal.
  2:{ left. injection Hrun as <- <-.
      apply (adds_push _ (EvLoadAgentConfig (pc_agentId event))); [done|].
      by etrans. }
  right. split; [done|].
  destruct Hguard as (l2 & Hl2 & Hf2). destruct Hsignal as (l3 & Hl3 & Hf3).
  exists config, tokenConfig, g, w2, signalId.
  exists (EvLog Info "Auto-trade re-entry: executing direct purchase"
            :: l3 ++ l2 ++ [EvLoadAgentConfig (pc_agentId event)]).
  assert (Forall (λ e, allBut KPurchase (kindOf e) = true)
            (EvLog Info "Auto-trade re-entry: executing direct purchase"
               :: l3 ++ l2 ++ [EvLoadAgentConfig (pc_agentId event)])) as Hmid.
  { apply Forall_cons_2; [done|]. apply Forall_app; split; [done|].
    apply Forall_app; split; [done|]. apply Forall_cons_2; [done|apply Forall_nil_2]. }
  unfold executePurchase, logger, emit, external, mbind, M_bind in Hrun. cbn in Hrun.
  destruct (executePurchase_reply env _ _) as [result|x]; cbn in Hrun;
    injection Hrun as <- <-.
  - exists [EvLog Info "Auto-trade re-entry purchase executed"].
    repeat (split; [done|]). split; [|split; [done|]].
    + cbn. rewrite Hl3, Hl2. cbn. by rewrite <- !app_assoc.
    + apply Forall_cons_2; [done|apply Forall_nil_2].
  - exists [].
    repeat (split; [done|]). split; [|split; [done|apply Forall_nil_2]].
    cbn. rewrite Hl3, Hl2. cbn. by rewrite <- !app_assoc.
Qed.

Lemma reentryOnError_adds error w :
  adds (allBut KPurchase) w (reentryOnError error w).2.
Proof.
  exact (steps_reentryOnError (adds (allBut KPurchase)) (allBut KPurchase)
           (adds_event _) error eq_refl w).
Qed.

(** One close event: either the handler buys nothing, or the event is not a
    wallet reset, the gate was granted, auto-trade is on, the token is
    enabled, the guard allowed, and there is one purchase. *)
Lemma handlePositionClosed_outcome env event w :
  let gate := pushed (EvCheckAndSet (reentryKey event) (REDIS_TTL_IDEMPOTENCY env)) w in
  let loaded := pushed (EvLoadAgentConfig (pc_agentId event)) gate in
  let w' := (handlePositionClosed env event w).2 in
  adds (allBut KPurchase) w w'
  ∨ (pc_source event ≠ Some "wallet_reset"
     ∧ checkAndSet_reply env (trace gate) (reentryKey event) (REDIS_TTL_IDEMPOTENCY env)
       = Normal true
     ∧ ∃ config tokenConfig g w2 signalId mid tail,
         loadAgentConfig_reply env (trace loaded) (pc_agentId event) = Normal config
         ∧ autoTradeOn config = true
         ∧ reentryToken event config = Some tokenConfig
         ∧ evaluateAutoTradeMarketCapGuard env (pc_tokenAddress event)
             (Some (boundsOf tokenConfig)) loaded = (Normal g, w2)
         ∧ allowed g = true
         ∧ trace w'
           = tail ++ EvExecutePurchase (reentryRequest event tokenConfig signalId)
               :: mid ++ trace w
         ∧ Forall (λ e, allBut KPurchase (kindOf e) = true) mid
         ∧ Forall (λ e, allBut KPurchase (kindOf e) = true) tail).
Proof.
  intros gate loaded w'. unfold w', handlePositionClosed.
  case_bool_decide as Hsrc.
  { left. by apply adds_event. }
  unfold checkAndSet. rewrite tryCatch_external. fold gate.
  destruct (checkAndSet_reply env _ _ _) as [canProceed|x] eqn:Hgate.
  2:{ left. apply (adds_push _ (EvCheckAndSet (reentryKey event) (REDIS_TTL_IDEMPOTENCY env)));
        [done|]. apply reentryOnError_adds. }
  unfold tryCatch.
  destruct (reentryAfterGate env event canProceed gate) as [c w1] eqn:Hrun.
  assert (adds (allBut KPurchase) w1
            match c with
            | Normal a => (Normal a, w1)
            | Thrown e => reentryOnError e w1
            end.2) as (l1 & Hl1 & Hf1).
  { destruct c; [done|]. apply reentryOnError_adds. }
  destruct (reentryAfterGate_outcome env event canProceed gate c w1 Hrun)
    as [Hno|(-> & config & tokenConfig & g & w2 & signalId & mid & tail
             & Hload & Hon & Hfind & Hguard & Hallowed & Htrace & Hmid & Htail)].
  - left. apply (adds_push _ (EvCheckAndSet (reentryKey event) (REDIS_TTL_IDEMPOTENCY env)));
      [done|]. etrans; [exact Hno|]. by exists l1.
  - right. split; [done|]. split; [done|].
    exists config, tokenConfig, g, w2, signalId,
      (mid ++ [EvCheckAndSet (reentryKey event) (REDIS_TTL_IDEMPOTENCY env)]), (l1 ++ tail).
    repeat (split; [done|]). split; [|split].
    + rewrite Hl1, Htrace. cbn. by rewrite <- !app_assoc.
    + apply Forall_app; split; [done|]. apply Forall_cons_2; [done|apply Forall_nil_2].
    + by apply Forall_app.
Qed.

Lemma calls_purchase_one request : calls KPurchase [EvExecutePurchase request] = 1.
Proof. reflexivity. Qed.

(** X5. [handlePositionClosed] never rejects, whatever its collaborators do,
    and one close event leads to one [executePurchase] call at most. *)
Theorem reentry_buys_at_most_once env event w :
  ∃ later w',
    handlePositionClosed env event w = (Normal tt, w')
    ∧ trace w' = later ++ trace w
    ∧ calls KPurchase later ≤ 1.
Proof.
  pose proof (handlePositionClosed_returns env event w) as Hret.
  pose proof (handlePositionClosed_outcome env event w) as Hout. cbn zeta in Hout.
  destruct (handlePositionClosed env event w) as [c w'] eqn:E. cbn [fst snd] in *. subst c.
  destruct Hout as [(later & Hl & Hf)
                   |(_ & _ & config & tokenConfig & g & w2 & signalId & mid & tail
                     & _ & _ & _ & _ & _ & Htrace & Hmid & Htail)].
  - exists later, w'. split; [done|]. split; [done|].
    rewrite (calls_none (allBut KPurchase)); [lia|done|done].
  - exists (tail ++ EvExecutePurchase (reentryRequest event tokenConfig signalId) :: mid), w'.
    split; [done|]. split; [by rewrite Htrace, <- app_assoc|].
    change (EvExecutePurchase (reentryRequest event tokenConfig signalId) :: mid)
      with ([EvExecutePurchase (reentryRequest event tokenConfig signalId)] ++ mid).
    rewrite !calls_app, calls_purchase_one.
    rewrite !(calls_none (allBut KPurchase)); [lia|done..].
Qed.

Lemma not_purchase_in ok request l :
  ok KPurchase = false →
  Forall (λ e, ok (kindOf e) = true) l → EvExecutePurchase request ∉ l.
Proof.
  intros Hk Hall Hin. rewrite Forall_forall in Hall. specialize (Hall _ Hin).
  cbn in Hall. congruence.
Qed.

(** X6. Whenever [handlePositionClosed] buys, the event was not a wallet reset, the gate
    had answered [true], auto-trade was on, the closed token was an enabled
    token of the configuration (compared trimmed and without case), and the
    market-cap guard, evaluated on that token's bounds, had allowed it.  The
    purchase is for the agent and for the token address as the event has it. *)
Theorem reentry_purchase_requires_allowed env event w later request :
  let gate := pushed (EvCheckAndSet (reentryKey event) (REDIS_TTL_IDEMPOTENCY env)) w in
  let loaded := pushed (EvLoadAgentConfig (pc_agentId event)) gate in
  trace (handlePositionClosed env event w).2 = later ++ trace w →
  EvExecutePurchase request ∈ later →
  pc_source event ≠ Some "wallet_reset"
  ∧ checkAndSet_reply env (trace gate) (reentryKey event) (REDIS_TTL_IDEMPOTENCY env)
    = Normal true
  ∧ ∃ config tokenConfig g w2 signalId,
      loadAgentConfig_reply env (trace loaded) (pc_agentId event) = Normal config
      ∧ autoTradeOn config = true
      ∧ tokenConfig ∈ autoTradeTokens config
      ∧ enabled tokenConfig = true
      ∧ normalizeToken (address tokenConfig) = normalizeToken (pc_tokenAddress event)
      ∧ evaluateAutoTradeMarketCapGuard env (pc_tokenAddress event)
          (Some (boundsOf tokenConfig)) loaded = (Normal g, w2)
      ∧ allowed g = true
      ∧ request = reentryRequest event tokenConfig signalId.
Proof.
  intros gate loaded Hlater Hin.
  destruct (handlePositionClosed_outcome env event w)
    as [(l & Hl & Hf)
       |(Hsrc & Hgate & config & tokenConfig & g & w2 & signalId & mid & tail
         & Hload & Hon & Hfind & Hguard & Hallowed & Htrace & Hmid & Htail)].
  { rewrite Hlater in Hl. apply app_inv_tail in Hl. subst l.
    by destruct (not_purchase_in (allBut KPurchase) request later). }
  split; [done|]. split; [done|].
  exists config, tokenConfig, g, w2, signalId.
  apply List.find_some in Hfind as [Htok [Hen Heq%String.eqb_eq]%andb_true_iff].
  apply list_elem_of_In in Htok.
  repeat (split; [done|]).
  rewrite Hlater in Htrace.
  change (tail ++ EvExecutePurchase (reentryRequest event tokenConfig signalId)
            :: mid ++ trace w)
    with (tail ++ [EvExecutePurchase (reentryRequest event tokenConfig signalId)]
            ++ mid ++ trace w) in Htrace.
  rewrite !app_assoc in Htrace. apply app_inv_tail in Htrace. subst later.
  apply elem_of_app in Hin as [Hin|Hin].
  2:{ by destruct (not_purchase_in (allBut KPurchase) request mid). }
  apply elem_of_app in Hin as [Hin|Hin].
  { by destruct (not_purchase_in (allBut KPurchase) request tail). }
  apply list_elem_of_singleton in Hin. by injection Hin.
Qed.

Lemma reentry_purchase_requires_allowed_witness :
  let event := closeEvent (Some "trading") in
  let gate :=
    pushed (EvCheckAndSet (reentryKey event) (REDIS_TTL_IDEMPOTENCY reentryEnv))
      emptyWorld in
  let loaded := pushed (EvLoadAgentConfig (pc_agentId event)) gate in
  pc_source event ≠ Some "wallet_reset"
  ∧ checkAndSet_reply reentryEnv (trace gate) (reentryKey event)
      (REDIS_TTL_IDEMPOTENCY reentryEnv) = Normal true
  ∧ ∃ config tokenConfig g w2 signalId,
      loadAgentConfig_reply reentryEnv (trace loaded) (pc_agentId event) = Normal config
      ∧ autoTradeOn config = true
      ∧ tokenConfig ∈ autoTradeTokens config
      ∧ enabled tokenConfig = true
      ∧ normalizeToken (address tokenConfig) = normalizeToken (pc_tokenAddress event)
      ∧ evaluateAutoTradeMarketCapGuard reentryEnv (pc_tokenAddress event)
          (Some (boundsOf tokenConfig)) loaded = (Normal g, w2)
      ∧ allowed g = true
      ∧ {| pr_agentId := "agent-1";
           pr_walletAddress := None;
           pr_tokenAddress := TOKEN;
           pr_tokenSymbol := Some "TKN";
           pr_signalId := Some 1%Z |} = reentryRequest event tokenConfig signalId.
Proof.
  apply (reentry_purchase_requires_allowed reentryEnv (closeEvent (Some "trading"))
           emptyWorld
           (trace (handlePositionClosed reentryEnv (closeEvent (Some "trading"))
                     emptyWorld).2)).
  - by rewrite app_nil_r.
  - vm_compute. apply list_elem_of_further, list_elem_of_here.
Defined.

(** The run of the witness: gate, configuration, guard with its fetch, signal,
    purchase. *)
Example reentry_run :
  map kindOf
    (trace (handlePositionClosed reentryEnv (closeEvent (Some "trading")) emptyWorld).2)
  = [KLog; KPurchase; KLog; KCreateSignal; KFindAgent; KProvider; KFetch; KGuard;
     KLoadConfig; KGate].
Proof. by vm_compute. Qed.

(** *** The signal helpers and the purchase of a re-entry *)

Lemma createAutoTradeSignal_normal env agentId tokenAddress tokenSymbol w :
  ∃ r w', createAutoTradeSignal env agentId tokenAddress tokenSymbol w = (Normal r, w').
Proof.
  unfold createAutoTradeSignal, findAgent. rewrite tryCatch_external.
  destruct (findAgent_reply env _ _ _) as [[owner|]|x]; [| |by eexists _, _].
  - unfold createSignal. rewrite tryCatch_external.
    destruct (createSignal_reply env _ _) as [id|x]; by eexists _, _.
  - by eexists _, _.
Qed.

Lemma surjective_pairing_normal {A} (p : Completion A * World) a :
  p.1 = Normal a → p = (Normal a, p.2).
Proof. destruct p as [c w]. cbn. by intros ->. Qed.

(** X28. The two signal helpers never reject: a failure of the database is
    logged and gives [null].  When [createAutoTradeSignal] gives an id, the
    agent was found and the id is the one of the signal created for the
    agent's owner and the trimmed token address; when
    [createImmediateAutoTradeSignal] gives one, it is the id of the signal
    created for the given user. *)
Theorem signal_helpers_never_reject env agentId userId tokenAddress tokenSymbol w :
  (∃ r w',
     createAutoTradeSignal env agentId tokenAddress tokenSymbol w = (Normal r, w')
     ∧ ∀ id, r = Some id →
         ∃ owner data,
           findAgent_reply env (EvFindAgent agentId None :: trace w) agentId None
             = Normal (Some owner)
           ∧ trace w' = EvCreateSignal data :: EvFindAgent agentId None :: trace w
           ∧ sd_userId data = owner
           ∧ sd_tokenAddress data = trim tokenAddress
           ∧ createSignal_reply env (trace w') data = Normal id)
  ∧ (∃ r w',
       createImmediateAutoTradeSignal env userId tokenAddress tokenSymbol w = (Normal r, w')
       ∧ ∀ id, r = Some id →
           ∃ data,
             trace w' = EvCreateSignal data :: trace w
             ∧ sd_userId data = userId
             ∧ sd_tokenAddress data = trim tokenAddress
             ∧ createSignal_reply env (trace w') data = Normal id).
Proof.
  split.
  - unfold createAutoTradeSignal, findAgent. rewrite tryCatch_external.
    destruct (findAgent_reply env _ _ _) as [[owner|]|x] eqn:Hfind.
    + unfold createSignal. rewrite tryCatch_external.
      destruct (createSignal_reply env _ _) as [id|x] eqn:Hcreate.
      * eexists _, _. split; [done|]. intros ? [= <-].
        eexists owner, _. split; [done|]. split; [done|]. by cbn.
      * eexists _, _. split; [done|]. intros ? [=].
    + eexists _, _. split; [done|]. intros ? [=].
    + eexists _, _. split; [done|]. intros ? [=].
  - unfold createImmediateAutoTradeSignal, createSignal. rewrite tryCatch_external.
    destruct (createSignal_reply env _ _) as [id|x] eqn:Hcreate.
    + eexists _, _. split; [done|]. intros ? [= <-].
      eexists _. split; [done|]. by cbn.
    + eexists _, _. split; [done|]. intros ? [=].
Qed.

(** X29. When the event is not a wallet reset, the gate answers [true],
    auto-trade is on, the closed token is an enabled token of the
    configuration and the guard allows it, [handlePositionClosed] does buy:
    after the guard it looks for the signal, then calls [executePurchase]
    once, for the token address as the event has it, and it returns normally
    whether the purchase succeeds or not. *)
Theorem reentry_buys_when_allowed env event w config tokenConfig g w2 :
  let gate := pushed (EvCheckAndSet (reentryKey event) (REDIS_TTL_IDEMPOTENCY env)) w in
  let loaded := pushed (EvLoadAgentConfig (pc_agentId event)) gate in
  pc_source event ≠ Some "wallet_reset" →
  checkAndSet_reply env (trace gate) (reentryKey event) (REDIS_TTL_IDEMPOTENCY env)
    = Normal true →
  loadAgentConfig_reply env (trace loaded) (pc_agentId event) = Normal config →
  autoTradeOn config = true →
  reentryToken event config = Some tokenConfig →
  evaluateAutoTradeMarketCapGuard env (pc_tokenAddress event)
    (Some (boundsOf tokenConfig)) loaded = (Normal g, w2) →
  allowed g = true →
  ∃ signalId mid tail w',
    handlePositionClosed env event w = (Normal tt, w')
    ∧ trace w'
      = tail ++ EvExecutePurchase (reentryRequest event tokenConfig signalId)
          :: mid ++ trace w2
    ∧ calls KPurchase mid = 0
    ∧ calls KPurchase tail = 0
    ∧ calls KGuard mid = 0.
Proof.
  intros gate loaded Hsrc Hgate Hload Hon Hfind Hguard Hallowed.
  pose proof (handlePositionClosed_returns env event w) as Hret.
  unfold handlePositionClosed in Hret |- *.
  rewrite bool_decide_eq_false_2 in Hret |- * by done.
  unfold checkAndSet in Hret |- *.
  rewrite (tryCatch_external_normal _ _ _ _ _ _ Hgate) in Hret |- *.
  fold gate in Hret |- *. unfold tryCatch in Hret |- *.
  assert (∃ signalId mid tail c w1,
            reentryAfterGate env event true gate = (c, w1)
            ∧ trace w1 = tail ++ EvExecutePurchase (reentryRequest event tokenConfig signalId)
                           :: mid ++ trace w2
            ∧ calls KPurchase mid = 0 ∧ calls KPurchase tail = 0 ∧ calls KGuard mid = 0)
    as (signalId & mid & tail & c & w1 & Hrun & Htrace & Hmid & Htail & Hmg).
  { unfold reentryAfterGate. cbn [negb].
    unfold loadAgentConfig. rewrite bind_external_cases. cbv beta.
    change (EvLoadAgentConfig (pc_agentId event) :: trace gate) with (trace loaded).
    rewrite Hload. fold loaded. rewrite Hon.
    cbn [negb]. fold (reentryToken event config). rewrite Hfind.
    unfold mbind at 1, M_bind at 1. rewrite Hguard, Hallowed. cbn [negb].
    unfold mbind at 1, M_bind at 1.
    pose proof (steps_createAutoTradeSignal
                  (adds (λ k, allBut KPurchase k && allBut KGuard k))
                  (λ k, allBut KPurchase k && allBut KGuard k) (adds_event _) env
                  (pc_agentId event) (pc_tokenAddress event)
                  (trimmedOr (pc_tokenSymbol event) (trimmedOr (symbol tokenConfig) None))
                  eq_refl w2) as (l3 & Hl3 & Hf3).
    destruct (createAutoTradeSignal_normal env (pc_agentId event) (pc_tokenAddress event)
                (trimmedOr (pc_tokenSymbol event) (trimmedOr (symbol tokenConfig) None)) w2)
      as (signalId & w3 & Hsig).
    rewrite Hsig in *. cbn [snd] in Hl3.
    exists signalId, (EvLog Info "Auto-trade re-entry: executing direct purchase" :: l3).
    assert (calls KPurchase l3 = 0) as Hp3.
    { apply (calls_none (λ k, allBut KPurchase k && allBut KGuard k)); done. }
    assert (calls KGuard l3 = 0) as Hg3.
    { apply (calls_none (λ k, allBut KPurchase k && allBut KGuard k)); done. }
    unfold executePurchase, logger, emit, external, mbind, M_bind. cbn.
    destruct (executePurchase_reply env _ _) as [result|x]; cbn.
    - exists [EvLog Info "Auto-trade re-entry purchase executed"]. eexists _, _.
      split; [done|]. cbn. rewrite Hl3. done.
    - exists []. eexists _, _. split; [done|]. cbn. rewrite Hl3. done. }
  rewrite Hrun in Hret |- *. destruct c as [[]|x].
  - exists signalId, mid, tail, w1. done.
  - pose proof (steps_reentryOnError (adds (allBut KPurchase)) (allBut KPurchase)
                  (adds_event _) x eq_refl w1) as (l1 & Hl1 & Hf1).
    destruct (reentryOnError x w1) as [c' w'] eqn:Herr. cbn [fst snd] in *. subst c'.
    exists signalId, mid, (l1 ++ tail), w'. split; [done|].
    split; [by rewrite Hl1, Htrace, <- app_assoc|]. split; [done|]. split; [|done].
    rewrite calls_app, Htail. rewrite (calls_none (allBut KPurchase)); done.
Qed.

Lemma reentry_buys_when_allowed_witness :
  let event := closeEvent (Some "trading") in
  let gate :=
    pushed (EvCheckAndSet (reentryKey event) (REDIS_TTL_IDEMPOTENCY reentryEnv))
      emptyWorld in
  let loaded := pushed (EvLoadAgentConfig (pc_agentId event)) gate in
  let guarded :=
    evaluateAutoTradeMarketCapGuard reentryEnv TOKEN (Some (boundsOf tokenConfig)) loaded in
  ∃ signalId mid tail w',
    handlePositionClosed reentryEnv event emptyWorld = (Normal tt, w')
    ∧ trace w'
      = tail ++ EvExecutePurchase (reentryRequest event tokenConfig signalId)
          :: mid ++ trace guarded.2
    ∧ calls KPurchase mid = 0
    ∧ calls KPurchase tail = 0
    ∧ calls KGuard mid = 0.
Proof.
  intros event gate loaded guarded.
  eapply (reentry_buys_when_allowed reentryEnv event emptyWorld (configWith true) tokenConfig).
  - intros [=].
  - reflexivity.
  - reflexivity.
  - reflexivity.
  - reflexivity.
  - unfold guarded. apply surjective_pairing_normal. reflexivity.
  - reflexivity.
Defined.

(** *** Further properties of the reconciliation *)

Lemma reconcileToken_outcome env agentId walletAddress tokenAddress tokenSymbol tokenBounds
    w c w' :
  let normalized := normalizeToken tokenAddress in
  let key := reconcileKey agentId walletAddress normalized in
  let gate := pushed (EvCheckAndSet key RECONCILE_LOCK_TTL_SECONDS) w in
  let queried := pushed (EvFindFirstPosition agentId walletAddress normalized) gate in
  reconcileToken env agentId walletAddress tokenAddress tokenSymbol tokenBounds w = (c, w') →
  adds (allBut KPurchase) w w'
  ∨ (c = Normal tt
     ∧ checkAndSet_reply env (trace gate) key RECONCILE_LOCK_TTL_SECONDS = Normal true
     ∧ ∃ rows g w6 mid tail,
         agentPosition_rows env (trace queried) = Normal rows
         ∧ List.find (positionMatches agentId walletAddress normalized) rows = None
         ∧ evaluateAutoTradeMarketCapGuard env normalized (Some tokenBounds) queried
           = (Normal g, w6)
         ∧ allowed g = true
         ∧ trace w'
           = tail ++ EvExecutePurchase
                       (reconcileRequest agentId walletAddress tokenAddress tokenSymbol)
               :: mid ++ trace w
         ∧ Forall (λ e, allBut KPurchase (kindOf e) = true) mid
         ∧ Forall (λ e, allBut KPurchase (kindOf e) = true) tail).
Proof.
  intros normalized key gate queried Hrun.
  unfold reconcileToken in Hrun. fold normalized key in Hrun.
  unfold checkAndSet in Hrun. rewrite bind_external_cases in Hrun. fold gate in Hrun.
  destruct (checkAndSet_reply env _ _ _) as [[|]|x] eqn:Hgate; cbn [negb] in Hrun.
  2,3: left; injection Hrun as <- <-; by apply adds_event.
  unfold findFirstPosition in Hrun. rewrite bind_external_cases in Hrun.
  fold queried in Hrun. cbn [trace pushed] in Hrun.
  assert (adds (allBut KPurchase) w queried) as Hq.
  { etrans; [apply (adds_event _ (EvCheckAndSet key RECONCILE_LOCK_TTL_SECONDS)); done|].
    by apply adds_event. }
  change (EvFindFirstPosition agentId walletAddress normalized :: trace gate)
    with (trace queried) in Hrun.
  destruct (agentPosition_rows env (trace queried)) as [rows|x] eqn:Hrows.
  2:{ left. by injection Hrun as <- <-. }
  destruct (List.find _ rows) as [row|] eqn:Hfind; cbn [fmap option_fmap option_map isSet] in Hrun.
  { left. by injection Hrun as <- <-. }
  unfold mbind at 1, M_bind at 1 in Hrun.
  pose proof (guard_adds env normalized (Some tokenBounds) queried) as Hguard.
  destruct (evaluateAutoTradeMarketCapGuard env _ _ queried) as [[g|x] w6] eqn:Eg;
    cbn [snd] in Hguard.
  2:{ left. injection Hrun as <- <-. by etrans. }
  destruct (allowed g) eqn:Hallowed; cbn [negb] in Hrun.
  2:{ left. injection Hrun as <- <-. etrans; [exact Hq|]. etrans; [exact Hguard|].
      by apply adds_event. }
  destruct Hguard as (l6 & Hl6 & Hf6).
  set (mid0 := l6 ++ [EvFindFirstPosition agentId walletAddress normalized;
                       EvCheckAndSet key RECONCILE_LOCK_TTL_SECONDS]).
  assert (Forall (λ e, allBut KPurchase (kindOf e) = true) mid0) as Hmid.
  { apply Forall_app; split; [done|].
    apply Forall_cons_2; [done|]. apply Forall_cons_2; [done|apply Forall_nil_2]. }
  right.
  unfold tryCatch, executePurchase, logger, emit, external, mbind, M_bind in Hrun.
  cbn in Hrun.
  destruct (executePurchase_reply env _ _) as [result|x]; cbn in Hrun.
  - injection Hrun as <- <-. split; [done|]. split; [done|].
    exists rows, g, w6, mid0, [EvLog Info "Auto-trade reconciliation opened missing position"].
    repeat (split; [done|]). split; [|split; [exact Hmid|]].
    + cbn. rewrite Hl6. unfold mid0. cbn. by rewrite <- !app_assoc.
    + apply Forall_cons_2; [done|apply Forall_nil_2].
  - destruct (isExpectedSkip x); injection Hrun as <- <-; (split; [done|]); (split; [done|]);
      exists rows, g, w6, mid0; eexists [_];
      repeat (split; [done|]); (split; [|split; [exact Hmid|]]);
      first [ apply Forall_cons_2; [reflexivity|apply Forall_nil_2]
            | cbn; rewrite Hl6; unfold mid0; cbn; by rewrite <- !app_assoc ].
Qed.

(** X7. Whenever [reconcileToken] buys, the gate had been granted,
    the store held no active position of the wallet in the token (whatever
    the case of its letters), and the guard had allowed the token; the
    purchase is for the wallet and for the trimmed, lower-cased address, and
    it is the only one.  The purchase failing does not make the
    reconciliation of the token fail. *)
Theorem reconcile_purchase_requires_allowed
    env agentId walletAddress tokenAddress tokenSymbol tokenBounds w later request :
  let normalized := normalizeToken tokenAddress in
  let key := reconcileKey agentId walletAddress normalized in
  let gate := pushed (EvCheckAndSet key RECONCILE_LOCK_TTL_SECONDS) w in
  let queried := pushed (EvFindFirstPosition agentId walletAddress normalized) gate in
  let res :=
    reconcileToken env agentId walletAddress tokenAddress tokenSymbol tokenBounds w in
  trace res.2 = later ++ trace w →
  EvExecutePurchase request ∈ later →
  res.1 = Normal tt
  ∧ checkAndSet_reply env (trace gate) key RECONCILE_LOCK_TTL_SECONDS = Normal true
  ∧ (∃ rows,
       agentPosition_rows env (trace queried) = Normal rows
       ∧ ∀ row, row ∈ rows → ¬ isPositionOf agentId walletAddress normalized row)
  ∧ (∃ g w6,
       evaluateAutoTradeMarketCapGuard env normalized (Some tokenBounds) queried
         = (Normal g, w6)
       ∧ allowed g = true)
  ∧ request = reconcileRequest agentId walletAddress tokenAddress tokenSymbol
  ∧ calls KPurchase later = 1.
Proof.
  intros normalized key gate queried res Hlater Hin. unfold res in *.
  destruct (reconcileToken env _ _ _ _ _ w) as [c w'] eqn:Hrun. cbn [fst snd] in *.
  destruct (reconcileToken_outcome env _ _ _ _ _ _ _ _ Hrun)
    as [(l & Hl & Hf)
       |(-> & Hgate & rows & g & w6 & mid & tail
         & Hrows & Hfind & Hguard & Hallowed & Htrace & Hmid & Htail)].
  { rewrite Hlater in Hl. apply app_inv_tail in Hl. subst l.
    by destruct (not_purchase_in (allBut KPurchase) request later). }
  fold normalized key gate queried in Hgate, Hrows, Hfind, Hguard.
  split; [done|]. split; [done|]. split.
  { exists rows. split; [done|]. intros row Hrow Hpos.
    apply list_elem_of_In in Hrow.
    pose proof (List.find_none _ _ Hfind _ Hrow) as Hno.
    apply positionMatches_spec in Hpos. unfold normalized in Hno. congruence. }
  split; [by exists g, w6|].
  rewrite Hlater in Htrace.
  change (tail ++ EvExecutePurchase
                    (reconcileRequest agentId walletAddress tokenAddress tokenSymbol)
            :: mid ++ trace w)
    with (tail ++ [EvExecutePurchase
                     (reconcileRequest agentId walletAddress tokenAddress tokenSymbol)]
            ++ mid ++ trace w) in Htrace.
  rewrite !app_assoc in Htrace. apply app_inv_tail in Htrace. subst later.
  split.
  - apply elem_of_app in Hin as [Hin|Hin].
    2:{ by destruct (not_purchase_in (allBut KPurchase) request mid). }
    apply elem_of_app in Hin as [Hin|Hin].
    { by destruct (not_purchase_in (allBut KPurchase) request tail). }
    apply list_elem_of_singleton in Hin. by injection Hin.
  - rewrite !calls_app, calls_purchase_one.
    rewrite !(calls_none (allBut KPurchase)); [lia|done..].
Qed.

Lemma reconcile_purchase_requires_allowed_witness :
  let normalized := normalizeToken TOKEN in
  let key := reconcileKey "agent-1" "wallet-1" normalized in
  let gate := pushed (EvCheckAndSet key RECONCILE_LOCK_TTL_SECONDS) emptyWorld in
  let queried := pushed (EvFindFirstPosition "agent-1" "wallet-1" normalized) gate in
  let res :=
    reconcileToken (cycleEnv []) "agent-1" "wallet-1" TOKEN (Some "TKN") bounds_200k_5m
      emptyWorld in
  res.1 = Normal tt
  ∧ checkAndSet_reply (cycleEnv []) (trace gate) key RECONCILE_LOCK_TTL_SECONDS
    = Normal true
  ∧ (∃ rows,
       agentPosition_rows (cycleEnv []) (trace queried) = Normal rows
       ∧ ∀ row, row ∈ rows → ¬ isPositionOf "agent-1" "wallet-1" normalized row)
  ∧ (∃ g w6,
       evaluateAutoTradeMarketCapGuard (cycleEnv []) normalized (Some bounds_200k_5m)
         queried = (Normal g, w6)
       ∧ allowed g = true)
  ∧ {| pr_agentId := "agent-1";
       pr_walletAddress := Some "wallet-1";
       pr_tokenAddress := "token111111111111111111111111111111111111";
       pr_tokenSymbol := Some "TKN";
       pr_signalId := None |}
    = reconcileRequest "agent-1" "wallet-1" TOKEN (Some "TKN")
  ∧ calls KPurchase
      (trace (reconcileToken (cycleEnv []) "agent-1" "wallet-1" TOKEN (Some "TKN")
                bounds_200k_5m emptyWorld).2) = 1.
Proof.
  apply (reconcile_purchase_requires_allowed (cycleEnv []) "agent-1" "wallet-1" TOKEN
           (Some "TKN") bounds_200k_5m emptyWorld
           (trace (reconcileToken (cycleEnv []) "agent-1" "wallet-1" TOKEN (Some "TKN")
                     bounds_200k_5m emptyWorld).2)).
  - by rewrite app_nil_r.
  - vm_compute. apply list_elem_of_further, list_elem_of_here.
Defined.

(** Walks through a computation for a given relation and its events. *)
Ltac walk_with R ok Hev :=
  repeat first
    [ assumption
    | solve [auto with steps]
    | apply (@steps_ret R _)
    | apply (@steps_throw R _)
    | apply (@steps_lift R _)
    | apply (@steps_bind R _); [|intros ?]
    | apply (@steps_tryCatch R _); [|intros ?]
    | apply (@steps_forOf R _); intros ?
    | apply (steps_logger R ok Hev)
    | apply (steps_emit R ok Hev)
    | apply (steps_external R ok Hev)
    | match goal with
      | |- steps _ (if ?b then _ else _) => destruct b
      | |- steps _ (match ?x with _ => _ end) => destruct x
      end ].

Lemma reconcileAgent_returns env agentId w :
  (reconcileAgent env agentId w).1 = Normal tt.
Proof.
  unfold reconcileAgent, tryCatch.
  match goal with
  | |- (match ?body with _ => _ end).1 = _ => by destruct body as [[[]|e] w1]
  end.
Qed.

(** The reconciliation of an agent starts by loading its configuration, and
    the trace only grows from there. *)
Lemma reconcileAgent_loads env agentId w :
  adds anyKind (pushed (EvLoadAgentConfig agentId) w) (reconcileAgent env agentId w).2.
Proof.
  assert (∀ a b c d e, steps (adds anyKind) (reconcileToken env a b c d e)) as Htoken.
  { intros. apply (steps_reconcileToken (adds anyKind) anyKind (adds_event anyKind));
      [|done]. intros tok. by apply fetch_adds. }
  unfold reconcileAgent, loadAgentConfig. rewrite tryCatch_external.
  destruct (loadAgentConfig_reply env _ _) as [config|x].
  - match goal with
    | |- adds _ ?w0 (tryCatch ?b ?h ?w0).2 =>
        assert (steps (adds anyKind) (tryCatch b h)) as Hsteps; [|apply Hsteps]
    end.
    unfold getTradingMode, findWalletByAgentId.
    walk_with (adds anyKind) anyKind (adds_event anyKind).
  - by apply adds_event.
Qed.

Lemma reconcile_all env agents : ∀ w,
  ∃ later w',
    forOf agents (reconcileAgent env) w = (Normal tt, w')
    ∧ trace w' = later ++ trace w
    ∧ ∀ agentId, agentId ∈ agents → EvLoadAgentConfig agentId ∈ later.
Proof.
  induction agents as [|a rest IH]; intros w.
  { exists [], w. split; [done|]. split; [done|]. intros ? Hin. inversion Hin. }
  pose proof (reconcileAgent_returns env a w) as Hret.
  destruct (reconcileAgent_loads env a w) as (l1 & Hl1 & _).
  destruct (reconcileAgent env a w) as [c w1] eqn:E. cbn [fst snd] in *. subst c.
  destruct (IH w1) as (l2 & w2 & E2 & Hl2 & Hall).
  exists (l2 ++ l1 ++ [EvLoadAgentConfig a]), w2. split; [|split].
  - cbn. unfold mbind, M_bind. by rewrite E.
  - rewrite Hl2, Hl1. cbn. by rewrite <- !app_assoc.
  - intros agentId [->|Hin]%elem_of_cons.
    + apply elem_of_app. right. apply elem_of_app. right. apply list_elem_of_here.
    + apply elem_of_app. left. by apply Hall.
Qed.

(** X8. Once [getActiveAgentIds] has answered, [runCycle] does not fail and
    reaches every agent of the list (it loads the configuration of each): an
    error while one agent is reconciled is logged and the cycle goes on with
    the next. *)
Theorem runCycle_reaches_every_agent env w agents :
  getActiveAgentIds_reply env (EvGetActiveAgentIds :: trace w) = Normal agents →
  ∃ later w',
    runCycle env w = (Normal tt, w')
    ∧ trace w' = later ++ EvGetActiveAgentIds :: trace w
    ∧ ∀ agentId, agentId ∈ agents → EvLoadAgentConfig agentId ∈ later.
Proof.
  intros Hagents. unfold runCycle, getActiveAgentIds.
  erewrite bind_external by exact Hagents.
  destruct agents as [|a rest]; cbn [length Nat.eqb].
  { exists [], (pushed EvGetActiveAgentIds w). split; [done|]. split; [done|].
    intros ? Hin. inversion Hin. }
  destruct (reconcile_all env (a :: rest) (pushed EvGetActiveAgentIds w))
    as (later & w' & E & Hl & Hall).
  by exists later, w'.
Qed.

Lemma runCycle_reaches_every_agent_witness :
  ∃ later w',
    runCycle (cycleEnv [existingRow]) emptyWorld = (Normal tt, w')
    ∧ trace w' = later ++ EvGetActiveAgentIds :: trace emptyWorld
    ∧ ∀ agentId, agentId ∈ ["agent-1"] → EvLoadAgentConfig agentId ∈ later.
Proof.
  apply (runCycle_reaches_every_agent (cycleEnv [existingRow]) emptyWorld ["agent-1"]).
  reflexivity.
Defined.

(** Two agents whose configuration cannot be loaded: the cycle logs the
    failure of each and ends normally. *)
Example runCycle_goes_on_after_errors :
  let env :=
    {| Date_now := λ _, 0%Z;
       JUPITER_API_KEY := None;
       jupiterSearch := λ _ _, RequestRejected;
       REDIS_TTL_IDEMPOTENCY := 60%Z;
       checkAndSet_reply := λ _ _ _, Normal true;
       loadAgentConfig_reply := λ _ _, Thrown (OtherError "database is down");
       mergeConfigs := λ _ next, Normal next;
       validateConfig := λ _, (true, []);
       updateAgentConfig_reply := λ _ _ c, Normal (default noConfig c);
       getActiveAgentIds_reply := λ _, Normal ["agent-1"; "agent-2"];
       getTradingMode_reply := λ _ _, Normal "simulation";
       findWalletByAgentId_reply := λ _ _ _, Normal None;
       agentPosition_rows := λ _, Normal [];
       findAgent_reply := λ _ _ _, Normal None;
       createSignal_reply := λ _ _, Normal 1%Z;
       executePurchase_reply := λ _ _,
         Normal {| transactionId := "tx-1"; newPositionId := "pos-1" |} |} in
  runCycle env emptyWorld
  = (Normal tt,
     {| metricsCache := ∅;
        trace := [EvLog Warn "Auto-trade reconciliation skipped for agent due to error";
                  EvLoadAgentConfig "agent-2";
                  EvLog Warn "Auto-trade reconciliation skipped for agent due to error";
                  EvLoadAgentConfig "agent-1";
                  EvGetActiveAgentIds] |}).
Proof. by vm_compute. Qed.

(** *** Further properties of the config endpoint *)

Lemma filter_all_false {A} (p : A → bool) (l : list A) :
  (∀ x, x ∈ l → p x = false) → List.filter p l = [].
Proof.
  induction l as [|x l IH]; intros H; [done|]. cbn.
  rewrite (H x) by left. apply IH. intros y Hy. apply H. by right.
Qed.

(** X9. Saving a configuration that does not change triggers no immediate
    purchase: [getImmediateAutoTradeTokens] of a configuration and itself is
    empty. *)
Theorem getImmediateAutoTradeTokens_unchanged config :
  getImmediateAutoTradeTokens config config = [].
Proof.
  unfold getImmediateAutoTradeTokens.
  destruct (autoTradeOn config); cbn [negb]; [|done].
  apply filter_all_false. intros token Hin.
  apply negb_false_iff, bool_decide_eq_true.
  apply elem_of_list_to_set, list_elem_of_fmap. by exists token.
Qed.

(** X10. The tokens of [getImmediateAutoTradeTokens] are exactly the enabled tokens of the saved
    configuration, when auto-trade is on in it, that were not already enabled,
    under an address equal up to surrounding white space and letter case,
    while auto-trade was on before. *)
Theorem getImmediateAutoTradeTokens_spec previousConfig nextConfig token :
  token ∈ getImmediateAutoTradeTokens previousConfig nextConfig
  ↔ autoTradeOn nextConfig = true
    ∧ token ∈ autoTradeTokens nextConfig
    ∧ enabled token = true
    ∧ (autoTradeOn previousConfig = true →
       ∀ old, old ∈ autoTradeTokens previousConfig → enabled old = true →
         normalizeToken (address old) ≠ normalizeToken (address token)).
Proof.
  unfold getImmediateAutoTradeTokens.
  destruct (autoTradeOn nextConfig); cbn [negb].
  2:{ split; [inversion 1|by intros [? _]]. }
  assert (∀ c, token ∈ List.filter enabled (autoTradeTokens c)
               ↔ token ∈ autoTradeTokens c ∧ enabled token = true) as Hfilter.
  { intros c. rewrite !list_elem_of_In, List.filter_In. done. }
  destruct (autoTradeOn previousConfig); cbn [negb].
  - rewrite list_elem_of_In, List.filter_In, <- list_elem_of_In, Hfilter.
    rewrite negb_true_iff, bool_decide_eq_false, elem_of_list_to_set, list_elem_of_fmap.
    split.
    + intros [[Hin Hen] Hnew]. repeat (split; [done|]). intros _ old Hold Holden Heq.
      apply Hnew. exists old. split; [done|]. apply list_elem_of_In, List.filter_In.
      split; [by apply list_elem_of_In|done].
    + intros (_ & Hin & Hen & Hnew). split; [done|].
      intros (old & Heq & [Hold Holden]%list_elem_of_In%List.filter_In).
      apply list_elem_of_In in Hold. by apply (Hnew eq_refl old).
  - rewrite Hfilter. split; [intros [? ?]|intros (_ & ? & ? & _)]; done.
Qed.

(** A token that was enabled under another spelling of its address is not
    bought again; a token that is new is. *)
Example immediate_tokens_by_normalized_address :
  let spelled (a : string) :=
    {| address := a; symbol := None; enabled := true;
       marketCapMin := None; marketCapMax := None |} in
  let config (tokens : list AutoTradeTokenConfig) :=
    {| autoTrade := Some {| autoTradeEnabled := true; tokens := Some tokens |} |} in
  getImmediateAutoTradeTokens (config [spelled "TokenA"])
    (config [spelled "  tokena "; spelled "TokenB"])
  = [spelled "TokenB"].
Proof. by vm_compute. Qed.

Lemma saveErrorResponse_status error :
  status (saveErrorResponse error) ∈ [400; 404; 500]%Z.
Proof.
  destruct error as [? ?|code ?|? ? ?|?]; cbn; try destruct (String.eqb code _); cbn;
    repeat first [apply list_elem_of_here|apply list_elem_of_further].
Qed.

Lemma saveAndTrigger_reset env id userId w :
  let out := saveAndTrigger env id userId None None w in
  adds noBuyKinds w out.2
  ∧ match out.1 with Normal resp => status resp = 200%Z | Thrown _ => True end.
Proof.
  unfold saveAndTrigger, updateAgentConfig. rewrite bind_external_cases.
  destruct (updateAgentConfig_reply env _ _ _) as [updated|x]; cbn.
  - split; [by apply (adds_event noBuyKinds (EvUpdateAgentConfig id None))|done].
  - split; [by apply (adds_event noBuyKinds (EvUpdateAgentConfig id None))|done].
Qed.

Lemma saveAndTrigger_partial env id userId final existing w :
  let out := saveAndTrigger env id userId (Some final) (Some existing) w in
  match out.1 with
  | Normal resp => status resp = 200%Z
  | Thrown _ => adds noBuyKinds w out.2
  end.
Proof.
  unfold saveAndTrigger, updateAgentConfig. rewrite bind_external_cases.
  destruct (updateAgentConfig_reply env _ _ _) as [updated|x].
  2:{ by apply (adds_event noBuyKinds (EvUpdateAgentConfig id (Some final))). }
  destruct (immediate_loop env id userId (getImmediateAutoTradeTokens existing updated)
              (pushed (EvUpdateAgentConfig id (Some final)) w))
    as (later & w' & Eloop & _).
  cbv beta iota zeta. unfold mbind, M_bind. by rewrite Eloop.
Qed.

(** X11. [updateAgentTradingConfig] always answers, with one of five status
    codes.  A request without a user, with a malformed id or without a config
    is refused with nothing called.  Unless the answer is 200 nothing is
    bought and no signal is created; and a reset to the defaults ([config:
    null]) buys nothing either. *)
Theorem save_buys_only_on_success env req w :
  ∃ resp w',
    updateAgentTradingConfig env req w = (Normal resp, w')
    ∧ status resp ∈ [200; 400; 401; 404; 500]%Z
    ∧ (refusedUpFront req → w' = w ∧ status resp ≠ 200%Z)
    ∧ (status resp ≠ 200%Z ∨ req_body_config req = BodyNull →
       calls KPurchase (trace w') = calls KPurchase (trace w)
       ∧ calls KCreateSignal (trace w') = calls KCreateSignal (trace w)).
Proof.
  unfold updateAgentTradingConfig.
  match goal with
  | |- context [tryCatch ?b ?h] => set (body := b); set (handler := h)
  end.
  assert (∀ error w0,
            handler error w0
            = (Normal (saveErrorResponse error),
               pushed (EvLog Error "Update agent trading config error") w0)) as Hcatch.
  { intros error w0. unfold handler.
    destruct error as [? ?|code ?|? ? ?|?]; cbn; try destruct (String.eqb code _);
      reflexivity. }
  assert (∀ out, body w = out → saveTried req w out) as Htried.
  { intros out Hrun. unfold body in Hrun. unfold saveTried, refusedUpFront.
    destruct (req_user req) as [userId|].
    2:{ subst out. cbn. split; [repeat first [apply list_elem_of_here|apply list_elem_of_further]|].
        split; [done|]. intros _. reflexivity. }
    destruct (uuidRegex_test (req_params_id req)); cbn [negb] in Hrun.
    2:{ subst out. cbn. split; [repeat first [apply list_elem_of_here|apply list_elem_of_further]|].
        split; [done|]. intros _. reflexivity. }
    destruct (req_body_config req) as [| |partial] eqn:Hbody.
    { subst out. cbn. split; [repeat first [apply list_elem_of_here|apply list_elem_of_further]|].
      split; [done|]. intros _. reflexivity. }
    - (* reset to the defaults *)
      unfold findAgent in Hrun. rewrite bind_external_cases in Hrun.
      set (w1 := pushed (EvFindAgent (req_params_id req) (Some userId)) w) in *.
      assert (adds noBuyKinds w w1) as H1 by (by apply adds_event).
      destruct (findAgent_reply env _ _ _) as [[owner|]|x].
      + destruct (saveAndTrigger_reset env (req_params_id req) userId w1) as [Hadd Hst].
        rewrite Hrun in Hadd, Hst.
        destruct out as [[resp|x] w2]; cbn [fst snd] in *.
        * rewrite Hst. split; [apply list_elem_of_here|].
          split; [intros [?|[?|?]]; congruence|]. intros _. by etrans.
        * split; [intros [?|[?|?]]; congruence|]. by etrans.
      + subst out. cbn.
        split; [repeat first [apply list_elem_of_here|apply list_elem_of_further]|].
        split; [intros [?|[?|?]]; congruence|]. by intros _.
      + subst out. cbn. split; [intros [?|[?|?]]; congruence|done].
    - (* a partial configuration *)
      unfold findAgent in Hrun. rewrite bind_external_cases in Hrun.
      set (w1 := pushed (EvFindAgent (req_params_id req) (Some userId)) w) in *.
      assert (adds noBuyKinds w w1) as H1 by (by apply adds_event).
      destruct (findAgent_reply env _ _ _) as [[owner|]|x].
      2:{ subst out. cbn.
          split; [repeat first [apply list_elem_of_here|apply list_elem_of_further]|].
          split; [intros [?|[?|?]]; congruence|]. by intros _. }
      2:{ subst out. cbn. split; [intros [?|[?|?]]; congruence|done]. }
      unfold loadAgentConfig in Hrun. rewrite bind_external_cases in Hrun.
      set (w2 := pushed (EvLoadAgentConfig (req_params_id req)) w1) in *.
      assert (adds noBuyKinds w w2) as H2.
      { etrans; [exact H1|]. by apply adds_event. }
      destruct (loadAgentConfig_reply env _ _) as [existing|x].
      2:{ subst out. cbn. split; [intros [?|[?|?]]; congruence|done]. }
      unfold mbind at 1, M_bind at 1, lift in Hrun.
      destruct (mergeConfigs env existing partial) as [final|x].
      2:{ subst out. cbn. split; [intros [?|[?|?]]; congruence|done]. }
      destruct (validateConfig env final).1; cbn [negb] in Hrun.
      2:{ subst out. cbn.
          split; [repeat first [apply list_elem_of_here|apply list_elem_of_further]|].
          split; [intros [?|[?|?]]; congruence|]. by intros _. }
      pose proof (saveAndTrigger_partial env (req_params_id req) userId final existing w2)
        as Hsave. cbn zeta in Hsave. rewrite Hrun in Hsave.
      destruct out as [[resp|x] w3]; cbn [fst snd] in *.
      + rewrite Hsave. split; [apply list_elem_of_here|].
        split; [intros [?|[?|?]]; congruence|]. intros [?|?]; congruence.
      + split; [intros [?|[?|?]]; congruence|]. by etrans. }
  specialize (Htried _ eq_refl).
  clearbody body handler. unfold tryCatch, saveTried in *.
  destruct (body w) as [[resp|error] w1]; cbn [fst snd] in *.
  - destruct Htried as (Hst & Hup & Hbuy). exists resp, w1. split; [done|]. split.
    { clear -Hst. rewrite !elem_of_cons in *. tauto. }
    split; [done|]. intros H. specialize (Hbuy H).
    split; by apply (adds_calls noBuyKinds).
  - destruct Htried as (Hup & Hadd). rewrite Hcatch. eexists _, _. split; [reflexivity|].
    pose proof (saveErrorResponse_status error) as Hst.
    split; [clear -Hst; rewrite !elem_of_cons in *; tauto|].
    split; [done|]. intros _.
    assert (adds noBuyKinds w (pushed (EvLog Error "Update agent trading config error") w1))
      as Hfinal.
    { etrans; [exact Hadd|]. by apply adds_event. }
    split; by apply (adds_calls noBuyKinds).
Qed.

Lemma hexRun_length n : ∀ s rest, hexRun n s = Some rest → String.length s = n + String.length rest.
Proof.
  induction n as [|n IH]; intros s rest; cbn.
  - by intros [= ->].
  - destruct s as [|c s]; [done|]. destruct (isHexDigit c); [|done].
    intros H%IH. cbn. lia.
Qed.

Lemma dash_length s rest : dash s = Some rest → String.length s = 1 + String.length rest.
Proof.
  destruct s as [|c s]; [done|]. cbn. destruct (Ascii.eqb c "-"); [|done].
  by intros [= ->].
Qed.

Lemma isHexDigit_lowerChar c : isHexDigit (lowerChar c) = isHexDigit c.
Proof. by destruct c as [[] [] [] [] [] [] [] []]. Qed.

Lemma dash_lowerChar c : Ascii.eqb (lowerChar c) "-" = Ascii.eqb c "-".
Proof. by destruct c as [[] [] [] [] [] [] [] []]. Qed.

Lemma hexRun_toLowerCase n : ∀ s,
  hexRun n (toLowerCase s) = toLowerCase <$> hexRun n s.
Proof.
  induction n as [|n IH]; intros s; [done|].
  destruct s as [|c s]; [done|]. cbn. rewrite isHexDigit_lowerChar.
  destruct (isHexDigit c); [apply IH|done].
Qed.

Lemma dash_toLowerCase s : dash (toLowerCase s) = toLowerCase <$> dash s.
Proof.
  destruct s as [|c s]; [done|]. cbn. rewrite dash_lowerChar.
  by destruct (Ascii.eqb c "-").
Qed.

(** X12. The id check of the endpoint accepts only strings of 36 characters,
    and it does not depend on the case of the letters. *)
Theorem uuidRegex_test_shape id :
  (uuidRegex_test id = true → String.length id = 36)
  ∧ uuidRegex_test (toLowerCase id) = uuidRegex_test id.
Proof.
  unfold uuidRegex_test. split.
  - destruct (hexRun 8 id) as [s1|] eqn:E1; cbn [mbind option_bind]; [|done].
    destruct (dash s1) as [s2|] eqn:E2; cbn [mbind option_bind]; [|done].
    destruct (hexRun 4 s2) as [s3|] eqn:E3; cbn [mbind option_bind]; [|done].
    destruct (dash s3) as [s4|] eqn:E4; cbn [mbind option_bind]; [|done].
    destruct (hexRun 4 s4) as [s5|] eqn:E5; cbn [mbind option_bind]; [|done].
    destruct (dash s5) as [s6|] eqn:E6; cbn [mbind option_bind]; [|done].
    destruct (hexRun 4 s6) as [s7|] eqn:E7; cbn [mbind option_bind]; [|done].
    destruct (dash s7) as [s8|] eqn:E8; cbn [mbind option_bind]; [|done].
    destruct (hexRun 12 s8) as [[|? ?]|] eqn:E9; [|done|done]. intros _.
    apply hexRun_length in E1, E3, E5, E7, E9. apply dash_length in E2, E4, E6, E8.
    cbn [String.length] in *. lia.
  - rewrite hexRun_toLowerCase.
    destruct (hexRun 8 id) as [s1|]; cbn [mbind option_bind fmap option_fmap option_map]; [|done]. rewrite dash_toLowerCase.
    destruct (dash s1) as [s2|]; cbn [mbind option_bind fmap option_fmap option_map]; [|done]. rewrite hexRun_toLowerCase.
    destruct (hexRun 4 s2) as [s3|]; cbn [mbind option_bind fmap option_fmap option_map]; [|done]. rewrite dash_toLowerCase.
    destruct (dash s3) as [s4|]; cbn [mbind option_bind fmap option_fmap option_map]; [|done]. rewrite hexRun_toLowerCase.
    destruct (hexRun 4 s4) as [s5|]; cbn [mbind option_bind fmap option_fmap option_map]; [|done]. rewrite dash_toLowerCase.
    destruct (dash s5) as [s6|]; cbn [mbind option_bind fmap option_fmap option_map]; [|done]. rewrite hexRun_toLowerCase.
    destruct (hexRun 4 s6) as [s7|]; cbn [mbind option_bind fmap option_fmap option_map]; [|done]. rewrite dash_toLowerCase.
    destruct (dash s7) as [s8|]; cbn [mbind option_bind fmap option_fmap option_map]; [|done]. rewrite hexRun_toLowerCase.
    destruct (hexRun 12 s8) as [[|? ?]|]; done.
Qed.

(** A reset is answered with 200 and buys nothing; a malformed id is refused
    with nothing called. *)
Example save_reset_run :
  updateAgentTradingConfig saveEnv resetRequest emptyWorld
  = (Normal {| status := 200; body := ConfigBody noConfig |},
     {| metricsCache := ∅;
        trace := [EvUpdateAgentConfig AGENT_UUID None;
                  EvFindAgent AGENT_UUID (Some "user-1")] |}).
Proof. by vm_compute. Qed.

Example save_malformed_id_run :
  updateAgentTradingConfig saveEnv
    {| req_user := Some "user-1";
       req_params_id := "123e4567-e89b-12d3-a456-42661417400";
       req_body_config := BodyNull |} emptyWorld
  = (Normal (errorResponse 400 "Invalid agent ID format"), emptyWorld).
Proof. by vm_compute. Qed.

(** *** The position cache: writes, sweeps and the typing of the store *)

Lemma redis_get_set k k' v r :
  redis_get k (redis_set k' v r) = if decide (k = k') then Some v else redis_get k r.
Proof.
  unfold redis_get, redis_set. cbn. case_decide as H.
  - subst. apply lookup_insert_eq.
  - by apply lookup_insert_ne.
Qed.

Lemma smembers_set k k' v r :
  smembers k (redis_set k' v r) = if decide (k = k') then ∅ else smembers k r.
Proof.
  unfold smembers, redis_set. cbn. case_decide as H.
  - subst. by rewrite lookup_delete_eq.
  - by rewrite lookup_delete_ne.
Qed.

Lemma redis_get_sadd k k' m r : redis_get k (sadd k' m r) = redis_get k r.
Proof. done. Qed.

Lemma smembers_sadd k k' m r :
  smembers k (sadd k' m r)
  = if decide (k = k') then {[m]} ∪ smembers k r else smembers k r.
Proof.
  unfold sadd. unfold smembers at 1. cbn.
  destruct (decide (k = k')) as [<-|Hk].
  - by rewrite lookup_insert_eq.
  - by rewrite lookup_insert_ne.
Qed.

Lemma noEmptySet_del k r : noEmptySet r → noEmptySet (redis_del k r).
Proof.
  intros H k'. cbn. destruct (decide (k' = k)) as [->|Hne].
  - by rewrite lookup_delete_eq.
  - rewrite lookup_delete_ne by done. apply H.
Qed.

Lemma noEmptySet_set k v r : noEmptySet r → noEmptySet (redis_set k v r).
Proof.
  intros H k'. cbn. destruct (decide (k' = k)) as [->|Hne].
  - by rewrite lookup_delete_eq.
  - rewrite lookup_delete_ne by done. apply H.
Qed.

Lemma noEmptySet_sadd k m r : noEmptySet r → noEmptySet (sadd k m r).
Proof.
  intros H k'. cbn. destruct (decide (k' = k)) as [->|Hne].
  - rewrite lookup_insert_eq. intros [= He]. set_solver.
  - rewrite lookup_insert_ne by done. apply H.
Qed.

Lemma noEmptySet_srem k m r : noEmptySet r → noEmptySet (srem k m r).
Proof.
  intros H k'. unfold srem. cbn. destruct (decide (k' = k)) as [->|Hne].
  - case_decide as He; [by rewrite lookup_delete_eq|].
    rewrite lookup_insert_eq. congruence.
  - case_decide; [rewrite lookup_delete_ne by done|rewrite lookup_insert_ne by done];
      apply H.
Qed.

Lemma noEmptySet_drop_empty k r :
  noEmptySet r → noEmptySet (if (scard k r =? 0)%nat then redis_del k r else r).
Proof. intros H. destruct (_ =? _)%nat; [by apply noEmptySet_del|done]. Qed.

Lemma setKeys_smembers r k :
  noEmptySet r →
  setKeys r !! k = if decide (smembers k r = ∅) then None else Some (smembers k r).
Proof.
  intros H. unfold smembers. specialize (H k).
  destruct (setKeys r !! k) as [s|]; cbn.
  - rewrite decide_False; [done|congruence].
  - by rewrite decide_True.
Qed.

Lemma store_eq r r' :
  stringKeys r = stringKeys r' →
  noEmptySet r → noEmptySet r' → (∀ k, smembers k r = smembers k r') →
  r = r'.
Proof.
  intros Hs Hr Hr' Hm.
  assert (setKeys r = setKeys r') as Hk.
  { apply map_eq. intros k.
    by rewrite (setKeys_smembers r k Hr), (setKeys_smembers r' k Hr'), Hm. }
  destruct r, r'; cbn in *; congruence.
Qed.

Lemma stringKeys_drop_empty k r :
  stringKeys r !! k = None →
  stringKeys (if (scard k r =? 0)%nat then redis_del k r else r) = stringKeys r.
Proof. intros H. destruct (_ =? _)%nat; [|done]. cbn. by apply delete_id. Qed.

Section PositionWrites.
Variables POSITION AGENT_POSITIONS TOKEN_POSITIONS : string → string.
Variable JSON_parse : string → option PositionJson.
Context {AgentPosition : Type}.
Variables position_id position_agentId position_tokenAddress : AgentPosition → string.
Variable serializedJson : AgentPosition → string.

Hypothesis position_inj : ∀ id id', POSITION id = POSITION id' → id = id'.
Hypothesis position_not_agent : ∀ id a, POSITION id ≠ AGENT_POSITIONS a.
Hypothesis position_not_token : ∀ id t, POSITION id ≠ TOKEN_POSITIONS t.
Hypothesis token_not_agent : ∀ t a, TOKEN_POSITIONS t ≠ AGENT_POSITIONS a.

Local Abbreviation cachePosition :=
  (setPosition POSITION AGENT_POSITIONS TOKEN_POSITIONS
     position_id position_agentId position_tokenAddress serializedJson).
Local Abbreviation typed := (storeTyped POSITION AGENT_POSITIONS TOKEN_POSITIONS).

Lemma setPosition_lookup position r :
  let r' := (cachePosition position r).1 in
  redis_get (POSITION (position_id position)) r' = Some (serializedJson position)
  ∧ position_id position ∈ smembers (AGENT_POSITIONS (position_agentId position)) r'
  ∧ position_id position
      ∈ smembers (TOKEN_POSITIONS (toLowerCase (position_tokenAddress position))) r'.
Proof.
  cbn zeta. unfold setPosition, addToIndexes. cbn [fst]. split; [|split].
  - rewrite !redis_get_sadd, redis_get_set. by rewrite decide_True.
  - rewrite !smembers_sadd.
    rewrite decide_False by (intros H; symmetry in H; by apply token_not_agent in H).
    rewrite decide_True by done. apply elem_of_union_l. by apply elem_of_singleton.
  - rewrite smembers_sadd. rewrite decide_True by done.
    apply elem_of_union_l. by apply elem_of_singleton.
Qed.

(** X13. After [setPosition] the payload is stored under the position's key,
    [getAgentPositionIds] of its agent lists the position, and so does
    [getTokenPositionIds] for every spelling of its token address that
    differs in the case of letters only. *)
Theorem setPosition_indexed position r :
  let r' := (cachePosition position r).1 in
  redis_get (POSITION (position_id position)) r' = Some (serializedJson position)
  ∧ position_id position ∈ getAgentPositionIds AGENT_POSITIONS (position_agentId position) r'
  ∧ ∀ tokenAddress,
      toLowerCase tokenAddress = toLowerCase (position_tokenAddress position) →
      position_id position ∈ getTokenPositionIds TOKEN_POSITIONS tokenAddress r'.
Proof.
  destruct (setPosition_lookup position r) as (Hget & Hag & Htok).
  cbn zeta. unfold getAgentPositionIds, getTokenPositionIds.
  split; [done|]. split; [by apply elem_of_elements|].
  intros tokenAddress ->. by apply elem_of_elements.
Qed.

(** X14. [deletePosition] undoes [setPosition] on a store that did not know
    the position, whatever the case of the letters of the token address it is
    given: the store is again what it was, with no payload, no index entry and
    no empty index left behind. *)
Theorem deletePosition_undoes_setPosition position tokenAddress r :
  let id := position_id position in
  let agentKey := AGENT_POSITIONS (position_agentId position) in
  let tokenKey := TOKEN_POSITIONS (toLowerCase (position_tokenAddress position)) in
  typed r →
  redis_get (POSITION id) r = None →
  id ∉ smembers agentKey r →
  id ∉ smembers tokenKey r →
  toLowerCase tokenAddress = toLowerCase (position_tokenAddress position) →
  deletePosition POSITION AGENT_POSITIONS TOKEN_POSITIONS
    id (position_agentId position) tokenAddress (cachePosition position r).1 = r.
Proof.
  intros id agentKey tokenKey (Hp & Ha & Ht & Hne) Hfresh Hia Hit Hcase.
  unfold deletePosition, removeFromIndexes, setPosition, addToIndexes. cbn [fst].
  rewrite Hcase. fold id agentKey tokenKey.
  assert (tokenKey ≠ agentKey) as Hta by apply token_not_agent.
  assert (POSITION id ≠ agentKey) as Hpa by apply position_not_agent.
  assert (POSITION id ≠ tokenKey) as Hpt by apply position_not_token.
  apply store_eq.
  - set (r1 := srem tokenKey id _).
    assert (stringKeys r1 = stringKeys r) as E1 by (cbn; by apply delete_insert_id).
    rewrite !stringKeys_drop_empty; [done|rewrite E1; apply Ha|].
    rewrite stringKeys_drop_empty; rewrite E1; [apply Ht|apply Ha].
  - repeat first [apply noEmptySet_drop_empty | apply noEmptySet_srem | apply noEmptySet_del
                 | apply noEmptySet_sadd | apply noEmptySet_set]. exact Hne.
  - exact Hne.
  - intros k. rewrite !smembers_drop_empty, !smembers_srem, smembers_del, !smembers_sadd,
      smembers_set.
    destruct (decide (k = tokenKey)) as [->|Hk1].
    { rewrite !(decide_False (P := tokenKey = agentKey)) by done.
      rewrite !(decide_False (P := tokenKey = POSITION id)) by done.
      clear -Hit. set_solver. }
    destruct (decide (k = agentKey)) as [->|Hk2].
    { rewrite !(decide_False (P := agentKey = POSITION id)) by done.
      clear -Hia. set_solver. }
    destruct (decide (k = POSITION id)) as [->|Hk3]; [|done].
    unfold smembers. by rewrite Hp.
Qed.


Lemma redis_del_idem k r : redis_del k (redis_del k r) = redis_del k r.
Proof. unfold redis_del. cbn. by rewrite !delete_delete_eq. Qed.

(** X15. Caching again a position that is cached changes nothing in the store,
    and [addToIndexes] writes no log line for it. *)
Theorem setPosition_again position r :
  setPosition POSITION AGENT_POSITIONS TOKEN_POSITIONS
    position_id position_agentId position_tokenAddress serializedJson
    position (cachePosition position r).1
  = ((cachePosition position r).1, false).
Proof.
  set (id := position_id position).
  set (agentKey := AGENT_POSITIONS (position_agentId position)).
  set (tokenKey := TOKEN_POSITIONS (toLowerCase (position_tokenAddress position))).
  assert (tokenKey ≠ agentKey) as Hta by apply token_not_agent.
  assert (agentKey ≠ POSITION id) as Hpa
    by (intros H; symmetry in H; by apply position_not_agent in H).
  assert (tokenKey ≠ POSITION id) as Hpt
    by (intros H; symmetry in H; by apply position_not_token in H).
  destruct (setPosition_lookup position r) as (Hget & Hag & Htok).
  set (r1 := (cachePosition position r).1) in *. fold id agentKey tokenKey in Hget, Hag, Htok.
  assert (setKeys r1 !! POSITION id = None) as Hnoset.
  { unfold r1, setPosition, addToIndexes, sadd, redis_set. cbn.
    fold id agentKey tokenKey.
    rewrite !lookup_insert_ne by done. apply lookup_delete_eq. }
  assert (redis_set (POSITION id) (serializedJson position) r1 = r1) as Hset.
  { unfold redis_set. destruct r1 as [sk mk]. cbn in *. f_equal.
    - by apply insert_id.
    - by apply delete_id. }
  assert (∀ k, id ∈ smembers k r1 → sadd k id r1 = r1) as Hadd.
  { intros k Hin. unfold sadd. destruct r1 as [sk mk]. cbn in *. f_equal.
    apply insert_id. unfold smembers in *. cbn in *.
    destruct (mk !! k) as [s|]; cbn in *; [|by apply not_elem_of_empty in Hin].
    f_equal. clear -Hin. set_solver. }
  unfold setPosition at 1, addToIndexes. fold id agentKey tokenKey. rewrite Hset.
  rewrite (Hadd agentKey) by done. rewrite (Hadd tokenKey) by done.
  unfold sadd_reply. by rewrite !decide_True.
Qed.

(** *** The typing of the store *)

Lemma typed_del k r : typed r → typed (redis_del k r).
Proof.
  intros (Hp & Ha & Ht & Hne). split; [|split; [|split]]; cbn.
  - intros id. apply lookup_delete_None. auto.
  - intros a. apply lookup_delete_None. auto.
  - intros t. apply lookup_delete_None. auto.
  - by apply noEmptySet_del.
Qed.

Lemma typed_drop_empty k r :
  typed r → typed (if (scard k r =? 0)%nat then redis_del k r else r).
Proof. intros H. destruct (_ =? _)%nat; [by apply typed_del|done]. Qed.

Lemma typed_srem k m r :
  (∀ id, k ≠ POSITION id) → typed r → typed (srem k m r).
Proof.
  intros Hk (Hp & Ha & Ht & Hne). split; [|split; [|split]]; [|done|done|].
  - intros id. unfold srem. cbn. case_decide.
    + apply lookup_delete_None. auto.
    + rewrite lookup_insert_ne by apply Hk. apply Hp.
  - by apply noEmptySet_srem.
Qed.

Lemma typed_sadd k m r :
  (∀ id, k ≠ POSITION id) → typed r → typed (sadd k m r).
Proof.
  intros Hk (Hp & Ha & Ht & Hne). split; [|split; [|split]]; [|done|done|].
  - intros id. cbn. rewrite lookup_insert_ne by apply Hk. apply Hp.
  - by apply noEmptySet_sadd.
Qed.

Lemma typed_set id v r : typed r → typed (redis_set (POSITION id) v r).
Proof.
  intros (Hp & Ha & Ht & Hne). split; [|split; [|split]]; cbn.
  - intros id'. apply lookup_delete_None. auto.
  - intros a. rewrite lookup_insert_ne by apply position_not_agent. apply Ha.
  - intros t. rewrite lookup_insert_ne by apply position_not_token. apply Ht.
  - by apply noEmptySet_set.
Qed.

Lemma agent_not_position a id : AGENT_POSITIONS a ≠ POSITION id.
Proof using position_not_agent. intros H. symmetry in H. by apply position_not_agent in H. Qed.

Lemma token_not_position t id : TOKEN_POSITIONS t ≠ POSITION id.
Proof using position_not_token. intros H. symmetry in H. by apply position_not_token in H. Qed.

Lemma typed_setPosition position r : typed r → typed (cachePosition position r).1.
Proof.
  intros H. unfold setPosition, addToIndexes. cbn [fst].
  apply typed_sadd; [apply token_not_position|].
  apply typed_sadd; [apply agent_not_position|].
  by apply typed_set.
Qed.

Lemma typed_deletePosition id agentId tokenAddress r :
  typed r →
  typed (deletePosition POSITION AGENT_POSITIONS TOKEN_POSITIONS id agentId tokenAddress r).
Proof.
  intros H. unfold deletePosition, removeFromIndexes.
  do 2 apply typed_drop_empty.
  apply typed_srem; [apply token_not_position|].
  apply typed_srem; [apply agent_not_position|].
  by apply typed_del.
Qed.

Local Abbreviation turn := (purgeOne POSITION TOKEN_POSITIONS JSON_parse).
Local Abbreviation unlink := (unlinkToken TOKEN_POSITIONS).
Local Abbreviation sweep :=
  (deleteWalletPositions POSITION AGENT_POSITIONS TOKEN_POSITIONS JSON_parse).
Local Abbreviation fate := (fateOf POSITION JSON_parse).
Local Abbreviation forget := (forgetOne POSITION TOKEN_POSITIONS JSON_parse).
Local Abbreviation wipe :=
  (deleteAgentPositions POSITION AGENT_POSITIONS TOKEN_POSITIONS JSON_parse).

Lemma typed_unlinkToken positionId position r : typed r → typed (unlink positionId position r).
Proof.
  intros H. unfold unlinkToken.
  destruct (pj_tokenAddress position) as [ta|]; [|done].
  destruct (truthy ta); [|done].
  apply typed_drop_empty. apply typed_srem; [apply token_not_position|done].
Qed.

Lemma typed_purgeOne agentId walletAddress r n positionId :
  typed r → typed (turn (AGENT_POSITIONS agentId) walletAddress (r, n) positionId).1.
Proof.
  intros H. rewrite purgeOne_fate.
  destruct (fate walletAddress r positionId); cbn [fst].
  - apply typed_srem; [apply agent_not_position|done].
  - done.
  - apply typed_unlinkToken, typed_srem; [apply agent_not_position|]. by apply typed_del.
  - apply typed_srem; [apply agent_not_position|]. by apply typed_del.
Qed.

Lemma typed_sweep_loop agentId walletAddress ids : ∀ r n,
  typed r → typed (fold_left (turn (AGENT_POSITIONS agentId) walletAddress) ids (r, n)).1.
Proof.
  induction ids as [|id ids IH]; intros r n H; [done|].
  cbn [fold_left].
  pose proof (typed_purgeOne agentId walletAddress r n id H) as H1.
  destruct (turn _ _ (r, n) id) as [r1 n1]. by apply IH.
Qed.

Lemma typed_deleteWalletPositions agentId walletAddress r :
  typed r → typed (sweep agentId walletAddress r).1.
Proof.
  intros H. unfold deleteWalletPositions.
  pose proof (typed_sweep_loop agentId walletAddress
                (elements (smembers (AGENT_POSITIONS agentId) r)) r 0 H) as H1.
  destruct (fold_left _ _ _) as [r1 n1]. cbn [fst] in *. by apply typed_drop_empty.
Qed.

Lemma typed_forgetOne r positionId : typed r → typed (forget r positionId).
Proof.
  intros H. unfold forgetOne. apply typed_del.
  destruct (redis_get _ r) as [data|]; [|done].
  destruct (truthy data); [|done].
  destruct (JSON_parse data ≫= pj_tokenAddress) as [ta|]; [|done].
  apply typed_drop_empty. apply typed_srem; [apply token_not_position|done].
Qed.

Lemma typed_deleteAgentPositions agentId r : typed r → typed (wipe agentId r).
Proof.
  intros H. unfold deleteAgentPositions. destruct (_ =? _)%nat; [done|].
  apply typed_del. generalize (getAgentPositionIds AGENT_POSITIONS agentId r).
  intros ids. revert r H. induction ids as [|id ids IH]; intros r H; [done|].
  cbn [fold_left]. by apply IH, typed_forgetOne.
Qed.


(** X16. The typing of the store is kept by every operation that changes it:
    after [setPosition], [deletePosition], [deleteWalletPositions] and
    [deleteAgentPositions], payload keys still hold strings, index keys still
    hold sets, and no empty set is left behind. *)
Theorem storeTyped_kept r :
  typed r →
  (∀ position, typed (cachePosition position r).1)
  ∧ (∀ id agentId tokenAddress,
       typed (deletePosition POSITION AGENT_POSITIONS TOKEN_POSITIONS
                id agentId tokenAddress r))
  ∧ (∀ agentId walletAddress, typed (sweep agentId walletAddress r).1)
  ∧ (∀ agentId, typed (wipe agentId r)).
Proof.
  intros H. split; [|split; [|split]].
  - intros. by apply typed_setPosition.
  - intros. by apply typed_deletePosition.
  - intros. by apply typed_deleteWalletPositions.
  - intros. by apply typed_deleteAgentPositions.
Qed.

Local Abbreviation other := (ofOtherWallet POSITION JSON_parse).

Lemma staysIndexed_spec walletAddress r positionId :
  staysIndexed (fate walletAddress r positionId) = true ↔ other walletAddress r positionId.
Proof.
  unfold fateOf, ofOtherWallet.
  destruct (redis_get _ r) as [data|]; cbn; [|split; [done|by intros (? & ? & [=] & _)]].
  destruct (truthy data) eqn:Ht; cbn; [|split; [done|]].
  - destruct (JSON_parse data) as [position|] eqn:Hp; cbn.
    + case_bool_decide as Hw; cbn.
      * split; [done|]. intros (d & p & [= <-] & _ & Hp' & Hne). congruence.
      * split; [|done]. intros _. by exists data, position.
    + split; [done|]. intros (d & p & [= <-] & _ & Hp' & _). congruence.
  - intros (d & p & [= <-] & Ht' & _). congruence.
Qed.

Lemma staysIndexed_not_deleted f :
  staysIndexed f = true → countsAsDeleted f = false.
Proof. by destruct f. Qed.

(** X17. What [deleteWalletPositions] leaves in the agent index are exactly the
    ids it held whose payload parses and names another wallet; their payloads
    are as they were.  So no stale id, no malformed payload and no position of
    the wallet remains in the index. *)
Theorem deleteWalletPositions_leaves_other_wallets agentId walletAddress r :
  let res := sweep agentId walletAddress r in
  ∀ id,
    (id ∈ smembers (AGENT_POSITIONS agentId) res.1
     ↔ id ∈ smembers (AGENT_POSITIONS agentId) r ∧ other walletAddress r id)
    ∧ (id ∈ smembers (AGENT_POSITIONS agentId) res.1 →
       redis_get (POSITION id) res.1 = redis_get (POSITION id) r
       ∧ other walletAddress res.1 id).
Proof.
  intros res id.
  destruct (deleteWalletPositions_spec POSITION AGENT_POSITIONS TOKEN_POSITIONS
              JSON_parse position_inj position_not_agent position_not_token
              token_not_agent agentId walletAddress r) as (Hp & Ha & _ & _).
  fold res in Hp, Ha.
  assert (id ∈ smembers (AGENT_POSITIONS agentId) res.1 →
          redis_get (POSITION id) res.1 = redis_get (POSITION id) r) as Hsame.
  { intros [_ Hk]%Ha. rewrite Hp. rewrite decide_False; [done|].
    intros [_ Hd]. apply staysIndexed_not_deleted in Hk. congruence. }
  split.
  - rewrite Ha. by rewrite staysIndexed_spec.
  - intros Hin. split; [by apply Hsame|].
    pose proof Hin as [_ Hk]%Ha. apply staysIndexed_spec in Hk.
    unfold ofOtherWallet in *. by rewrite Hsame.
Qed.

(** X18. [deleteWalletPositions] leaves the positions outside the agent's
    index, and the positions of other wallets, with their payload and with
    their entries in every token index. *)
Theorem deleteWalletPositions_keeps_the_rest agentId walletAddress r id :
  let res := sweep agentId walletAddress r in
  id ∉ smembers (AGENT_POSITIONS agentId) r ∨ other walletAddress r id →
  redis_get (POSITION id) res.1 = redis_get (POSITION id) r
  ∧ ∀ t, id ∈ smembers (TOKEN_POSITIONS t) res.1 ↔ id ∈ smembers (TOKEN_POSITIONS t) r.
Proof.
  intros res Hid.
  destruct (deleteWalletPositions_spec POSITION AGENT_POSITIONS TOKEN_POSITIONS
              JSON_parse position_inj position_not_agent position_not_token
              token_not_agent agentId walletAddress r) as (Hp & _ & Ht & _).
  fold res in Hp, Ht.
  assert (id ∈ smembers (AGENT_POSITIONS agentId) r → fate walletAddress r id = Kept)
    as Hkept.
  { intros Hin. destruct Hid as [?|Ho]; [done|].
    apply staysIndexed_spec in Ho. by destruct (fate walletAddress r id). }
  split.
  - rewrite Hp. rewrite decide_False; [done|]. intros [Hin Hd].
    by rewrite (Hkept Hin) in Hd.
  - intros t. rewrite Ht. split; [by intros [? _]|]. intros Hin. split; [done|].
    intros [Hi Hk]. by rewrite (Hkept Hi) in Hk.
Qed.

Lemma stringKeys_unlinkToken positionId position r :
  typed r → stringKeys (unlink positionId position r) = stringKeys r.
Proof.
  intros (_ & _ & Ht & _). unfold unlinkToken.
  destruct (pj_tokenAddress position) as [ta|]; [|done].
  destruct (truthy ta); [|done].
  rewrite stringKeys_drop_empty; [done|]. apply Ht.
Qed.

Lemma fate_deleted_payload walletAddress r positionId :
  countsAsDeleted (fate walletAddress r positionId) = true →
  is_Some (stringKeys r !! POSITION positionId).
Proof.
  unfold fateOf, redis_get. destruct (stringKeys r !! _) as [data|]; [by eexists|done].
Qed.

Lemma purgeOne_size agentId walletAddress r n positionId :
  typed r →
  let res := turn (AGENT_POSITIONS agentId) walletAddress (r, n) positionId in
  size (stringKeys r) + n = size (stringKeys res.1) + res.2.
Proof.
  intros H res. unfold res. rewrite purgeOne_fate.
  pose proof (fate_deleted_payload walletAddress r positionId) as Hsome.
  destruct (fate walletAddress r positionId) as [| |position|]; cbn [fst snd].
  - done.
  - done.
  - rewrite stringKeys_unlinkToken.
    + cbn. rewrite map_size_delete_Some by auto.
      destruct Hsome as [x Hx]; [done|].
      assert (size (stringKeys r) ≠ 0).
      { intros H0%map_size_empty_iff. rewrite H0 in Hx. by rewrite lookup_empty in Hx. }
      lia.
    + apply typed_srem; [apply agent_not_position|]. by apply typed_del.
  - cbn. rewrite map_size_delete_Some by auto.
    destruct Hsome as [x Hx]; [done|].
    assert (size (stringKeys r) ≠ 0).
    { intros H0%map_size_empty_iff. rewrite H0 in Hx. by rewrite lookup_empty in Hx. }
    lia.
Qed.

Lemma sweep_loop_size agentId walletAddress ids : ∀ r n,
  typed r →
  let res := fold_left (turn (AGENT_POSITIONS agentId) walletAddress) ids (r, n) in
  size (stringKeys r) + n = size (stringKeys res.1) + res.2.
Proof.
  induction ids as [|id ids IH]; intros r n H; [done|].
  cbn [fold_left]. cbn zeta.
  pose proof (typed_purgeOne agentId walletAddress r n id H) as H1.
  pose proof (purgeOne_size agentId walletAddress r n id H) as H2. cbn zeta in H2.
  destruct (turn _ _ (r, n) id) as [r1 n1]. cbn [fst snd] in *.
  rewrite H2. by apply IH.
Qed.

(** X19. The number [deleteWalletPositions] returns is the number of payload
    keys it removed: the store has that many string keys fewer. *)
Theorem deleteWalletPositions_count agentId walletAddress r :
  storeTyped POSITION AGENT_POSITIONS TOKEN_POSITIONS r →
  let res :=
    deleteWalletPositions POSITION AGENT_POSITIONS TOKEN_POSITIONS JSON_parse
      agentId walletAddress r in
  size (stringKeys r) = size (stringKeys res.1) + res.2.
Proof.
  intros H res. unfold res, deleteWalletPositions.
  pose proof (sweep_loop_size agentId walletAddress
                (elements (smembers (AGENT_POSITIONS agentId) r)) r 0 H) as Hsize.
  pose proof (typed_sweep_loop agentId walletAddress
                (elements (smembers (AGENT_POSITIONS agentId) r)) r 0 H) as Htyped.
  cbn zeta in Hsize.
  destruct (fold_left _ _ _) as [r1 n1]. cbn [fst snd] in *.
  rewrite stringKeys_drop_empty; [lia|]. by destruct Htyped as (_ & Ha & _).
Qed.

Lemma sweep_loop_kept agentKey walletAddress ids : ∀ r n,
  (∀ id, id ∈ ids → fate walletAddress r id = Kept) →
  fold_left (turn agentKey walletAddress) ids (r, n) = (r, n).
Proof.
  induction ids as [|id ids IH]; intros r n H; [done|].
  cbn [fold_left]. rewrite purgeOne_fate, (H id) by left.
  apply IH. intros id' Hin. apply H. by right.
Qed.

(** After the sweep, every id of the agent index is one the sweep keeps. *)
Lemma sweep_index_kept agentId walletAddress r id :
  let res := sweep agentId walletAddress r in
  id ∈ smembers (AGENT_POSITIONS agentId) res.1 → fate walletAddress res.1 id = Kept.
Proof.
  intros res Hin.
  destruct (deleteWalletPositions_spec POSITION AGENT_POSITIONS TOKEN_POSITIONS
              JSON_parse position_inj position_not_agent position_not_token
              token_not_agent agentId walletAddress r) as (Hp & Ha & _ & _).
  fold res in Hp, Ha. apply Ha in Hin as [_ Hk].
  assert (fate walletAddress res.1 id = fate walletAddress r id) as ->.
  { unfold fateOf. rewrite Hp. rewrite decide_False; [done|].
    intros [_ Hd]. apply staysIndexed_not_deleted in Hk. congruence. }
  by destruct (fate walletAddress r id).
Qed.

(** X20. [deleteWalletPositions] is idempotent: a second sweep for the same
    agent and wallet deletes nothing, returns 0 and leaves the store as the
    first one left it. *)
Theorem deleteWalletPositions_idempotent agentId walletAddress r :
  let res :=
    deleteWalletPositions POSITION AGENT_POSITIONS TOKEN_POSITIONS JSON_parse
      agentId walletAddress r in
  deleteWalletPositions POSITION AGENT_POSITIONS TOKEN_POSITIONS JSON_parse
    agentId walletAddress res.1
  = (res.1, 0).
Proof.
  intros res.
  unfold deleteWalletPositions at 1.
  rewrite sweep_loop_kept; cycle 1.
  { intros id Hin%elem_of_elements. by apply sweep_index_kept. }
  f_equal.
  destruct (Nat.eqb_spec (scard (AGENT_POSITIONS agentId) res.1) 0) as [H0|_]; [|done].
  unfold res, deleteWalletPositions in *.
  destruct (fold_left _ _ _) as [r1 n1]. cbn [fst] in *.
  destruct (Nat.eqb_spec (scard (AGENT_POSITIONS agentId) r1) 0) as [_|Hne].
  - apply redis_del_idem.
  - done.
Qed.

Local Abbreviation tokenKeyIn := (payloadTokenKey POSITION TOKEN_POSITIONS JSON_parse).

Lemma forgetOne_payload r positionId id :
  redis_get (POSITION id) (forget r positionId)
  = if decide (id = positionId) then None else redis_get (POSITION id) r.
Proof.
  unfold forgetOne. rewrite redis_get_del.
  destruct (decide (id = positionId)) as [->|Hne].
  { by rewrite decide_True. }
  rewrite decide_False by (intros H; by apply position_inj in H).
  destruct (redis_get (POSITION positionId) r) as [data|]; [|done].
  destruct (truthy data); [|done].
  destruct (JSON_parse data ≫= pj_tokenAddress) as [ta|]; [|done].
  by rewrite redis_get_drop_empty by apply position_not_token.
Qed.

Lemma forgetOne_token r positionId t :
  smembers (TOKEN_POSITIONS t) (forget r positionId)
  = if decide (tokenKeyIn r positionId = Some (TOKEN_POSITIONS t))
    then smembers (TOKEN_POSITIONS t) r ∖ {[positionId]}
    else smembers (TOKEN_POSITIONS t) r.
Proof.
  unfold forgetOne, payloadTokenKey. rewrite smembers_del.
  rewrite decide_False by apply token_not_position.
  destruct (redis_get (POSITION positionId) r) as [data|]; [|by rewrite decide_False].
  destruct (truthy data); [|by rewrite decide_False].
  destruct (JSON_parse data ≫= pj_tokenAddress) as [ta|]; cbn; [|by rewrite decide_False].
  rewrite smembers_drop_empty, smembers_srem.
  repeat case_decide; congruence.
Qed.

Lemma forgetOne_agent r positionId a :
  smembers (AGENT_POSITIONS a) (forget r positionId) = smembers (AGENT_POSITIONS a) r.
Proof.
  unfold forgetOne. rewrite smembers_del.
  rewrite decide_False by apply agent_not_position.
  destruct (redis_get (POSITION positionId) r) as [data|]; [|done].
  destruct (truthy data); [|done].
  destruct (JSON_parse data ≫= pj_tokenAddress) as [ta|]; [|done].
  rewrite smembers_drop_empty, smembers_srem.
  rewrite decide_False; [done|]. intros H. symmetry in H. by apply token_not_agent in H.
Qed.

Lemma tokenKeyIn_after_other r positionId id :
  id ≠ positionId → tokenKeyIn (forget r positionId) id = tokenKeyIn r id.
Proof.
  intros Hne. unfold payloadTokenKey. rewrite forgetOne_payload.
  by rewrite decide_False.
Qed.

Lemma wipe_loop_spec ids :
  NoDup ids → ∀ r,
  let r' := fold_left forget ids r in
  (∀ id, redis_get (POSITION id) r'
         = if decide (id ∈ ids) then None else redis_get (POSITION id) r)
  ∧ (∀ t m, m ∈ smembers (TOKEN_POSITIONS t) r'
            ↔ m ∈ smembers (TOKEN_POSITIONS t) r
              ∧ ¬ (m ∈ ids ∧ tokenKeyIn r m = Some (TOKEN_POSITIONS t)))
  ∧ (∀ a, smembers (AGENT_POSITIONS a) r' = smembers (AGENT_POSITIONS a) r).
Proof.
  induction 1 as [|id0 rest Hnotin Hnd IH]; intros r; cbn zeta.
  { cbn. split; [|split; [|done]].
    - intros id. rewrite decide_False; [done|]. inversion 1.
    - intros t m. split; [|by intros [? _]]. intros Hm. split; [done|].
      intros [Hin _]. inversion Hin. }
  cbn [fold_left].
  destruct (IH (forget r id0)) as (Hp & Ht & Ha). clear IH.
  split; [|split].
  - intros id. rewrite Hp, forgetOne_payload. clear Hp Ht Ha.
    destruct (decide (id = id0)) as [->|Hne].
    + rewrite (decide_True (P := id0 ∈ id0 :: rest)) by left. by case_decide.
    + apply decide_ext. by rewrite (elem_of_cons_ne _ _ _ Hne).
  - intros t m. rewrite Ht, forgetOne_token. clear Hp Ht Ha.
    destruct (decide (m = id0)) as [->|Hne].
    + case_decide as Hkey.
      * rewrite elem_of_difference, elem_of_singleton. split.
        -- intros [[_ []] _]. done.
        -- intros [_ []]. split; [left|done].
      * split; intros [Hm Hno]; (split; [done|]); intros [Hin Hk]; [done|].
        by destruct Hnotin.
    + rewrite (elem_of_cons_ne _ _ _ Hne), (tokenKeyIn_after_other _ _ _ Hne).
      assert (m ∈ (if decide (tokenKeyIn r id0 = Some (TOKEN_POSITIONS t))
                   then smembers (TOKEN_POSITIONS t) r ∖ {[id0]}
                   else smembers (TOKEN_POSITIONS t) r)
              ↔ m ∈ smembers (TOKEN_POSITIONS t) r) as ->; [|done].
      case_decide; [|done].
      rewrite elem_of_difference, elem_of_singleton. tauto.
  - intros a. by rewrite Ha, forgetOne_agent.
Qed.

(** X21. After [deleteAgentPositions] the agent's index is gone with the
    payload of every id it held; an id whose payload named a token address is
    out of that token's set; the payloads and token-index entries of positions
    outside the index, and the indexes of other agents, are as they were. *)
Theorem deleteAgentPositions_spec agentId r :
  let index := smembers (AGENT_POSITIONS agentId) r in
  let r' := wipe agentId r in
  smembers (AGENT_POSITIONS agentId) r' = ∅
  ∧ (∀ id, redis_get (POSITION id) r'
           = if decide (id ∈ index) then None else redis_get (POSITION id) r)
  ∧ (∀ t m, m ∈ smembers (TOKEN_POSITIONS t) r'
            ↔ m ∈ smembers (TOKEN_POSITIONS t) r
              ∧ ¬ (m ∈ index ∧ tokenKeyIn r m = Some (TOKEN_POSITIONS t)))
  ∧ (∀ a, AGENT_POSITIONS a ≠ AGENT_POSITIONS agentId →
          smembers (AGENT_POSITIONS a) r' = smembers (AGENT_POSITIONS a) r).
Proof.
  intros index r'. unfold r', deleteAgentPositions, getAgentPositionIds. fold index.
  destruct (Nat.eqb_spec (length (elements index)) 0) as [H0|Hne].
  { assert (index = ∅) as Hempty.
    { apply leibniz_equiv, elements_empty_inv. by destruct (elements index). }
    split; [done|]. split; [|split; [|done]].
    - intros id. rewrite decide_False; [done|]. rewrite Hempty. set_solver.
    - intros t m. split; [|by intros [? _]]. intros Hm. split; [done|].
      rewrite Hempty. intros [Hin _]. set_solver. }
  destruct (wipe_loop_spec (elements index) (NoDup_elements index) r) as (Hp & Ht & Ha).
  split; [|split; [|split]].
  - rewrite smembers_del. by rewrite decide_True.
  - intros id. rewrite redis_get_del.
    rewrite decide_False by apply position_not_agent.
    rewrite Hp. apply decide_ext. by rewrite elem_of_elements.
  - intros t m. rewrite smembers_del.
    rewrite decide_False by apply token_not_agent.
    rewrite Ht. by rewrite elem_of_elements.
  - intros a Hother. rewrite smembers_del. rewrite decide_False by done. apply Ha.
Qed.

(** X22. A position cached by [setPosition] is removed by
    [deleteWalletPositions] for its agent and wallet, when its stored text
    parses back to its wallet and token address: the payload is gone, neither
    index lists the position, and it is counted. *)
Theorem deleteWalletPositions_after_setPosition position walletAddress r :
  let id := position_id position in
  let r1 := (cachePosition position r).1 in
  let res := sweep (position_agentId position) walletAddress r1 in
  truthy (serializedJson position) = true →
  truthy (position_tokenAddress position) = true →
  JSON_parse (serializedJson position)
    = Some {| pj_walletAddress := Some walletAddress;
              pj_tokenAddress := Some (position_tokenAddress position) |} →
  redis_get (POSITION id) res.1 = None
  ∧ (id ∉ getAgentPositionIds AGENT_POSITIONS (position_agentId position) res.1)
  ∧ (id ∉ getTokenPositionIds TOKEN_POSITIONS (position_tokenAddress position) res.1)
  ∧ (1 ≤ res.2).
Proof.
  intros id r1 res Hjson Htoken Hparse.
  destruct (setPosition_lookup position r) as (Hget & Hag & _).
  fold id r1 in Hget, Hag.
  unfold getAgentPositionIds, getTokenPositionIds in *.
  rewrite !elem_of_elements.
  destruct (deleteWalletPositions_spec POSITION AGENT_POSITIONS TOKEN_POSITIONS
              JSON_parse position_inj position_not_agent position_not_token
              token_not_agent (position_agentId position) walletAddress r1)
    as (Hp & Ha & Ht & Hc).
  fold res in Hp, Ha, Ht, Hc.
  assert (fate walletAddress r1 id
          = Purged {| pj_walletAddress := Some walletAddress;
                      pj_tokenAddress := Some (position_tokenAddress position) |}) as Hfate.
  { unfold fateOf. rewrite Hget, Hjson, Hparse. by rewrite bool_decide_eq_true_2. }
  split; [|split; [|split]].
  - rewrite Hp, decide_True; [done|]. by rewrite Hfate.
  - rewrite Ha, Hfate. by intros [_ ?].
  - rewrite Ht, Hfate. cbn. rewrite Htoken. intros [_ Hno]. by apply Hno.
  - rewrite Hc.
    assert (id ∈ deletedIds POSITION JSON_parse walletAddress r1
                   (elements (smembers (AGENT_POSITIONS (position_agentId position)) r1)))
      as Hcounted.
    { apply list_elem_of_filter. by rewrite Hfate, elem_of_elements. }
    destruct (deletedIds _ _ _ _ _) as [|? ?]; [inversion Hcounted|cbn; lia].
Qed.

End PositionWrites.

Lemma emptyStore_typed :
  storeTyped positionKey agentPositionsKey tokenPositionsKey emptyStore.
Proof. by repeat split. Qed.

Lemma threeIdsStore_typed :
  storeTyped positionKey agentPositionsKey tokenPositionsKey threeIdsStore.
Proof.
  split; [|split; [|split]].
  - intros id. unfold threeIdsStore. cbn [setKeys].
    by rewrite !lookup_insert_ne by done.
  - intros a. unfold threeIdsStore. cbn [stringKeys].
    by rewrite !lookup_insert_ne by done.
  - intros t. unfold threeIdsStore. cbn [stringKeys].
    by rewrite !lookup_insert_ne by done.
  - intros k. unfold threeIdsStore. cbn [setKeys].
    destruct (decide (k = agentPositionsKey "agent-1")) as [->|H1].
    { rewrite lookup_insert_eq. intros [=]. }
    rewrite lookup_insert_ne by done.
    destruct (decide (k = tokenPositionsKey "tokenb")) as [->|H2].
    { rewrite lookup_insert_eq. intros [=]. }
    rewrite lookup_insert_ne by done.
    destruct (decide (k = tokenPositionsKey "tokena")) as [->|H3].
    { rewrite lookup_insert_eq. intros [=]. }
    by rewrite lookup_insert_ne by done.
Qed.

Lemma other_in_threeIdsStore :
  ofOtherWallet positionKey parsePayload "wallet-1" threeIdsStore "p-other".
Proof.
  exists "payload of wallet-2 in TokenB",
    {| pj_walletAddress := Some "wallet-2"; pj_tokenAddress := Some "TokenB" |}.
  by repeat split.
Qed.

Lemma setPosition_indexed_witness :
  let r' :=
    (setPosition positionKey agentPositionsKey tokenPositionsKey
       ap_id ap_agentId ap_tokenAddress rowJson mineRow emptyStore).1 in
  redis_get (positionKey "p-mine") r' = Some "payload of wallet-1 in TokenA"
  ∧ "p-mine" ∈ getAgentPositionIds agentPositionsKey "agent-1" r'
  ∧ ∀ tokenAddress,
      toLowerCase tokenAddress = toLowerCase "TokenA" →
      "p-mine" ∈ getTokenPositionIds tokenPositionsKey tokenAddress r'.
Proof.
  apply (setPosition_indexed positionKey agentPositionsKey tokenPositionsKey
           ap_id ap_agentId ap_tokenAddress rowJson tokenKey_not_agent mineRow emptyStore).
Defined.

Lemma deletePosition_undoes_setPosition_witness :
  deletePosition positionKey agentPositionsKey tokenPositionsKey "p-new" "agent-1" "TOKENA"
    (setPosition positionKey agentPositionsKey tokenPositionsKey
       ap_id ap_agentId ap_tokenAddress rowJson freshRow threeIdsStore).1
  = threeIdsStore.
Proof.
  apply (deletePosition_undoes_setPosition positionKey agentPositionsKey tokenPositionsKey
           ap_id ap_agentId ap_tokenAddress rowJson
           positionKey_not_agent positionKey_not_token tokenKey_not_agent
           freshRow "TOKENA" threeIdsStore threeIdsStore_typed).
  - reflexivity.
  - apply (bool_decide_unpack _). vm_compute. exact I.
  - apply (bool_decide_unpack _). vm_compute. exact I.
  - reflexivity.
Defined.

Lemma setPosition_again_witness :
  setPosition positionKey agentPositionsKey tokenPositionsKey
    ap_id ap_agentId ap_tokenAddress rowJson mineRow
    (setPosition positionKey agentPositionsKey tokenPositionsKey
       ap_id ap_agentId ap_tokenAddress rowJson mineRow emptyStore).1
  = ((setPosition positionKey agentPositionsKey tokenPositionsKey
        ap_id ap_agentId ap_tokenAddress rowJson mineRow emptyStore).1, false).
Proof.
  apply (setPosition_again positionKey agentPositionsKey tokenPositionsKey
           ap_id ap_agentId ap_tokenAddress rowJson
           positionKey_not_agent positionKey_not_token tokenKey_not_agent
           mineRow emptyStore).
Defined.

Lemma storeTyped_kept_witness :
  (∀ position : AgentPositionRow,
     storeTyped positionKey agentPositionsKey tokenPositionsKey
       (setPosition positionKey agentPositionsKey tokenPositionsKey
          ap_id ap_agentId ap_tokenAddress rowJson position threeIdsStore).1)
  ∧ (∀ id agentId tokenAddress,
       storeTyped positionKey agentPositionsKey tokenPositionsKey
         (deletePosition positionKey agentPositionsKey tokenPositionsKey
            id agentId tokenAddress threeIdsStore))
  ∧ (∀ agentId walletAddress,
       storeTyped positionKey agentPositionsKey tokenPositionsKey
         (deleteWalletPositions positionKey agentPositionsKey tokenPositionsKey
            parsePayload agentId walletAddress threeIdsStore).1)
  ∧ (∀ agentId,
       storeTyped positionKey agentPositionsKey tokenPositionsKey
         (deleteAgentPositions positionKey agentPositionsKey tokenPositionsKey
            parsePayload agentId threeIdsStore)).
Proof.
  apply (storeTyped_kept positionKey agentPositionsKey tokenPositionsKey parsePayload
           ap_id ap_agentId ap_tokenAddress rowJson
           positionKey_not_agent positionKey_not_token threeIdsStore threeIdsStore_typed).
Defined.

Lemma deleteWalletPositions_leaves_other_wallets_witness :
  let res :=
    deleteWalletPositions positionKey agentPositionsKey tokenPositionsKey parsePayload
      "agent-1" "wallet-1" threeIdsStore in
  ("p-other" ∈ smembers (agentPositionsKey "agent-1") res.1
   ↔ "p-other" ∈ smembers (agentPositionsKey "agent-1") threeIdsStore
     ∧ ofOtherWallet positionKey parsePayload "wallet-1" threeIdsStore "p-other")
  ∧ ("p-other" ∈ smembers (agentPositionsKey "agent-1") res.1 →
     redis_get (positionKey "p-other") res.1 = redis_get (positionKey "p-other") threeIdsStore
     ∧ ofOtherWallet positionKey parsePayload "wallet-1" res.1 "p-other").
Proof.
  apply (deleteWalletPositions_leaves_other_wallets
           positionKey agentPositionsKey tokenPositionsKey parsePayload
           positionKey_inj positionKey_not_agent positionKey_not_token tokenKey_not_agent
           "agent-1" "wallet-1" threeIdsStore "p-other").
Defined.

Lemma deleteWalletPositions_keeps_the_rest_witness :
  let res :=
    deleteWalletPositions positionKey agentPositionsKey tokenPositionsKey parsePayload
      "agent-1" "wallet-1" threeIdsStore in
  redis_get (positionKey "p-other") res.1 = redis_get (positionKey "p-other") threeIdsStore
  ∧ ∀ t, "p-other" ∈ smembers (tokenPositionsKey t) res.1
         ↔ "p-other" ∈ smembers (tokenPositionsKey t) threeIdsStore.
Proof.
  apply (deleteWalletPositions_keeps_the_rest
           positionKey agentPositionsKey tokenPositionsKey parsePayload
           positionKey_inj positionKey_not_agent positionKey_not_token tokenKey_not_agent
           "agent-1" "wallet-1" threeIdsStore "p-other").
  right. apply other_in_threeIdsStore.
Defined.

Lemma deleteWalletPositions_count_witness :
  let res :=
    deleteWalletPositions positionKey agentPositionsKey tokenPositionsKey parsePayload
      "agent-1" "wallet-1" threeIdsStore in
  size (stringKeys threeIdsStore) = size (stringKeys res.1) + res.2.
Proof.
  apply (deleteWalletPositions_count
           positionKey agentPositionsKey tokenPositionsKey parsePayload
           positionKey_not_agent positionKey_not_token
           "agent-1" "wallet-1" threeIdsStore threeIdsStore_typed).
Defined.

Lemma deleteWalletPositions_idempotent_witness :
  let res :=
    deleteWalletPositions positionKey agentPositionsKey tokenPositionsKey parsePayload
      "agent-1" "wallet-1" threeIdsStore in
  deleteWalletPositions positionKey agentPositionsKey tokenPositionsKey parsePayload
    "agent-1" "wallet-1" res.1 = (res.1, 0).
Proof.
  apply (deleteWalletPositions_idempotent
           positionKey agentPositionsKey tokenPositionsKey parsePayload
           positionKey_inj positionKey_not_agent positionKey_not_token tokenKey_not_agent
           "agent-1" "wallet-1" threeIdsStore).
Defined.

Lemma deleteAgentPositions_spec_witness :
  let index := smembers (agentPositionsKey "agent-1") threeIdsStore in
  let r' :=
    deleteAgentPositions positionKey agentPositionsKey tokenPositionsKey parsePayload
      "agent-1" threeIdsStore in
  smembers (agentPositionsKey "agent-1") r' = ∅
  ∧ (∀ id, redis_get (positionKey id) r'
           = if decide (id ∈ index) then None else redis_get (positionKey id) threeIdsStore)
  ∧ (∀ t m, m ∈ smembers (tokenPositionsKey t) r'
            ↔ m ∈ smembers (tokenPositionsKey t) threeIdsStore
              ∧ ¬ (m ∈ index
                   ∧ payloadTokenKey positionKey tokenPositionsKey parsePayload
                       threeIdsStore m = Some (tokenPositionsKey t)))
  ∧ (∀ a, agentPositionsKey a ≠ agentPositionsKey "agent-1" →
          smembers (agentPositionsKey a) r' = smembers (agentPositionsKey a) threeIdsStore).
Proof.
  apply (deleteAgentPositions_spec
           positionKey agentPositionsKey tokenPositionsKey parsePayload
           positionKey_inj positionKey_not_agent positionKey_not_token tokenKey_not_agent
           "agent-1" threeIdsStore).
Defined.

(** The store of the scenario after the agent is deleted: nothing is left. *)
Example delete_agent_positions_run :
  deleteAgentPositions positionKey agentPositionsKey tokenPositionsKey parsePayload
    "agent-1" threeIdsStore
  = emptyStore.
Proof. by vm_compute. Qed.

Lemma deleteWalletPositions_after_setPosition_witness :
  let r1 :=
    (setPosition positionKey agentPositionsKey tokenPositionsKey
       ap_id ap_agentId ap_tokenAddress rowJson mineRow emptyStore).1 in
  let res :=
    deleteWalletPositions positionKey agentPositionsKey tokenPositionsKey parsePayload
      "agent-1" "wallet-1" r1 in
  redis_get (positionKey "p-mine") res.1 = None
  ∧ ("p-mine" ∉ getAgentPositionIds agentPositionsKey "agent-1" res.1)
  ∧ ("p-mine" ∉ getTokenPositionIds tokenPositionsKey "TokenA" res.1)
  ∧ (1 ≤ res.2).
Proof.
  apply (deleteWalletPositions_after_setPosition
           positionKey agentPositionsKey tokenPositionsKey parsePayload
           ap_id ap_agentId ap_tokenAddress rowJson
           positionKey_inj positionKey_not_agent positionKey_not_token tokenKey_not_agent
           mineRow "wallet-1" emptyStore); reflexivity.
Defined.

(** Caching the position and sweeping its wallet gives back the empty store. *)
Example set_then_sweep_run :
  deleteWalletPositions positionKey agentPositionsKey tokenPositionsKey parsePayload
    "agent-1" "wallet-1"
    (setPosition positionKey agentPositionsKey tokenPositionsKey
       ap_id ap_agentId ap_tokenAddress rowJson mineRow emptyStore).1
  = (emptyStore, 1).
Proof. by vm_compute. Qed.

(** *** The token metadata service: decimals *)

Lemma count_app p l1 l2 : countCalls p (l1 ++ l2) = countCalls p l1 + countCalls p l2.
Proof. unfold countCalls. by rewrite List.filter_app, length_app. Qed.

Lemma decimalsAt_range data : (0 ≤ decimalsAt data ≤ 255)%Z.
Proof.
  unfold decimalsAt. destruct (data !! 44) as [b|]; [|lia].
  pose proof (Byte.to_N_bounded b). lia.
Qed.

Section TokenMetadataProperties.
Variable chain : Chain.

(** One attempt: what it adds to the calls, and what it leaves alone. *)
Lemma fetchDecimalsFromChain_calls tokenAddress s :
  let res := fetchDecimalsFromChain chain tokenAddress s in
  connection res.2 = connection s
  ∧ decimalsCache res.2 = decimalsCache s
  ∧ ∃ new, chainCalls res.2 = new ++ chainCalls s
           ∧ countCalls isRpc new ≤ 1 ∧ countCalls isDelay new = 0 ∧ countCalls isWarning new = 0.
Proof.
  unfold fetchDecimalsFromChain.
  destruct (PublicKey_error chain tokenAddress); cbn.
  { split; [done|]. split; [done|]. exists []. cbn. split; [done|]. split; [lia|done]. }
  destruct (connection s) as [url|] eqn:Hc; cbn.
  2:{ split; [done|]. split; [done|]. exists []. cbn. split; [done|]. split; [lia|done]. }
  destruct (getAccountInfo_reply _ _ _) as [msg|[data|]]; cbn;
    try destruct (_ <=? _)%nat; cbn; (split; [done|]); (split; [done|]);
    exists [CallGetAccountInfo url tokenAddress]; cbn; (split; [done|]); (split; [lia|done]).
Qed.

Lemma fetchDecimalsFromChain_range tokenAddress s d s' :
  fetchDecimalsFromChain chain tokenAddress s = (inr d, s') → (0 ≤ d ≤ 255)%Z.
Proof.
  unfold fetchDecimalsFromChain.
  destruct (PublicKey_error chain tokenAddress); [done|].
  destruct (connection s) as [url|]; [|done].
  destruct (getAccountInfo_reply _ _ _) as [msg|[data|]]; try done.
  destruct (_ <? _)%nat; [done|]. intros [= <- _]. apply decimalsAt_range.
Qed.

(** The loop: the outcome, and the calls it adds. *)
Lemma fetchDecimalsLoop_spec left : ∀ attempt lastError tokenAddress s,
  attempt + left = S MAX_RETRIES →
  let res := fetchDecimalsLoop chain left attempt lastError tokenAddress s in
  connection res.2 = connection s
  ∧ (∃ new, chainCalls res.2 = new ++ chainCalls s
            ∧ countCalls isRpc new ≤ left
            ∧ countCalls isDelay new ≤ pred left
            ∧ match res.1 with
              | inr d =>
                  (0 ≤ d ≤ 255)%Z
                  ∧ decimalsCache res.2 = <[tokenAddress := d]> (decimalsCache s)
              | inl e =>
                  decimalsCache res.2 = decimalsCache s
                  ∧ tms_code e = "DECIMALS_FETCH_FAILED"
                  ∧ tms_tokenAddress e = tokenAddress
                  ∧ (0 < left → is_Some (tms_lastError e))
                  ∧ (left = 0 → tms_lastError e = lastError)
                  ∧ countCalls isWarning new = left
                  ∧ countCalls isDelay new = pred left
              end).
Proof.
  induction left as [|left IH]; intros attempt lastError tokenAddress s Hleft; cbn zeta.
  { cbn. split; [done|]. exists []. cbn. repeat split; try done; lia. }
  cbn [fetchDecimalsLoop].
  pose proof (fetchDecimalsFromChain_calls tokenAddress s) as (Hc1 & Hd1 & new1 & Hn1 & Hr1 & Hy1 & Hw1).
  pose proof (fetchDecimalsFromChain_range tokenAddress s) as Hrange.
  destruct (fetchDecimalsFromChain chain tokenAddress s) as [[error|d] s1]; cbn [fst snd] in *.
  2:{ split; [done|]. exists new1. cbn. repeat split; try lia.
      - done.
      - apply (Hrange d s1 eq_refl).
      - apply (Hrange d s1 eq_refl).
      - by rewrite Hd1. }
  set (s2 := called (CallLog Warn "Token decimals fetch attempt failed") s1).
  set (s3 := if (attempt <? MAX_RETRIES)%nat then delay RETRY_DELAY_MS s2 else s2).
  assert (connection s3 = connection s ∧ decimalsCache s3 = decimalsCache s
          ∧ ∃ mid, chainCalls s3 = mid ++ chainCalls s
                   ∧ countCalls isRpc mid ≤ 1
                   ∧ countCalls isWarning mid = 1
                   ∧ countCalls isDelay mid = if (attempt <? MAX_RETRIES)%nat then 1 else 0)
    as (Hc3 & Hd3 & mid & Hn3 & Hr3 & Hw3 & Hy3).
  { unfold s3, s2. destruct (attempt <? MAX_RETRIES)%nat; cbn; (split; [done|]); (split; [done|]).
    - exists (CallDelay RETRY_DELAY_MS :: CallLog Warn "Token decimals fetch attempt failed" :: new1).
      cbn. rewrite Hn1. repeat split; unfold countCalls in *; cbn; lia.
    - exists (CallLog Warn "Token decimals fetch attempt failed" :: new1).
      cbn. rewrite Hn1. repeat split; unfold countCalls in *; cbn; lia. }
  clearbody s3. clear s2.
  assert (S attempt + left = S MAX_RETRIES) as Hleft' by lia.
  destruct (IH (S attempt) (Some error) tokenAddress s3 Hleft') as (Hc & new & Hn & Hr & Hy & Hres).
  clear IH.
  assert ((if (attempt <? MAX_RETRIES)%nat then 1 else 0) = if (left =? 0)%nat then 0 else 1)
    as Hdelay.
  { destruct (Nat.ltb_spec attempt MAX_RETRIES), (Nat.eqb_spec left 0); lia. }
  rewrite Hdelay in Hy3.
  split; [congruence|].
  exists (new ++ mid). split; [by rewrite Hn, Hn3, app_assoc|].
  rewrite !count_app. split; [lia|]. split.
  { destruct (Nat.eqb_spec left 0); lia. }
  destruct (fetchDecimalsLoop chain left (S attempt) (Some error) tokenAddress s3).1
    as [e|d].
  - destruct Hres as (Hd & Hcode & Htok & Hlast & Hlast0 & Hw & Hyy).
    split; [congruence|]. split; [done|]. split; [done|]. split.
    { intros _. destruct left; [rewrite Hlast0 by done; by eexists|apply Hlast; lia]. }
    split; [lia|]. split; [lia|].
    destruct (Nat.eqb_spec left 0); lia.
  - destruct Hres as [Hd Hcache]. split; [done|]. by rewrite Hcache, Hd3.
Qed.


Lemma initialize_calls rpcUrl s :
  ∃ new, chainCalls (initialize chain rpcUrl s) = new ++ chainCalls s
         ∧ countCalls isRpc new = 0 ∧ countCalls isDelay new = 0 ∧ countCalls isWarning new = 0.
Proof.
  unfold initialize. destruct (connection s); [by exists []|].
  by exists [CallLog Info "TokenMetadataService initialized"].
Qed.

Lemma isSolMint_dec tokenAddress :
  String.eqb (toLowerCase tokenAddress) (toLowerCase SOL_MINT_ADDRESS) = true
  ↔ isSolMint tokenAddress.
Proof. apply String.eqb_eq. Qed.



Lemma connected_calls s :
  ∃ new, chainCalls (connected chain s) = new ++ chainCalls s
         ∧ countCalls isRpc new = 0 ∧ countCalls isDelay new = 0 ∧ countCalls isWarning new = 0.
Proof.
  unfold connected. destruct (connection s); [by exists []|]. apply initialize_calls.
Qed.

Lemma getTokenDecimals_miss tokenAddress s :
  decimalsCache s !! tokenAddress = None →
  ¬ isSolMint tokenAddress →
  getTokenDecimals chain tokenAddress s
  = fetchDecimalsLoop chain MAX_RETRIES 1 None tokenAddress (connected chain s).
Proof.
  intros Hmiss Hsol. unfold getTokenDecimals. rewrite Hmiss.
  destruct (String.eqb _ _) eqn:E; [by apply isSolMint_dec in E|].
  unfold fetchDecimalsWithRetry, connected. by destruct (connection s).
Qed.

Lemma getTokenDecimals_cases tokenAddress s :
  (∃ d, decimalsCache s !! tokenAddress = Some d
        ∧ getTokenDecimals chain tokenAddress s = (inr d, s))
  ∨ (decimalsCache s !! tokenAddress = None ∧ isSolMint tokenAddress
     ∧ getTokenDecimals chain tokenAddress s
       = (inr SOL_DECIMALS, cacheDecimals tokenAddress SOL_DECIMALS s))
  ∨ (decimalsCache s !! tokenAddress = None ∧ ¬ isSolMint tokenAddress
     ∧ getTokenDecimals chain tokenAddress s
       = fetchDecimalsLoop chain MAX_RETRIES 1 None tokenAddress (connected chain s)).
Proof.
  destruct (decimalsCache s !! tokenAddress) as [d|] eqn:Hc.
  { left. exists d. split; [done|]. unfold getTokenDecimals. by rewrite Hc. }
  right. destruct (String.eqb (toLowerCase tokenAddress) (toLowerCase SOL_MINT_ADDRESS)) eqn:E.
  - left. split; [done|]. split; [by apply isSolMint_dec|].
    unfold getTokenDecimals. by rewrite Hc, E.
  - right. split; [done|].
    assert (¬ isSolMint tokenAddress) as Hsol.
    { intros H%isSolMint_dec. congruence. }
    split; [done|]. by apply getTokenDecimals_miss.
Qed.


(** X26. Whatever happens, one call of [getTokenDecimals] makes at most
    [MAX_RETRIES] requests to the RPC node and waits fewer than [MAX_RETRIES]
    times. *)
Theorem getTokenDecimals_bounded tokenAddress s :
  ∃ new, chainCalls (getTokenDecimals chain tokenAddress s).2 = new ++ chainCalls s
         ∧ countCalls isRpc new ≤ MAX_RETRIES
         ∧ countCalls isDelay new < MAX_RETRIES.
Proof.
  destruct (getTokenDecimals_cases tokenAddress s)
    as [(d & _ & E)|[(_ & _ & E)|(Hmiss & Hsol & E)]]; rewrite E.
  - exists []. cbn. unfold MAX_RETRIES. split; [done|]. split; lia.
  - exists []. cbn. unfold MAX_RETRIES. split; [done|]. split; lia.
  - destruct (fetchDecimalsLoop_spec MAX_RETRIES 1 None tokenAddress (connected chain s) eq_refl)
      as (_ & new & Hn & Hr & Hy & _).
    destruct (connected_calls s) as (new0 & Hn0 & Hr0 & Hy0 & Hw0).
    exists (new ++ new0). split; [by rewrite Hn, Hn0, app_assoc|].
    rewrite !count_app. cbn in *. unfold MAX_RETRIES in *. lia.
Qed.

(** X24. Once [getTokenDecimals] has returned the decimals of a token, a later
    call returns the same number from the cache: it changes nothing and asks
    nothing of the chain. *)
Theorem getTokenDecimals_stable tokenAddress s d s' :
  getTokenDecimals chain tokenAddress s = (inr d, s') →
  getTokenDecimals chain tokenAddress s' = (inr d, s').
Proof.
  intros Hrun.
  assert (decimalsCache s' !! tokenAddress = Some d) as Hcached.
  { destruct (getTokenDecimals_cases tokenAddress s)
      as [(d0 & Hc & E)|[(_ & _ & E)|(Hmiss & Hsol & E)]]; rewrite E in Hrun.
    - by injection Hrun as <- <-.
    - injection Hrun as <- <-. cbn. apply lookup_insert_eq.
    - destruct (fetchDecimalsLoop_spec MAX_RETRIES 1 None tokenAddress (connected chain s)
                  eq_refl) as (_ & new & _ & _ & _ & Hres).
      rewrite Hrun in Hres. cbn [fst snd] in Hres. destruct Hres as [_ ->].
      apply lookup_insert_eq. }
  unfold getTokenDecimals. by rewrite Hcached.
Qed.

Lemma decimalsSound_insert tokenAddress d s :
  decimalsSound s → (0 ≤ d ≤ 255)%Z → (isSolMint tokenAddress → d = SOL_DECIMALS) →
  ∀ s', decimalsCache s' = <[tokenAddress := d]> (decimalsCache s) → decimalsSound s'.
Proof.
  intros Hs Hd Hsol s' Hc addr d'. rewrite Hc.
  destruct (decide (addr = tokenAddress)) as [->|Hne].
  - rewrite lookup_insert_eq. by intros [= <-].
  - rewrite lookup_insert_ne by done. apply Hs.
Qed.

Lemma decimalsSound_initialize rpcUrl s :
  decimalsSound s → decimalsSound (initialize chain rpcUrl s).
Proof.
  intros Hs. unfold initialize. destruct (connection s); [done|].
  apply (decimalsSound_insert SOL_MINT_ADDRESS SOL_DECIMALS s); [done| |done|done].
  unfold SOL_DECIMALS. lia.
Qed.

Lemma decimalsSound_connected s : decimalsSound s → decimalsSound (connected chain s).
Proof.
  intros Hs. unfold connected. destruct (connection s); [done|].
  by apply decimalsSound_initialize.
Qed.

(** X27. Every number in the decimals cache is a byte, and the number for any
    spelling of the SOL mint is 9: [initialize], [clearCache] and
    [getTokenDecimals] keep this, and every number [getTokenDecimals] returns
    satisfies it. *)
Theorem decimalsSound_kept s :
  decimalsSound s →
  (∀ rpcUrl, decimalsSound (initialize chain rpcUrl s))
  ∧ decimalsSound (clearCache s)
  ∧ ∀ tokenAddress,
      decimalsSound (getTokenDecimals chain tokenAddress s).2
      ∧ ∀ d, (getTokenDecimals chain tokenAddress s).1 = inr d →
             (0 ≤ d ≤ 255)%Z ∧ (isSolMint tokenAddress → d = SOL_DECIMALS).
Proof.
  intros Hs. split; [intros; by apply decimalsSound_initialize|]. split.
  { intros addr d. cbn. by rewrite lookup_empty. }
  intros tokenAddress.
  destruct (getTokenDecimals_cases tokenAddress s)
    as [(d0 & Hc & E)|[(_ & Hsol & E)|(Hmiss & Hsol & E)]]; rewrite E; cbn [fst snd].
  - split; [done|]. intros d [= <-]. by apply Hs.
  - assert ((0 ≤ SOL_DECIMALS ≤ 255)%Z) as Hrange by (unfold SOL_DECIMALS; lia).
    split; [by apply (decimalsSound_insert tokenAddress SOL_DECIMALS s)|].
    by intros d [= <-].
  - destruct (fetchDecimalsLoop_spec MAX_RETRIES 1 None tokenAddress (connected chain s) eq_refl)
      as (_ & new & _ & _ & _ & Hres).
    pose proof (decimalsSound_connected s Hs) as Hs1.
    destruct (fetchDecimalsLoop chain MAX_RETRIES 1 None tokenAddress (connected chain s))
      as [[e|d] s']; cbn [fst snd] in *.
    + destruct Hres as [Hd _]. split; [|done]. intros addr d'. rewrite Hd. apply Hs1.
    + destruct Hres as [Hrange Hd].
      split; [by apply (decimalsSound_insert tokenAddress d (connected chain s))|].
      by intros d' [= <-].
Qed.

(** X23. For any spelling of the SOL mint address [getTokenDecimals] answers
    9, without opening a connection and without a request. *)
Theorem getTokenDecimals_sol tokenAddress s :
  decimalsSound s → isSolMint tokenAddress →
  ∃ s', getTokenDecimals chain tokenAddress s = (inr SOL_DECIMALS, s')
        ∧ chainCalls s' = chainCalls s
        ∧ connection s' = connection s.
Proof.
  intros Hs Hsol.
  destruct (getTokenDecimals_cases tokenAddress s)
    as [(d0 & Hc & E)|[(_ & _ & E)|(_ & Hno & _)]]; [| |done]; rewrite E.
  - destruct (Hs _ _ Hc) as [_ Hd]. rewrite (Hd Hsol). by exists s.
  - by eexists.
Qed.

End TokenMetadataProperties.

Lemma newService_sound : decimalsSound newService.
Proof. intros tokenAddress d H. cbn in H. by rewrite lookup_empty in H. Qed.

Lemma getTokenDecimals_sol_witness :
  ∃ s',
    getTokenDecimals deadChain "SO11111111111111111111111111111111111111112" newService
      = (inr SOL_DECIMALS, s')
    ∧ chainCalls s' = chainCalls newService
    ∧ connection s' = connection newService.
Proof.
  apply (getTokenDecimals_sol deadChain "SO11111111111111111111111111111111111111112"
           newService newService_sound).
  reflexivity.
Defined.

Lemma getTokenDecimals_stable_witness :
  let s' := (getTokenDecimals mintChain TOKEN newService).2 in
  getTokenDecimals mintChain TOKEN s' = (inr 6%Z, s').
Proof.
  apply (getTokenDecimals_stable mintChain TOKEN newService 6%Z).
  vm_compute. reflexivity.
Defined.


Lemma decimalsSound_kept_witness :
  (∀ rpcUrl, decimalsSound (initialize mintChain rpcUrl newService))
  ∧ decimalsSound (clearCache newService)
  ∧ ∀ tokenAddress,
      decimalsSound (getTokenDecimals mintChain tokenAddress newService).2
      ∧ ∀ d, (getTokenDecimals mintChain tokenAddress newService).1 = inr d →
             (0 ≤ d ≤ 255)%Z ∧ (isSolMint tokenAddress → d = SOL_DECIMALS).
Proof.
  apply (decimalsSound_kept mintChain newService newService_sound).
Defined.

(** The calls of a failed read, the newest first: two requests, two warnings,
    one delay between the attempts, after the service connected itself. *)
Example getTokenDecimals_failure_run :
  chainCalls (getTokenDecimals deadChain TOKEN newService).2
  = [CallLog Warn "Token decimals fetch attempt failed";
     CallGetAccountInfo "https://api.mainnet-beta.solana.com" TOKEN;
     CallDelay 500;
     CallLog Warn "Token decimals fetch attempt failed";
     CallGetAccountInfo "https://api.mainnet-beta.solana.com" TOKEN;
     CallLog Info "TokenMetadataService initialized"].
Proof. by vm_compute. Qed.

(** A successful read: byte 44 of the account, cached beside the decimals of
    SOL that [initialize] stores. *)
Example getTokenDecimals_success_run :
  let run := getTokenDecimals mintChain TOKEN newService in
  run.1 = inr 6%Z
  ∧ decimalsCache run.2 !! TOKEN = Some 6%Z
  ∧ decimalsCache run.2 !! SOL_MINT_ADDRESS = Some 9%Z
  ∧ countCalls isRpc (chainCalls run.2) = 1.
Proof. repeat split; vm_compute; reflexivity. Qed.
